(** * babbel2anki: a model of [babbel2anki.py] and its checked properties

    The script pages through a vocabulary search API, drops the entries that
    the export file already lists, downloads the image and the sound of each
    remaining entry, and appends one row per entry to the export file.

    The model follows the script function by function.  Python values are
    JSON values, dictionaries are finite maps, exceptions are a sum type, and
    the file system, the network and the logger are fields of an explicit
    state that every effectful function threads. *)

From stdpp Require Import gmap strings list fin_maps pretty.
From Stdlib Require Import ZArith Lia Ascii.

Set Warnings "-register-all".

Open Scope Z_scope.

(** ** Python values

    What [json.loads] builds.  Numbers are Python [int]s; a number written
    with a fraction or an exponent (a Python [float]) is not part of the
    model. *)

Inductive json : Type :=
  | JNull
  | JBool (b : bool)
  | JNum (z : Z)
  | JStr (s : string)
  | JArr (items : list json)
  | JObj (fields : gmap string json).

(** ** Exceptions *)

Inductive exn : Type :=
  | ValidationError          (* jsonschema.exceptions.ValidationError *)
  | KeyError (key : string)
  | TypeError
  | IndexError
  | AttributeError
  | ValueError               (* the body of a reply is not JSON *)
  | ZeroDivisionError
  | OverflowError
  | RequestException.        (* requests.get could not complete the call *)

Inductive result (A : Type) : Type :=
  | Ok (a : A)
  | Raise (e : exn).
Arguments Ok {A} a.
Arguments Raise {A} e.

#[global] Instance result_ret : MRet result := λ A a, Ok a.
#[global] Instance result_bind : MBind result := λ A B f r,
  match r with
  | Ok a => f a
  | Raise e => Raise e
  end.

(** ** Builtins *)

(** [v[k]] *)
Definition getitem (v : json) (k : string) : result json :=
  match v with
  | JObj d => match d !! k with
              | Some x => Ok x
              | None => Raise (KeyError k)
              end
  | _ => Raise TypeError
  end.

(** [v[k] = x] *)
Definition setitem (v : json) (k : string) (x : json) : result json :=
  match v with
  | JObj d => Ok (JObj (<[k := x]> d))
  | _ => Raise TypeError
  end.

(** [row[0]] on a list *)
Definition first_field (row : list string) : result string :=
  match row with
  | x :: _ => Ok x
  | [] => Raise IndexError
  end.

(** [x in l] on a list of strings *)
Definition py_in (x : string) (l : list string) : bool :=
  existsb (String.eqb x) l.

(** [s.replace(c, "")] for a one-character [c] *)
Fixpoint remove_char (c : ascii) (s : string) : string :=
  match s with
  | EmptyString => EmptyString
  | String a s' =>
      if Ascii.eqb a c then remove_char c s' else String a (remove_char c s')
  end.

(** [v.replace(c, "")]: only [str] has the method *)
Definition py_replace (v : json) (c : ascii) : result json :=
  match v with
  | JStr s => Ok (JStr (remove_char c s))
  | _ => Raise AttributeError
  end.

(** [l.extend(v)].  Strings and dictionaries can be iterated as well, but the
    only call comes after validation has made [v] a list. *)
Definition extend (l : list json) (v : json) : result (list json) :=
  match v with
  | JArr items => Ok (l ++ items)
  | _ => Raise TypeError
  end.

(** [s.endswith(c)] for a one-character [c] *)
Fixpoint ends_with (c : ascii) (s : string) : bool :=
  match s with
  | EmptyString => false
  | String a EmptyString => Ascii.eqb a c
  | String _ s' => ends_with c s'
  end.

(** [os.path.join(d, f)] *)
Definition path_join (d f : string) : string :=
  match f with
  | String "/" _ => f
  | _ => if String.eqb d "" || ends_with "/" d then d +:+ f
         else d +:+ "/" +:+ f
  end.

Section Text.
(** The text Python prints for a list or a dictionary.  Nothing in the
    script depends on its form. *)
Variable py_repr : json → string.

(** [str(v)] *)
Definition py_str (v : json) : string :=
  match v with
  | JNull => "None"
  | JBool true => "True"
  | JBool false => "False"
  | JNum z => pretty z
  | JStr s => s
  | _ => py_repr v
  end.

(** A format string with a single [{}]: the text before it and after it. *)
Definition template : Type := string * string.

(** [t.format(v)] *)
Definition format (t : template) (v : json) : string :=
  t.1 +:+ py_str v +:+ t.2.

(** How [csv.writer] turns a field into text: [None] is the empty field,
    anything else goes through [str]. *)
Definition csv_field (v : json) : string :=
  match v with
  | JNull => ""
  | _ => py_str v
  end.
End Text.

(** ** [int / int] followed by [math.ceil]

    CPython divides two [int]s into the binary64 number nearest to the exact
    quotient, ties going to the even mantissa, and raises [OverflowError]
    when that number is too large.  A finite binary64 number is kept as
    [mantissa * 2 ^ exponent]. *)

Definition binary64 : Type := Z * Z.

(** [num / den] rounded to the nearest integer, ties to even *)
Definition round_half_even (num den : Z) : Z :=
  let q := num / den in
  let r := num mod den in
  if (den <? 2 * r) || ((den =? 2 * r) && Z.odd q) then q + 1 else q.

(** [a / (b * 2 ^ e)] as a fraction of two integers *)
Definition scaled (a b e : Z) : Z * Z :=
  if 0 <=? e then (a, b * 2 ^ e) else (a * 2 ^ (- e), b).

(** The exponent that leaves 53 bits of [a / b] before the binary point,
    and no less than the exponent of the subnormal numbers. *)
Definition quotient_exponent (a b : Z) : Z :=
  let e := Z.log2 a - Z.log2 b - 52 in
  let '(num, den) := scaled a b e in
  Z.max (-1074) (if num / den <? 2 ^ 52 then e - 1 else e).

(** The binary64 number nearest to [a / b], for [0 <= a] and [0 < b] *)
Definition nearest_binary64 (a b : Z) : binary64 :=
  if a =? 0 then (0, 0)
  else
    let e := quotient_exponent a b in
    let '(num, den) := scaled a b e in
    (round_half_even num den, e).

(** [a / b] on two [int]s *)
Definition int_truediv (a b : Z) : result binary64 :=
  if b =? 0 then Raise ZeroDivisionError
  else
    let '(m, e) := nearest_binary64 (Z.abs a) (Z.abs b) in
    if (0 <=? e) && (2 ^ 1024 <=? m * 2 ^ e) then Raise OverflowError
    else Ok (Z.sgn a * Z.sgn b * m, e).

(** [x / y] *)
Definition truediv (x y : json) : result binary64 :=
  match x, y with
  | JNum a, JNum b => int_truediv a b
  | _, _ => Raise TypeError
  end.

(** [math.ceil(x)] *)
Definition math_ceil (x : binary64) : Z :=
  let '(m, e) := x in
  if 0 <=? e then m * 2 ^ e else - ((- m) / 2 ^ (- e)).

(** ** The response schema

    A schema is the set of instances it accepts, and each keyword of JSON
    Schema draft 4 that the script uses is a schema of its own. *)

Definition json_schema : Type := json → bool.

Inductive json_type : Type := TObject | TArray | TNumber.

(** ["type": t].  A boolean is not a number. *)
Definition type_ (t : json_type) : json_schema := λ v,
  match t, v with
  | TObject, JObj _ => true
  | TArray, JArr _ => true
  | TNumber, JNum _ => true
  | _, _ => false
  end.

(** ["properties": ps] constrains the listed members that are present, and
    accepts whatever is not an object. *)
Definition properties (ps : list (string * json_schema)) : json_schema := λ v,
  match v with
  | JObj d =>
      forallb (λ p : string * json_schema,
                 match d !! p.1 with
                 | Some x => p.2 x
                 | None => true
                 end) ps
  | _ => true
  end.

(** ["required": ks] asks an object for the listed members, and accepts
    whatever is not an object. *)
Definition required (ks : list string) : json_schema := λ v,
  match v with
  | JObj d => forallb (λ k, bool_decide (is_Some (d !! k))) ks
  | _ => true
  end.

(** The keywords written side by side in one schema object *)
Definition all_of (ss : list json_schema) : json_schema := λ v,
  forallb (λ s : json_schema, s v) ss.

(** [schema["definitions"]["review"]] *)
Definition review : json_schema :=
  all_of [ type_ TObject;
           properties [ ("trainer_items", type_ TArray);
                        ("total_filtered_items", type_ TNumber);
                        ("per_page_limit", type_ TNumber);
                        ("page", type_ TNumber) ];
           required [ "trainer_items"; "total_filtered_items";
                      "per_page_limit"; "page" ] ].

(** [schema]; ["$ref": "#/definitions/review"] is the definition above. *)
Definition schema : json_schema :=
  all_of [ type_ TObject;
           properties [ ("review", review) ] ].

(** [jsonschema.validate(instance, s)] *)
Definition jsonschema_validate (instance : json) (s : json_schema) : result unit :=
  if s instance then Ok tt else Raise ValidationError.

(** ** The world the script runs in *)

Inductive media_type : Type := Image | Audio.

#[global] Instance media_type_eq_dec : EqDecision media_type.
Proof. solve_decision. Defined.

(** What a server answers to a GET: nothing, when the call cannot be
    completed, or a status and a body. *)
Inductive reply (B : Type) : Type :=
  | NoReply
  | Reply (status : Z) (body : B).
Arguments NoReply {B}.
Arguments Reply {B} status body.

(** The two remote services.  The body of a search reply is the JSON value it
    parses to, if it parses. *)
Record remote : Type := Remote {
  search : Z → reply (option json);   (* by the [page] parameter *)
  media : string → reply string       (* by URL *)
}.

Inductive request : Type :=
  | SearchRequest (page : Z)
  | MediaRequest (url : string).

(** The lines the script logs, with the numbers they carry *)
Inductive log_line : Type :=
  | DownloadingList
  | Downloaded (items : nat) (pages : Z)
  | Filtering
  | Identified (new existing : nat)
  | DownloadingMedia (t : media_type)
  | AlreadyExisted (existing total : nat) (t : media_type)
  | WritingCsv
  | Wrote (rows : nat).

(** The export file is the list of records [csv.reader] yields from it (the
    quoting of the [unix] dialect is not modelled), a media file is its bytes
    under its path, and the list that the page coroutines share is a cell of
    the state.  The network is observed twice: when a request is handed to
    the pool, and when its future completes and resumes the coroutine that
    waits for it. *)
Record state : Type := State {
  csv_file : option (list (list string));   (* [None]: no such file *)
  media_files : gmap string string;
  requests : list request;                  (* handed to the pool, oldest first *)
  completed : list request;                 (* resumed a coroutine, oldest first *)
  log : list log_line;                      (* oldest first *)
  vocabulary_cell : list json
}.

(** Computations that read and write the state and may raise *)
Definition M (A : Type) : Type := state → result A * state.

#[global] Instance M_ret : MRet M := λ A a σ, (Ok a, σ).
#[global] Instance M_bind : MBind M := λ A B f m σ,
  match m σ with
  | (Ok a, σ') => f a σ'
  | (Raise e, σ') => (Raise e, σ')
  end.

Definition lift {A} (r : result A) : M A := λ σ, (r, σ).

Definition get_state : M state := λ σ, (Ok σ, σ).

Definition modify (f : state → state) : M unit := λ σ, (Ok tt, f σ).

(** [logger.info] *)
Definition info (l : log_line) : M unit :=
  modify (λ σ, State (csv_file σ) (media_files σ) (requests σ) (completed σ)
                     (log σ ++ [l]) (vocabulary_cell σ)).

(** [loop.run_in_executor(executor, requests.get, ...)]: the request is
    handed to the pool. *)
Definition run_in_executor (r : request) : M unit :=
  modify (λ σ, State (csv_file σ) (media_files σ) (requests σ ++ [r])
                     (completed σ) (log σ) (vocabulary_cell σ)).

(** The future of request [r] completes: the coroutine that waits for it is
    resumed with the reply, or with the exception of the call. *)
Definition resume_with {B} (r : request) (answer : reply B) : M B :=
  modify (λ σ, State (csv_file σ) (media_files σ) (requests σ)
                     (completed σ ++ [r]) (log σ) (vocabulary_cell σ));;
  match answer with
  | Reply _ body => mret body
  | NoReply => lift (Raise RequestException)
  end.

(** [os.path.isfile] *)
Definition isfile (path : string) : M bool :=
  σ ← get_state; mret (bool_decide (is_Some (media_files σ !! path))).

(** [open(path, 'wb')] and [write] *)
Definition write_file (path content : string) : M unit :=
  modify (λ σ, State (csv_file σ) (<[path := content]> (media_files σ))
                     (requests σ) (completed σ) (log σ) (vocabulary_cell σ)).

(** [open(csv_filename, 'a')] creates the file when there is none. *)
Definition open_append : M unit :=
  modify (λ σ, State (Some (default [] (csv_file σ))) (media_files σ)
                     (requests σ) (completed σ) (log σ) (vocabulary_cell σ)).

(** [writer.writerows] on the file opened for appending *)
Definition writerows (rows : list (list string)) : M unit :=
  modify (λ σ, State (Some (default [] (csv_file σ) ++ rows)) (media_files σ)
                     (requests σ) (completed σ) (log σ) (vocabulary_cell σ)).

Definition set_vocabulary (l : list json) : M unit :=
  modify (λ σ, State (csv_file σ) (media_files σ) (requests σ) (completed σ)
                     (log σ) l).

(** ** Coroutines

    Each coroutine of the script that is gathered suspends at most once, on
    the future of the pool.  Its first step runs up to that point and leaves
    the rest of the coroutine. *)

Definition coroutine (R : Type) : Type := M (M R).

(** [yield from c] *)
Definition await {R} (c : coroutine R) : M R := rest ← c; rest.

(** [for x in l: a = f(a, x)] *)
Fixpoint foldM {A B} (f : A → B → M A) (a : A) (l : list B) : M A :=
  match l with
  | [] => mret a
  | x :: l' => a' ← f a x; foldM f a' l'
  end.

(** A coroutine of [gather] is resumed and its result goes to its slot. *)
Definition resume {R} (slots : list (option R)) (c : nat * M R)
    : M (list (option R)) :=
  r ← c.2; mret (<[c.1 := Some r]> slots).

Section Gather.
(** The order in which the pool completes what is waiting on it *)
Variable completion : ∀ A : Type, list A → list A.

(** [asyncio.gather] on the coroutines [cs]: the event loop runs the first
    step of every coroutine, in the order given; then it resumes them as
    their futures complete, each result going to the slot of its coroutine;
    the first exception ends the wait. *)
Definition gather {R} (cs : list (coroutine R)) : M (list R) :=
  waiting ← mapM (M := M) (B := M R) id cs;
  slots ← foldM resume (replicate (length waiting) None)
                (completion _ (imap pair waiting));
  mret (omap id slots).
End Gather.

(** ** Settings of the script *)

Definition dquote : string := String "034"%char "".

Definition media_urls (t : media_type) : template :=
  match t with
  | Image => ("https://d3hmols351pw2y.cloudfront.net/image/400x400/", ".jpg")
  | Audio => ("https://d3hmols351pw2y.cloudfront.net/sound/", ".mp3")
  end.

Definition anki_folder : string := "/home/jsmith/Documents/Anki/JSmith".
Definition media_directory : string := path_join anki_folder "collection.media".

Definition media_filenames (t : media_type) : template :=
  match t with
  | Image => ("rus_", ".jpg")
  | Audio => ("rus_", ".mp3")
  end.

Definition media_entries (t : media_type) : template :=
  match t with
  | Image => ("<img src=" +:+ dquote, dquote +:+ ">")
  | Audio => ("[sound:", "]")
  end.

Definition media_id_fields (t : media_type) : string :=
  match t with
  | Image => "image_id"
  | Audio => "sound_id"
  end.

Definition media_csv_fields (t : media_type) : string :=
  match t with
  | Image => "image_path"
  | Audio => "audio_path"
  end.

Definition csv_fieldnames : list string :=
  [ "id"; "type"; "image_id"; "image_path"; "sound_id"; "audio_path";
    "l1_text"; "l2_text"; "info_text" ].

(** ** The script *)

Section Script.
Variable py_repr : json → string.
Variable net : remote.
Variable completion : ∀ A : Type, list A → list A.

Abbreviation str := (py_str py_repr).
Abbreviation fmt := (format py_repr).

(** *** [select_new_vocabulary] *)

(** [[item for item in vocabulary if str(item["id"]) not in existing_ids]] *)
Fixpoint not_in_existing (existing_ids : list string) (vocabulary : list json)
    : result (list json) :=
  match vocabulary with
  | [] => Ok []
  | vocab_item :: rest =>
      id ← getitem vocab_item "id";
      new ← not_in_existing existing_ids rest;
      Ok (if py_in (str id) existing_ids then new else vocab_item :: new)
  end.

Definition select_new_vocabulary (vocabulary : list json) : M (list json) :=
  info Filtering;;
  σ ← get_state;
  found ← match csv_file σ with
          | Some rows =>
              existing_ids ← lift (mapM first_field rows);
              new_vocabulary ← lift (not_in_existing existing_ids vocabulary);
              mret (existing_ids, new_vocabulary)
          | None => mret ([], vocabulary)          (* FileNotFoundError *)
          end;
  info (Identified (length found.2) (length found.1));;
  mret found.2.

(** *** [write_csv] *)

(** [item["l2_text"] = item["l2_text"].replace(char, "")] *)
Definition strip_l2_text (vocab_item : json) (char : ascii) : result json :=
  text ← getitem vocab_item "l2_text";
  text ← py_replace text char;
  setitem vocab_item "l2_text" text.

Definition clean_l2_text (vocab_item : json) : result json :=
  vocab_item ← strip_l2_text vocab_item ")";
  strip_l2_text vocab_item "(".

(** [DictWriter._dict_to_list] under [extrasaction="ignore"], followed by the
    writer's conversion of each field: the fields named by [csv_fieldnames],
    in that order, with the empty text for a missing one. *)
Definition dict_to_row (rowdict : json) : result (list string) :=
  match rowdict with
  | JObj d =>
      Ok ((λ key, csv_field py_repr (default (JStr "") (d !! key)))
            <$> csv_fieldnames)
  | _ => Raise AttributeError
  end.

Definition write_csv (vocabulary : list json) : M unit :=
  vocabulary ← lift (mapM clean_l2_text vocabulary);
  open_append;;
  info WritingCsv;;
  foldM (λ _ rowdict, row ← lift (dict_to_row rowdict); writerows [row])
        tt vocabulary;;
  info (Wrote (length vocabulary)).

(** *** [download_media_item] *)

Definition download_media_item (media_id : json) (media_type : media_type)
    : coroutine (string * bool) :=
  let media_url := fmt (media_urls media_type) media_id in
  let media_filename := fmt (media_filenames media_type) media_id in
  let media_path := path_join media_directory media_filename in
  file_exists ← isfile media_path;
  if negb file_exists then
    run_in_executor (MediaRequest media_url);;
    mret (request_object ← resume_with (MediaRequest media_url)
                             (media net media_url);
          write_file media_path request_object;;
          mret (media_filename, file_exists))
  else mret (mret (media_filename, file_exists)).

(** *** [download_media] *)

(** The loop over [zip(vocabulary, results)]: the entries with a result get
    their reference; the count is that of the results whose flag is set. *)
Fixpoint attach (t : media_type) (vocabulary : list json)
    (results : list (string * bool)) (existing_media_count : nat)
    : result (list json * nat) :=
  match vocabulary, results with
  | vocab_item :: vocabulary', filename_tuple :: results' =>
      vocab_item ← setitem vocab_item (media_csv_fields t)
                     (JStr (fmt (media_entries t) (JStr filename_tuple.1)));
      done ← attach t vocabulary' results'
               (if filename_tuple.2 then S existing_media_count
                else existing_media_count);
      Ok (vocab_item :: done.1, done.2)
  | _, _ => Ok (vocabulary, existing_media_count)
  end.

(** One round of the loop over the two types.  The entries are changed in
    place in the script; here the changed list is returned. *)
Definition download_media_of (media_type : media_type)
    (vocabulary : list json) : M (list json) :=
  info (DownloadingMedia media_type);;
  coroutines ← lift (mapM (λ vocab_item,
                             media_id ← getitem vocab_item
                                          (media_id_fields media_type);
                             Ok (download_media_item media_id media_type))
                          vocabulary);
  results ← gather completion coroutines;
  done ← lift (attach media_type vocabulary results 0%nat);
  info (AlreadyExisted done.2 (length results) media_type);;
  mret done.1.

Definition download_media (vocabulary : list json) : M (list json) :=
  foldM (λ vocabulary media_type, download_media_of media_type vocabulary)
        vocabulary [Image; Audio].

(** *** [get_babbel_vocabulary_page] *)

(** [request_object.json()] *)
Definition json_of (body : option json) : result json :=
  match body with
  | Some v => Ok v
  | None => Raise ValueError
  end.

(** [handle_request] sets the [page] parameter and sends the query as one
    step; the list it extends is the cell of the state. *)
Definition get_babbel_vocabulary_page (page_number : Z) : coroutine Z :=
  run_in_executor (SearchRequest page_number);;
  mret (request_object ← resume_with (SearchRequest page_number)
                           (search net page_number);
        response ← lift (json_of request_object);
        lift (jsonschema_validate response schema);;
        response ← lift (getitem response "review");
        trainer_items ← lift (getitem response "trainer_items");
        σ ← get_state;
        vocabulary ← lift (extend (vocabulary_cell σ) trainer_items);
        set_vocabulary vocabulary;;
        total_filtered_items ← lift (getitem response "total_filtered_items");
        per_page_limit ← lift (getitem response "per_page_limit");
        quotient ← lift (truediv total_filtered_items per_page_limit);
        mret (math_ceil quotient)).

(** *** [get_babbel_vocabulary] *)

Definition get_babbel_vocabulary : M (list json) :=
  set_vocabulary [];;
  info DownloadingList;;
  num_pages ← await (get_babbel_vocabulary_page 1);
  (if 1 <? num_pages then
     gather completion
       (get_babbel_vocabulary_page <$> seqZ 2 (num_pages + 1 - 2));;
     mret tt
   else mret tt);;
  σ ← get_state;
  info (Downloaded (length (vocabulary_cell σ)) num_pages);;
  mret (vocabulary_cell σ).

(** *** The main block *)

Definition main : M unit :=
  vocabulary ← get_babbel_vocabulary;
  vocabulary ← select_new_vocabulary vocabulary;
  match vocabulary with
  | [] => mret tt
  | _ :: _ =>
      vocabulary ← download_media vocabulary;
      write_csv vocabulary
  end.
End Script.

(** ** The search parameters that the calls of [handle_request] share

    [handle_request] runs in a thread of the pool.  It stores its page number
    in the dictionary [search_params], which all its calls share, and then
    sends the query with that dictionary for parameters.  The script above
    takes the two steps of a call as one; here the pool may run a step of
    another call between them. *)

Inductive pool_step : Type :=
  | StorePage (call : nat)      (* [search_params["page"] = page_number] *)
  | SendQuery (call : nat).     (* [requests.get(..., params=search_params)] *)

Record pool_state : Type := PoolState {
  search_params_page : option Z;       (* [search_params["page"]] *)
  queries : list (nat * option Z)      (* the call and the page of each query *)
}.

(** One step of the call number [call], which is the call for the page
    [pages !! call] *)
Definition pool_run_step (pages : list Z) (s : pool_state) (step : pool_step)
    : pool_state :=
  match step with
  | StorePage call =>
      match pages !! call with
      | Some page_number => PoolState (Some page_number) (queries s)
      | None => s
      end
  | SendQuery call =>
      PoolState (search_params_page s)
                (queries s ++ [(call, search_params_page s)])
  end.

(** The steps of a schedule, from the dictionary as the script defines it,
    with [None] for page *)
Definition pool_run (pages : list Z) (schedule : list pool_step) : pool_state :=
  foldl (pool_run_step pages) (PoolState None []) schedule.

(** Two schedules of [n] calls: each call runs its two steps before the next
    call starts; every call stores its page before any call sends. *)
Definition one_by_one (n : nat) : list pool_step :=
  concat ((λ call, [StorePage call; SendQuery call]) <$> seq 0 n).

Definition stores_first (n : nat) : list pool_step :=
  (StorePage <$> seq 0 n) ++ (SendQuery <$> seq 0 n).

(** * Vocabulary of the properties *)

(** The shape the specification asks of a response: an object whose [review]
    member is an object with an array of items and three numbers. *)
Definition required_shape (response : json) : Prop :=
  ∃ d r items total limit page,
    response = JObj d ∧ d !! "review" = Some (JObj r) ∧
    r !! "trainer_items" = Some (JArr items) ∧
    r !! "total_filtered_items" = Some (JNum total) ∧
    r !! "per_page_limit" = Some (JNum limit) ∧
    r !! "page" = Some (JNum page).

(** What the coroutine of a page does with the reply to its request, up to
    the point where it has extended the shared list: the [review] object and
    the items. *)
Definition page_review (net : remote) (page_number : Z) : result (json * list json) :=
  match search net page_number with
  | NoReply => Raise RequestException
  | Reply _ None => Raise ValueError
  | Reply _ (Some response) =>
      jsonschema_validate response schema;;
      response ← getitem response "review";
      trainer_items ← getitem response "trainer_items";
      items ← extend [] trainer_items;
      Ok (response, items)
  end.

(** The items the coroutine of a page appends to the shared list *)
Definition page_items (net : remote) (page_number : Z) : list json :=
  match page_review net page_number with
  | Ok found => found.2
  | Raise _ => []
  end.

(** What the coroutine of a page returns or raises *)
Definition page_count (net : remote) (page_number : Z) : result Z :=
  found ← page_review net page_number;
  total_filtered_items ← getitem found.1 "total_filtered_items";
  per_page_limit ← getitem found.1 "per_page_limit";
  quotient ← truediv total_filtered_items per_page_limit;
  Ok (math_ceil quotient).

(** The state after the coroutine of [page_number] was resumed *)
Definition page_done (page_number : Z) (items : list json) (σ : state) : state :=
  State (csv_file σ) (media_files σ) (requests σ)
        (completed σ ++ [SearchRequest page_number]) (log σ)
        (vocabulary_cell σ ++ items).

(** The state after the requests [rs] were handed to the pool *)
Definition handed (rs : list request) (σ : state) : state :=
  State (csv_file σ) (media_files σ) (requests σ ++ rs) (completed σ)
        (log σ) (vocabulary_cell σ).

(** The coroutine [c] of [gather] waits for the reply to page [p]. *)
Definition waits_for_page (net : remote) (c : nat * M Z) (p : Z) : Prop :=
  ∀ s, c.2 s = (page_count net p, page_done p (page_items net p) s).

(** The page [p] goes through. *)
Definition page_ok (net : remote) (p : Z) : Prop :=
  ∃ n, page_count net p = Ok n.

(** The state after the coroutines of the pages [ps] were resumed, in that
    order *)
Definition pages_done (net : remote) (ps : list Z) (σ : state) : state :=
  foldl (λ s p, page_done p (page_items net p) s) σ ps.

(** The ceiling of the exact quotient [a / b] *)
Definition ceiling (a b : Z) : Z := - ((- a) / b).

(** The first column of the export file *)
Definition first_column (rows : list (list string)) : list string :=
  omap head rows.

(** The entry is a dictionary with an identifier. *)
Definition has_identifier (e : json) : Prop :=
  ∃ i, getitem e "id" = Ok i.

(** The identifier of an entry, as text *)
Definition identifier (py_repr : json → string) (e : json) : string :=
  match getitem e "id" with
  | Ok i => py_str py_repr i
  | Raise _ => ""
  end.

(** The entry is a dictionary whose [l2_text] is a text. *)
Definition has_l2_text (e : json) : Prop :=
  ∃ d s, e = JObj d ∧ d !! "l2_text" = Some (JStr s).

(** The text of a column of an entry: empty when the entry has no such
    field *)
Definition column (py_repr : json → string) (e : json) (key : string) : string :=
  match e with
  | JObj d => match d !! key with
              | Some v => csv_field py_repr v
              | None => ""
              end
  | _ => ""
  end.

(** The record of an entry in the export file, column by column; the
    parentheses are gone from [l2_text]. *)
Definition export_row (py_repr : json → string) (e : json) : list string :=
  [ column py_repr e "id"; column py_repr e "type";
    column py_repr e "image_id"; column py_repr e "image_path";
    column py_repr e "sound_id"; column py_repr e "audio_path";
    column py_repr e "l1_text";
    remove_char "(" (remove_char ")" (column py_repr e "l2_text"));
    column py_repr e "info_text" ].

(** The name, the path and the URL that [download_media_item] computes *)
Definition media_filename (py_repr : json → string) (t : media_type) (media_id : json) : string :=
  format py_repr (media_filenames t) media_id.

Definition media_path (py_repr : json → string) (t : media_type) (media_id : json) : string :=
  path_join media_directory (media_filename py_repr t media_id).

Definition media_url (py_repr : json → string) (t : media_type) (media_id : json) : string :=
  format py_repr (media_urls t) media_id.

(** The state after the future of request [r] completed *)
Definition answered (r : request) (σ : state) : state :=
  State (csv_file σ) (media_files σ) (requests σ) (completed σ ++ [r])
        (log σ) (vocabulary_cell σ).

(** The state after [content] was written under [path] *)
Definition written (path content : string) (σ : state) : state :=
  State (csv_file σ) (<[path := content]> (media_files σ)) (requests σ)
        (completed σ) (log σ) (vocabulary_cell σ).

(** What [download_media_item] does once it is resumed, given what it found
    on the disk in its first step *)
Definition item_resumed (py_repr : json → string) (net : remote)
    (t : media_type) (media_id : json) (file_exists : bool) (σ : state)
    : result (string * bool) * state :=
  if file_exists then (Ok (media_filename py_repr t media_id, true), σ)
  else
    match media net (media_url py_repr t media_id) with
    | Reply _ body =>
        (Ok (media_filename py_repr t media_id, false),
         written (media_path py_repr t media_id) body
                 (answered (MediaRequest (media_url py_repr t media_id)) σ))
    | NoReply =>
        (Raise RequestException,
         answered (MediaRequest (media_url py_repr t media_id)) σ)
    end.

(** The file of a media item is on the disk. *)
Definition on_disk (py_repr : json → string) (t : media_type) (media_id : json)
    (σ : state) : bool :=
  bool_decide (is_Some (media_files σ !! media_path py_repr t media_id)).

(** The entry with the reference to its media file of type [t] *)
Definition referenced (py_repr : json → string) (t : media_type) (e : json) : json :=
  match e with
  | JObj d =>
      match d !! media_id_fields t with
      | Some media_id =>
          JObj (<[media_csv_fields t :=
                    JStr (format py_repr (media_entries t)
                            (JStr (media_filename py_repr t media_id)))]> d)
      | None => e
      end
  | _ => e
  end.

(** The entry has a media identifier of type [t], and its file is on the
    disk. *)
Definition file_on_disk (py_repr : json → string) (t : media_type) (σ : state)
    (e : json) : Prop :=
  ∃ media_id, getitem e (media_id_fields t) = Ok media_id ∧
              on_disk py_repr t media_id σ = true.

(** The entry has a media identifier of type [t], and its file is on the
    disk or the server answers the request for it. *)
Definition obtainable (py_repr : json → string) (net : remote) (t : media_type)
    (σ : state) (e : json) : Prop :=
  ∃ media_id, getitem e (media_id_fields t) = Ok media_id ∧
    (on_disk py_repr t media_id σ = true ∨
     ∃ status body, media net (media_url py_repr t media_id) = Reply status body).

#[global] Instance file_on_disk_dec py_repr t σ e : Decision (file_on_disk py_repr t σ e).
Proof.
  unfold file_on_disk. destruct (getitem e (media_id_fields t)) as [media_id|err].
  - destruct (on_disk py_repr t media_id σ) eqn:H.
    + left. eauto.
    + right. intros (? & [= <-] & ?). congruence.
  - right. by intros (? & ? & ?).
Defined.

(** From [σ] to [σ'] the export file is untouched, and the network was used
    for media only. *)
Definition media_only (σ σ' : state) : Prop :=
  csv_file σ' = csv_file σ ∧
  (∃ urls, requests σ' = requests σ ++ (MediaRequest <$> urls)) ∧
  (∃ urls, completed σ' = completed σ ++ (MediaRequest <$> urls)).

(** The state after the line [l] was logged *)
Definition logged (l : log_line) (σ : state) : state :=
  State (csv_file σ) (media_files σ) (requests σ) (completed σ)
        (log σ ++ [l]) (vocabulary_cell σ).




(** The URLs of the files of type [t] that the entries name and that are
    not on the disk, in the order of the entries *)
Definition missing_urls (py_repr : json → string) (t : media_type) (σ : state)
    (vocabulary : list json) : list string :=
  omap (λ e, match getitem e (media_id_fields t) with
             | Ok media_id =>
                 if on_disk py_repr t media_id σ then None
                 else Some (media_url py_repr t media_id)
             | Raise _ => None
             end) vocabulary.

(** ** Sample data *)

(** A machine with no file yet *)
Definition blank : state := State None ∅ [] [] [] [].

Definition no_repr : json → string := λ _, "".

(** Two orders of completion: as submitted, and the last submitted first *)
Definition in_order : ∀ A : Type, list A → list A := λ _ l, l.
Definition last_first : ∀ A : Type, list A → list A := λ _ l, rev l.

Definition sample_entry (id : Z) (image sound text : string) : json :=
  JObj (<["id" := JNum id]> (<["image_id" := JStr image]>
       (<["sound_id" := JStr sound]> (<["l2_text" := JStr text]>
       (<["display_language" := JStr "en"]> ∅))))).

Definition sample_review (items : list json) (total limit page : Z)
    : gmap string json :=
  <["trainer_items" := JArr items]> (<["total_filtered_items" := JNum total]>
  (<["per_page_limit" := JNum limit]> (<["page" := JNum page]> ∅))).

Definition sample_response (items : list json) (total limit page : Z) : json :=
  JObj {[ "review" := JObj (sample_review items total limit page) ]}.

(** A service with three entries on two pages; every media request is
    answered. *)
Definition two_pages : remote :=
  Remote (λ page,
            if page =? 1 then
              Reply 200 (Some (sample_response
                                 [ sample_entry 1 "a" "b" "(x)";
                                   sample_entry 2 "c" "d" "y" ] 3 2 1))
            else if page =? 2 then
              Reply 200 (Some (sample_response [ sample_entry 3 "e" "f" "z" ] 3 2 2))
            else NoReply)
         (λ url, Reply 200 ("bytes of " +:+ url)).

(** The same service, but its second page has lost [total_filtered_items]. *)
Definition broken_second_page : remote :=
  Remote (λ page,
            if page =? 1 then
              Reply 200 (Some (sample_response
                                 [ sample_entry 1 "a" "b" "(x)";
                                   sample_entry 2 "c" "d" "y" ] 3 2 1))
            else
              Reply 200 (Some (JObj {[ "review" :=
                                 JObj (delete "total_filtered_items"
                                         (sample_review [] 3 2 2)) ]})))
         (λ url, Reply 200 ("bytes of " +:+ url)).

(** A service whose first page announces [total] entries, [limit] to the
    page *)
Definition announcing (total limit : Z) : remote :=
  Remote (λ page, Reply 200 (Some (sample_response [] total limit page)))
         (λ url, NoReply).

(** A service with a single entry on a single page *)
Definition one_entry : remote :=
  Remote (λ page, Reply 200 (Some (sample_response
                                     [ sample_entry 1 "a" "b" "(x)" ] 1 30 1)))
         (λ url, Reply 200 ("bytes of " +:+ url)).

(** A media server that has nothing to give *)
Definition not_found : remote :=
  Remote (λ page, NoReply) (λ url, Reply 404 "Not Found").

(** A machine that has the image [a] and an export file with entry 1 *)
Definition used_machine : state :=
  State (Some [ ["1"; ""; "a"; ""; "b"; ""; ""; "x"; ""] ])
        {[ media_directory +:+ "/rus_a.jpg" := "an image" ]} [] [] [] [].

(** A service with one entry on each of three pages *)
Definition three_pages : remote :=
  Remote (λ page,
            if (1 <=? page) && (page <=? 3) then
              Reply 200 (Some (sample_response
                                 [ sample_entry page (pretty page) (pretty page) "t" ]
                                 3 1 page))
            else NoReply)
         (λ url, Reply 200 ("bytes of " +:+ url)).

(** * Properties *)

(** ** Running computations *)

Lemma bind_Ok {A B} (m : M A) (f : A → M B) σ a σ' :
  m σ = (Ok a, σ') → (m ≫= f) σ = f a σ'.
Proof. intros H. unfold mbind, M_bind. by rewrite H. Qed.

Lemma bind_Raise {A B} (m : M A) (f : A → M B) σ e σ' :
  m σ = (Raise e, σ') → (m ≫= f) σ = (Raise e, σ').
Proof. intros H. unfold mbind, M_bind. by rewrite H. Qed.

(** ** The response schema and the shape of the specification *)

Lemma review_accepts (v : json) :
  review v = true ↔
  ∃ r items total limit page,
    v = JObj r ∧
    r !! "trainer_items" = Some (JArr items) ∧
    r !! "total_filtered_items" = Some (JNum total) ∧
    r !! "per_page_limit" = Some (JNum limit) ∧
    r !! "page" = Some (JNum page).
Proof.
  split.
  - destruct v as [| | | | |r]; try discriminate.
    unfold review, all_of, properties, required, type_; simpl.
    destruct (r !! "trainer_items") as [[]|] eqn:E1; simpl; try discriminate;
    destruct (r !! "total_filtered_items") as [[]|] eqn:E2; simpl; try discriminate;
    destruct (r !! "per_page_limit") as [[]|] eqn:E3; simpl; try discriminate;
    destruct (r !! "page") as [[]|] eqn:E4; simpl; try discriminate.
    intros _. eauto 10.
  - intros (r & items & total & limit & page & -> & E1 & E2 & E3 & E4).
    unfold review, all_of, properties, required, type_; simpl.
    by rewrite E1, E2, E3, E4.
Qed.

(** The schema accepts the required shape, and every object that has no
    [review] member at all. *)
Lemma schema_accepts (v : json) :
  schema v = true ↔
  required_shape v ∨ ∃ d, v = JObj d ∧ d !! "review" = None.
Proof.
  split.
  - destruct v as [| | | | |d]; try discriminate.
    unfold schema, all_of, properties; simpl.
    destruct (d !! "review") as [r|] eqn:E; [|intros _; right; eauto].
    rewrite !andb_true_r.
    intros (r' & items & total & limit & page & -> & ?)%review_accepts.
    left. exists d, r', items, total, limit, page. tauto.
  - intros [(d & r & items & total & limit & page & -> & E & ?)|(d & -> & E)];
      unfold schema, all_of, properties; simpl; rewrite E; [|done].
    rewrite !andb_true_r. apply review_accepts. eauto 10.
Qed.

(** ** One page *)

Lemma page_first_step net page_number σ :
  ∃ rest,
    get_babbel_vocabulary_page net page_number σ =
      (Ok rest, handed [SearchRequest page_number] σ) ∧
    ∀ σ1, rest σ1 = (page_count net page_number,
                     page_done page_number (page_items net page_number) σ1).
Proof.
  eexists. split; [reflexivity|]. intros σ1.
  unfold page_count, page_items, page_review, resume_with, page_done.
  destruct (search net page_number) as [|status [response|]]; simpl;
    [by rewrite app_nil_r | | by rewrite app_nil_r].
  unfold jsonschema_validate, lift, mbind, M_bind, result_bind, modify; simpl.
  destruct (schema response); simpl; [|by rewrite app_nil_r].
  destruct (getitem response "review") as [r|]; simpl; [|by rewrite app_nil_r].
  destruct (getitem r "trainer_items") as [items|]; simpl; [|by rewrite app_nil_r].
  unfold extend. destruct items; simpl; try by rewrite app_nil_r.
  destruct (getitem r "total_filtered_items") as [total|]; simpl; [|done].
  destruct (getitem r "per_page_limit") as [limit|]; simpl; [|done].
  by destruct (truediv total limit) as [q|].
Qed.

Lemma await_page net page_number σ :
  await (get_babbel_vocabulary_page net page_number) σ =
    (page_count net page_number,
     page_done page_number (page_items net page_number)
               (handed [SearchRequest page_number] σ)).
Proof.
  destruct (page_first_step net page_number σ) as (rest & Hfirst & Hrest).
  unfold await. rewrite (bind_Ok _ _ _ _ _ Hfirst). apply Hrest.
Qed.

(** A response that does not have the required shape is refused by the
    validation, unless it is an object without a [review] member: that one
    passes and the lookup of [review] fails. *)
Lemma page_count_off_shape net page_number status response :
  search net page_number = Reply status (Some response) →
  ¬ required_shape response →
  page_count net page_number =
    Raise (match response with
           | JObj d => match d !! "review" with
                       | Some _ => ValidationError
                       | None => KeyError "review"
                       end
           | _ => ValidationError
           end).
Proof.
  intros Hreply Hshape. unfold page_count, page_review. rewrite Hreply.
  unfold jsonschema_validate.
  destruct (schema response) eqn:Hschema.
  - apply schema_accepts in Hschema as [?|(d & -> & Hreview)]; [done|].
    rewrite Hreview. simpl. unfold mbind, result_bind. simpl. by rewrite Hreview.
  - simpl. destruct response as [| | | | |d]; try done.
    destruct (d !! "review") eqn:Hreview; [done|].
    assert (schema (JObj d) = true) as Hyes; [|congruence].
    apply schema_accepts. eauto.
Qed.

(** ** The number of pages *)

Lemma ceiling_bounds a b : 0 < b → (ceiling a b - 1) * b < a ≤ ceiling a b * b.
Proof.
  intros Hb. unfold ceiling.
  pose proof (Z.div_mod (- a) b ltac:(lia)).
  pose proof (Z.mod_pos_bound (- a) b Hb). nia.
Qed.

Lemma ceiling_unique a b n : 0 < b → (n - 1) * b < a ≤ n * b → ceiling a b = n.
Proof.
  intros Hb Hn. pose proof (ceiling_bounds a b Hb). nia.
Qed.

Lemma scaled_nonpos a b e : e ≤ 0 → scaled a b e = (a * 2 ^ (- e), b).
Proof.
  intros He. unfold scaled. destruct (Z.leb_spec 0 e); [|done].
  assert (e = 0) as -> by lia. simpl. by rewrite !Z.mul_1_r.
Qed.

Lemma quotient_exponent_small a b :
  0 < a < 2 ^ 53 → 0 < b < 2 ^ 53 →
  ∃ s, quotient_exponent a b = - s ∧ 0 ≤ s ≤ 105 ∧ 2 ^ 52 * b ≤ a * 2 ^ s.
Proof.
  intros Ha Hb. unfold quotient_exponent.
  pose proof (Z.log2_spec a ltac:(lia)) as Hla.
  pose proof (Z.log2_spec b ltac:(lia)) as Hlb.
  pose proof (Z.log2_nonneg a). pose proof (Z.log2_nonneg b).
  assert (Z.log2 a < 53) by (apply Z.log2_lt_pow2; lia).
  assert (Z.log2 b < 53) by (apply Z.log2_lt_pow2; lia).
  set (la := Z.log2 a) in *. set (lb := Z.log2 b) in *.
  rewrite scaled_nonpos by lia.
  replace (- (la - lb - 52)) with (52 + lb - la) by lia.
  set (s0 := 52 + lb - la).
  assert (2 ^ 51 * b < a * 2 ^ s0) as Hlow.
  { assert (2 ^ la * 2 ^ s0 = 2 ^ 51 * 2 ^ Z.succ lb) as Hpow.
    { rewrite <- !Z.pow_add_r by lia. f_equal. lia. }
    assert (0 < 2 ^ s0) by (apply Z.pow_pos_nonneg; lia).
    nia. }
  destruct (Z.ltb_spec (a * 2 ^ s0 / b) (2 ^ 52)) as [Hlt|Hge].
  - exists (s0 + 1). split; [lia|]. split; [lia|].
    rewrite Z.pow_add_r by lia. change (2 ^ 1) with 2. change (2 ^ 52) with (2 * 2 ^ 51). nia.
  - exists s0. split; [lia|]. split; [lia|].
    pose proof (Z.mul_div_le (a * 2 ^ s0) b ltac:(lia)). nia.
Qed.

Lemma nearest_binary64_small a b :
  0 < a < 2 ^ 53 → 0 < b < 2 ^ 53 →
  ∃ m s, nearest_binary64 a b = (m, - s) ∧ 0 ≤ s ∧
         (a / b) * 2 ^ s ≤ m ≤ (a / b + 1) * 2 ^ s ∧
         (a mod b = 0 → m = (a / b) * 2 ^ s) ∧
         (a mod b ≠ 0 → (a / b) * 2 ^ s < m < (a / b + 1) * 2 ^ s).
Proof.
  intros Ha Hb.
  destruct (quotient_exponent_small a b Ha Hb) as (s & He & Hs & Hnorm).
  unfold nearest_binary64. destruct (Z.eqb_spec a 0) as [|_]; [lia|].
  rewrite He, scaled_nonpos by lia. rewrite Z.opp_involutive.
  exists (round_half_even (a * 2 ^ s) b), s. split; [done|]. split; [lia|].
  unfold round_half_even.
  assert (0 < 2 ^ s) as HP by (apply Z.pow_pos_nonneg; lia).
  set (P := 2 ^ s) in *.
  pose proof (Z.div_mod (a * P) b ltac:(lia)) as Hdm.
  pose proof (Z.mod_pos_bound (a * P) b ltac:(lia)) as HR.
  pose proof (Z.div_mod a b ltac:(lia)) as Hab.
  pose proof (Z.mod_pos_bound a b ltac:(lia)) as Hr.
  set (m0 := a * P / b) in *. set (R := (a * P) mod b) in *.
  set (n := a / b) in *. set (r := a mod b) in *.
  assert (b < 2 * P) as H2P by nia.
  assert (b * (m0 - n * P) = r * P - R) as Hkey by nia.
  assert (n * P ≤ m0) by nia.
  assert (m0 ≤ n * P + P - 1) by nia.
  destruct ((b <? 2 * R) || (b =? 2 * R) && Z.odd m0) eqn:Hup.
  - assert (b ≤ 2 * R) as HbR.
    { apply orb_true_iff in Hup as [?%Z.ltb_lt|[?%Z.eqb_eq _]%andb_true_iff]; lia. }
    split; [lia|]. split.
    + intros Hr0. assert (R = 0) by nia. lia.
    + intros Hr0. split; [lia|].
      assert (m0 ≠ n * P + P - 1); [|lia].
      intros Heq. assert (R = b - (b - r) * P) by nia. nia.
  - apply orb_false_iff in Hup as [Hlt%Z.ltb_ge _].
    split; [lia|]. split.
    + intros Hr0. nia.
    + intros Hr0. split; [|lia].
      assert (m0 ≠ n * P); [|lia].
      intros Heq. assert (R = r * P) by nia. nia.
Qed.

Lemma math_ceil_nonpos_exponent m s :
  0 ≤ s → math_ceil (m, - s) = - ((- m) / 2 ^ s).
Proof.
  intros Hs. unfold math_ceil. rewrite Z.opp_involutive.
  destruct (Z.leb_spec 0 (- s)); [|done].
  assert (s = 0) as -> by lia. simpl. rewrite Z.div_1_r. lia.
Qed.

Lemma ceiling_by_magnitude a b :
  b ≠ 0 →
  ceiling a b = if Z.sgn a * Z.sgn b =? -1 then - (Z.abs a / Z.abs b)
                else ceiling (Z.abs a) (Z.abs b).
Proof.
  intros Hb. unfold ceiling.
  destruct (Z.lt_trichotomy a 0) as [Ha|[->|Ha]];
    destruct (Z.lt_trichotomy b 0) as [Hb'|[->|Hb']]; try done.
  - rewrite (Z.sgn_neg a), (Z.sgn_neg b), (Z.abs_neq a), (Z.abs_neq b) by lia.
    change (-1 * -1 =? -1) with false. cbv iota.
    by rewrite Z.div_opp_opp by lia.
  - rewrite (Z.sgn_neg a), (Z.sgn_pos b), (Z.abs_neq a), (Z.abs_eq b) by lia. done.
  - rewrite (Z.sgn_pos a), (Z.sgn_neg b), (Z.abs_eq a), (Z.abs_neq b) by lia.
    change (1 * -1 =? -1) with true. cbv iota.
    rewrite <- (Z.div_opp_opp a (- b)) by lia. by rewrite Z.opp_involutive.
  - rewrite (Z.sgn_pos a), (Z.sgn_pos b), (Z.abs_eq a), (Z.abs_eq b) by lia. done.
Qed.

(** On operands below 2 ^ 53 the rounded quotient has the ceiling of the
    exact one. *)
Lemma int_truediv_ceil a b :
  b ≠ 0 → Z.abs a < 2 ^ 53 → Z.abs b < 2 ^ 53 →
  ∃ q, int_truediv a b = Ok q ∧ math_ceil q = ceiling a b.
Proof.
  intros Hb Ha53 Hb53. unfold int_truediv.
  destruct (Z.eqb_spec b 0) as [|_]; [done|].
  destruct (Z.eq_dec a 0) as [->|Ha].
  { simpl. eexists. split; [reflexivity|].
    unfold math_ceil, ceiling. simpl. rewrite Z.div_0_l by done. lia. }
  destruct (nearest_binary64_small (Z.abs a) (Z.abs b)) as (m & s & -> & Hs & Hm & Hexact & Hinexact);
    [lia..|].
  assert (0 < 2 ^ s) as HP by (apply Z.pow_pos_nonneg; lia).
  pose proof (Z.div_mod (Z.abs a) (Z.abs b) ltac:(lia)) as Hab.
  pose proof (Z.mod_pos_bound (Z.abs a) (Z.abs b) ltac:(lia)) as Hr.
  assert (0 ≤ Z.abs a / Z.abs b) as Hn0 by (apply Z.div_pos; lia).
  assert (Z.abs a / Z.abs b < 2 ^ 53) as Hn.
  { apply Z.div_lt_upper_bound; nia. }
  assert ((0 <=? - s) && (2 ^ 1024 <=? m * 2 ^ (- s)) = false) as ->.
  { destruct (Z.leb_spec 0 (- s)); [|done]. simpl.
    assert (s = 0) as -> by lia. apply Z.leb_gt.
    assert (2 ^ 54 ≤ 2 ^ 1024) by (apply Z.pow_le_mono_r; lia).
    change (2 ^ 0) with 1 in *. change (2 ^ (- 0)) with 1. lia. }
  eexists. split; [reflexivity|].
  rewrite math_ceil_nonpos_exponent, ceiling_by_magnitude by done.
  set (n := Z.abs a / Z.abs b) in *. set (r := Z.abs a mod Z.abs b) in *.
  set (P := 2 ^ s) in *.
  assert (n * P ≤ m < (n + 1) * P ∧ (r = 0 → m = n * P) ∧ (r ≠ 0 → n * P < m)) as (Hm1 & Hm2 & Hm3).
  { destruct (Z.eq_dec r 0) as [Hr0|Hr0]; [specialize (Hexact Hr0)|specialize (Hinexact Hr0)];
      repeat split; try lia; nia. }
  destruct (Z.eqb_spec (Z.sgn a * Z.sgn b) (-1)) as [->|Hsgn].
  - f_equal. replace (- (-1 * m)) with m by lia.
    symmetry. apply (Z.div_unique_pos m P n (m - n * P)); lia.
  - assert (Z.sgn a * Z.sgn b = 1) as -> by (destruct a, b; simpl in *; lia).
    rewrite Z.mul_1_l. fold (ceiling m P).
    destruct (Z.eq_dec r 0) as [Hr0|Hr0].
    + rewrite (ceiling_unique m P n), (ceiling_unique (Z.abs a) (Z.abs b) n); lia || nia.
    + rewrite (ceiling_unique m P (n + 1)), (ceiling_unique (Z.abs a) (Z.abs b) (n + 1)); lia || nia.
Qed.

(** ** Gathering *)

Lemma gather_unfold {R} completion (cs : list (coroutine R)) waiting σ σ1 :
  mapM (M := M) (B := M R) id cs σ = (Ok waiting, σ1) →
  gather completion cs σ =
    (foldM resume (replicate (length waiting) None)
           (completion _ (imap pair waiting)) ≫= λ slots, mret (omap id slots)) σ1.
Proof. intros H. unfold gather. by rewrite (bind_Ok _ _ _ _ _ H). Qed.

Lemma foldM_resume_cons {R} (c : nat * M R) L slots σ :
  foldM resume slots (c :: L) σ =
    match c.2 σ with
    | (Ok r, σ') => foldM resume (<[c.1 := Some r]> slots) L σ'
    | (Raise e, σ') => (Raise e, σ')
    end.
Proof.
  simpl. unfold mbind, M_bind, resume, mbind, M_bind.
  by destruct (c.2 σ) as [[r|e] σ'].
Qed.

(** What every resumption respects, the whole wait respects. *)
Lemma foldM_resume_rel {R} (rel : state → state → Prop) (L : list (nat * M R)) slots σ :
  (∀ s, rel s s) → (∀ s1 s2 s3, rel s1 s2 → rel s2 s3 → rel s1 s3) →
  Forall (λ c : nat * M R, ∀ s, rel s (c.2 s).2) L →
  rel σ (foldM resume slots L σ).2.
Proof.
  intros Hrefl Htrans. revert slots σ.
  induction L as [|c L IH]; intros slots σ HL; [apply Hrefl|].
  apply Forall_cons in HL as [Hc HL].
  rewrite foldM_resume_cons. specialize (Hc σ).
  destruct (c.2 σ) as [[r|e] σ']; simpl in *; [|exact Hc].
  eapply Htrans; [apply Hc|by apply IH].
Qed.

Lemma foldM_resume_Ok {R} (vs : list R) (L : list (nat * M R)) slots σ :
  Forall (λ c : nat * M R, ∃ v, vs !! c.1 = Some v ∧ ∀ s, (c.2 s).1 = Ok v) L →
  (foldM resume slots L σ).1 =
    Ok (foldl (λ slots c, <[c.1 := vs !! c.1]> slots) slots L).
Proof.
  revert slots σ.
  induction L as [|c L IH]; intros slots σ HL; [done|].
  apply Forall_cons in HL as [(v & Hv & Hc) HL].
  rewrite foldM_resume_cons. specialize (Hc σ).
  destruct (c.2 σ) as [[r|e] σ']; simpl in *; [|done].
  injection Hc as ->. rewrite Hv. by apply IH.
Qed.

Lemma lookup_foldl_insert {R X} (vs : list R) (L : list (nat * X)) slots j :
  foldl (λ slots c, <[c.1 := vs !! c.1]> slots) slots L !! j =
    if decide (j ∈ L.*1 ∧ (j < length slots)%nat) then Some (vs !! j) else slots !! j.
Proof.
  revert slots. induction L as [|c L IH]; intros slots.
  - rewrite decide_False; [done|]. intros [H _]. by apply elem_of_nil in H.
  - simpl (foldl _ _ _). rewrite IH, length_insert.
    destruct (decide (j ∈ L.*1 ∧ (j < length slots)%nat)) as [[Hj Hlen]|Hno].
    + rewrite decide_True; [done|]. split; [by right|done].
    + destruct (decide (c.1 = j)) as [<-|Hne].
      * destruct (decide (c.1 < length slots)%nat) as [Hlen|Hlen].
        -- rewrite list_lookup_insert_eq by done.
           rewrite decide_True; [done|]. split; [by left|done].
        -- rewrite list_insert_ge by lia. rewrite decide_False; [done|]. tauto.
      * rewrite list_lookup_insert_ne by done.
        rewrite decide_False; [done|]. intros [[?|?]%elem_of_cons ?]; [congruence|tauto].
Qed.

Lemma fst_imap_pair {X} (l : list X) : (imap pair l).*1 = seq 0 (length l).
Proof.
  rewrite fmap_imap. rewrite <- (list_fmap_id (seq 0 (length l))).
  rewrite <- (imap_seq_0 l id). by apply imap_ext.
Qed.

Lemma slots_filled {R X} (vs : list R) (L : list (nat * X)) :
  L.*1 ≡ₚ seq 0 (length vs) →
  foldl (λ slots c, <[c.1 := vs !! c.1]> slots) (replicate (length vs) None) L
    = Some <$> vs.
Proof.
  intros Hperm. apply list_eq. intros j.
  rewrite lookup_foldl_insert, length_replicate, list_lookup_fmap.
  destruct (decide (j < length vs)%nat) as [Hlt|Hge].
  - rewrite decide_True.
    + by destruct (lookup_lt_is_Some_2 vs j Hlt) as [v ->].
    + split; [|done]. rewrite Hperm. apply elem_of_seq. lia.
  - rewrite decide_False by tauto.
    rewrite (proj1 (lookup_replicate_None _ _ _)) by lia.
    by rewrite lookup_ge_None_2 by lia.
Qed.

Lemma omap_id_Some {R} (vs : list R) : omap id (Some <$> vs) = vs.
Proof. induction vs as [|v vs IH]; csimpl; [done|]. by rewrite IH. Qed.

(** Whatever the order of completion, the results of [gather] are those of
    its coroutines, in the order of the coroutines. *)
Lemma gather_results {R} (completion : ∀ A, list A → list A)
    (cs : list (coroutine R)) waiting vs σ σ1 :
  (∀ A (l : list A), completion A l ≡ₚ l) →
  mapM (M := M) (B := M R) id cs σ = (Ok waiting, σ1) →
  Forall2 (λ (k : M R) v, ∀ s, (k s).1 = Ok v) waiting vs →
  (gather completion cs σ).1 = Ok vs.
Proof.
  intros Hperm Hfirst Hrest.
  rewrite (gather_unfold _ _ _ _ _ Hfirst).
  pose proof (Forall2_length _ _ _ Hrest) as Hlen.
  set (L := completion _ (imap pair waiting)).
  assert (Forall (λ c : nat * M R, ∃ v, vs !! c.1 = Some v ∧ ∀ s, (c.2 s).1 = Ok v) L) as HL.
  { unfold L. rewrite Hperm. apply Forall_forall. intros [i k] Hik.
    apply elem_of_lookup_imap in Hik as (i' & k' & [= -> ->] & Hk).
    destruct (Forall2_lookup_l _ _ _ _ _ Hrest Hk) as (v & Hv & Hkv). eauto. }
  pose proof (foldM_resume_Ok vs L (replicate (length waiting) None) σ1 HL) as Hfold.
  unfold mbind, M_bind.
  destruct (foldM resume (replicate (length waiting) None) L σ1) as [[slots|e] σ2];
    simpl in *; [|done].
  injection Hfold as ->. rewrite Hlen, slots_filled; [by rewrite omap_id_Some|].
  unfold L. rewrite Hperm, fst_imap_pair. by rewrite Hlen.
Qed.

(** ** All the pages *)

Lemma handed_app rs1 rs2 σ : handed rs2 (handed rs1 σ) = handed (rs1 ++ rs2) σ.
Proof. unfold handed. simpl. by rewrite <- app_assoc. Qed.

Lemma handed_nil σ : handed [] σ = σ.
Proof. destruct σ. unfold handed. simpl. by rewrite app_nil_r. Qed.

Lemma pages_first_steps net pages σ :
  ∃ waiting,
    mapM (M := M) (B := M Z) id (get_babbel_vocabulary_page net <$> pages) σ =
      (Ok waiting, handed (SearchRequest <$> pages) σ) ∧
    Forall2 (λ (k : M Z) p,
               ∀ s, k s = (page_count net p, page_done p (page_items net p) s))
            waiting pages.
Proof.
  revert σ. induction pages as [|p pages IH]; intros σ.
  - exists []. split; [|constructor]. simpl. by rewrite handed_nil.
  - destruct (page_first_step net p σ) as (rest & Hfirst & Hrest).
    destruct (IH (handed [SearchRequest p] σ)) as (waiting & Hall & Hwaiting).
    exists (rest :: waiting). split; [|by constructor].
    rewrite fmap_cons. simpl. unfold id at 1.
    rewrite (bind_Ok _ _ _ _ _ Hfirst). rewrite (bind_Ok _ _ _ _ _ Hall).
    by rewrite handed_app.
Qed.

Lemma Forall_exists_Forall2 {A B} (P : A → B → Prop) (l : list A) :
  Forall (λ x, ∃ y, P x y) l → ∃ k, Forall2 P l k.
Proof.
  induction 1 as [|x l [y Hy] _ [k Hk]]; [by exists []|].
  exists (y :: k). by constructor.
Qed.

Lemma pages_done_fields net ps σ :
  csv_file (pages_done net ps σ) = csv_file σ ∧
  media_files (pages_done net ps σ) = media_files σ ∧
  requests (pages_done net ps σ) = requests σ ∧
  log (pages_done net ps σ) = log σ ∧
  completed (pages_done net ps σ) = completed σ ++ (SearchRequest <$> ps) ∧
  vocabulary_cell (pages_done net ps σ) =
    vocabulary_cell σ ++ concat (page_items net <$> ps).
Proof.
  revert σ. induction ps as [|p ps IH]; intros σ.
  - simpl. by rewrite !app_nil_r.
  - change (pages_done net (p :: ps) σ)
      with (pages_done net ps (page_done p (page_items net p) σ)).
    destruct (IH (page_done p (page_items net p) σ)) as (-> & -> & -> & -> & -> & ->).
    simpl. by rewrite <- !app_assoc.
Qed.

(** The outcome of resuming the coroutines of the pages [ps] one after the
    other, and the pages that were resumed: all of them when each goes
    through, or those up to the first that raises. *)
Lemma foldM_resume_pages net (L : list (nat * M Z)) ps slots σ :
  Forall2 (waits_for_page net) L ps →
  ∃ resumed,
    (foldM resume slots L σ).2 = pages_done net resumed σ ∧
    match (foldM resume slots L σ).1 with
    | Ok _ => resumed = ps ∧ Forall (page_ok net) ps
    | Raise e => ∃ before p after,
        ps = before ++ p :: after ∧ resumed = before ++ [p] ∧
        Forall (page_ok net) before ∧ page_count net p = Raise e
    end.
Proof.
  intros HL. revert slots σ.
  induction HL as [|c p L ps Hc _ IH]; intros slots σ.
  - exists []. by split.
  - rewrite foldM_resume_cons. rewrite (Hc σ).
    destruct (page_count net p) as [n|e] eqn:Hp.
    + destruct (IH (<[c.1 := Some n]> slots) (page_done p (page_items net p) σ))
        as (resumed & Hstate & Hout).
      exists (p :: resumed). split; [done|].
      destruct (foldM resume _ L _).1 as [slots'|e].
      * destruct Hout as [-> Hok]. split; [done|]. constructor; [by exists n|done].
      * destruct Hout as (before & q & after & -> & -> & Hok & Hq).
        exists (p :: before), q, after. repeat split; try done.
        constructor; [by exists n|done].
    + exists [p]. split; [done|]. exists [], p, ps. by repeat split.
Qed.

Lemma omap_lookup_seq {Y} (pre ys : list Y) :
  omap (λ i, (pre ++ ys) !! i) (seq (length pre) (length ys)) = ys.
Proof.
  revert pre. induction ys as [|y ys IH]; intros pre; [done|].
  simpl. rewrite list_lookup_middle by done. csimpl. f_equal.
  specialize (IH (pre ++ [y])). rewrite length_app, <- app_assoc in IH.
  simpl in IH. by rewrite Nat.add_1_r in IH.
Qed.

Lemma omap_Forall2 {X Y} (g : X → option Y) (l : list X) (k : list Y) :
  Forall2 (λ x y, g x = Some y) l k → omap g l = k.
Proof. induction 1 as [|x y l k Hxy _ IH]; csimpl; [done|]. by rewrite Hxy, IH. Qed.

(** The coroutines are resumed in some order of the list they were given
    in. *)
Lemma completion_order {X Y} (completion : ∀ A, list A → list A)
    (P : X → Y → Prop) (xs : list X) (ys : list Y) :
  (∀ A (l : list A), completion A l ≡ₚ l) →
  Forall2 P xs ys →
  ∃ ys', ys' ≡ₚ ys ∧
         Forall2 (λ (c : nat * X) y, P c.2 y) (completion _ (imap pair xs)) ys'.
Proof.
  intros Hperm Hxy.
  set (L := completion _ (imap pair xs)).
  assert (Forall (λ c : nat * X, ∃ y, ys !! c.1 = Some y ∧ P c.2 y) L) as HL.
  { unfold L. rewrite Hperm. apply Forall_forall. intros [i x] Hix.
    apply elem_of_lookup_imap in Hix as (i' & x' & [= -> ->] & Hx).
    destruct (Forall2_lookup_l _ _ _ _ _ Hxy Hx) as (y & Hy & HP). eauto. }
  apply Forall_exists_Forall2 in HL as [ys' Hys'].
  exists ys'. split; [|by eapply Forall2_impl; [done|]; intros ?? []].
  assert (omap (λ c : nat * X, ys !! c.1) L = ys') as <-.
  { apply omap_Forall2. by eapply Forall2_impl; [done|]; intros ?? []. }
  unfold L. rewrite Hperm.
  rewrite <- (list_omap_ext (λ i, ys !! i) (λ c : nat * X, ys !! c.1) (imap pair xs).*1 (imap pair xs)).
  - rewrite fst_imap_pair, (Forall2_length _ _ _ Hxy).
    by rewrite (omap_lookup_seq [] ys : omap (λ i, ys !! i) (seq 0 (length ys)) = ys).
  - apply Forall2_fmap_l, Forall_Forall2_diag, Forall_forall. done.
Qed.

(** ** [get_babbel_vocabulary] *)

Lemma get_babbel_vocabulary_unfold net completion σ :
  let σ0 := State (csv_file σ) (media_files σ) (requests σ) (completed σ)
                  (log σ ++ [DownloadingList]) [] in
  let σ1 := pages_done net [1] (handed [SearchRequest 1] σ0) in
  let finish n (s : state) :=
    (Ok (vocabulary_cell s),
     State (csv_file s) (media_files s) (requests s) (completed s)
           (log s ++ [Downloaded (length (vocabulary_cell s)) n])
           (vocabulary_cell s)) in
  get_babbel_vocabulary net completion σ =
    match page_count net 1 with
    | Raise e => (Raise e, σ1)
    | Ok n =>
        if 1 <? n then
          match gather completion
                  (get_babbel_vocabulary_page net <$> seqZ 2 (n - 1)) σ1 with
          | (Ok _, σ3) => finish n σ3
          | (Raise e, σ3) => (Raise e, σ3)
          end
        else finish n σ1
    end.
Proof.
  intros σ0 σ1 finish. unfold get_babbel_vocabulary.
  unfold mbind at 1 2 3. unfold M_bind. simpl. fold σ0.
  rewrite await_page.
  destruct (page_count net 1) as [n|e]; [|done].
  replace (n + 1 - 2) with (n - 1) by lia.
  destruct (1 <? n); [|done].
  unfold σ1, pages_done. simpl foldl.
  unfold mbind, M_bind.
  by destruct (gather completion _ _) as [[?|?] ?].
Qed.

Lemma get_babbel_vocabulary_spec net completion σ :
  (∀ A (l : list A), completion A l ≡ₚ l) →
  ∃ resumed out,
    get_babbel_vocabulary net completion σ = out ∧
    csv_file out.2 = csv_file σ ∧ media_files out.2 = media_files σ ∧
    completed out.2 = completed σ ++ (SearchRequest <$> resumed) ∧
    requests out.2 =
      requests σ ++ (SearchRequest <$> 1 :: match page_count net 1 with
                                            | Ok n => seqZ 2 (n - 1)
                                            | Raise _ => []
                                            end) ∧
    resumed ⊆ 1 :: match page_count net 1 with
                   | Ok n => seqZ 2 (n - 1)
                   | Raise _ => []
                   end ∧
    match out.1 with
    | Ok vocabulary =>
        ∃ n, page_count net 1 = Ok n ∧ resumed ≡ₚ 1 :: seqZ 2 (n - 1) ∧
             Forall (page_ok net) resumed ∧
             vocabulary = concat (page_items net <$> resumed) ∧
             log out.2 = log σ ++ [DownloadingList; Downloaded (length vocabulary) n]
    | Raise e =>
        ∃ before p, resumed = before ++ [p] ∧ Forall (page_ok net) before ∧
                    page_count net p = Raise e
    end.
Proof.
  intros Hperm. rewrite get_babbel_vocabulary_unfold.
  set (σ0 := State (csv_file σ) (media_files σ) (requests σ) (completed σ)
                   (log σ ++ [DownloadingList]) []).
  set (σ1 := pages_done net [1] (handed [SearchRequest 1] σ0)).
  destruct (page_count net 1) as [n|e] eqn:Hp1.
  2:{ exists [1]. eexists. split; [reflexivity|]. simpl.
      split_and!; try done. by exists [], 1. }
  destruct (Z.ltb_spec 1 n) as [Hn|Hn].
  2:{ exists [1]. eexists. split; [reflexivity|]. rewrite seqZ_nil by lia. simpl.
      split_and!; try done. exists n. rewrite seqZ_nil by lia.
      split_and!; try done.
      - constructor; [by exists n|constructor].
      - by rewrite app_nil_r.
      - by rewrite <- app_assoc. }
  set (pages := seqZ 2 (n - 1)).
  destruct (pages_first_steps net pages σ1) as (waiting & Hfirst & Hwaiting).
  destruct (completion_order completion _ _ _ Hperm Hwaiting) as (ps & Hps & HL).
  rewrite (gather_unfold _ _ _ _ _ Hfirst).
  set (σ2 := handed (SearchRequest <$> pages) σ1) in *.
  destruct (foldM_resume_pages net _ ps (replicate (length waiting) None) σ2 HL)
    as (resumed & Hstate & Hout).
  unfold mbind at 1. unfold M_bind at 1.
  destruct (foldM resume _ _ σ2) as [[slots|e] σ3]; simpl in Hstate, Hout; subst σ3.
  - destruct Hout as [-> Hok]. exists (1 :: ps). eexists. split; [reflexivity|].
    destruct (pages_done_fields net ps σ2) as (Hcsv & Hmedia & Hreq & Hlog & Hdone & Hcell).
    simpl. rewrite Hcsv, Hmedia, Hreq, Hlog, Hdone, Hcell. simpl.
    rewrite <- !app_assoc. simpl. split_and!; try done.
    { intros q Hq. apply elem_of_cons in Hq as [->|Hq]; [by left|].
      right. by rewrite <- Hps. }
    exists n. split_and!; try done.
    + by rewrite Hps.
    + constructor; [by exists n|done].
  - destruct Hout as (before & p & after & -> & -> & Hok & Hp).
    exists (1 :: before ++ [p]). eexists. split; [reflexivity|].
    destruct (pages_done_fields net (before ++ [p]) σ2) as (Hcsv & Hmedia & Hreq & Hlog & Hdone & Hcell).
    simpl. rewrite Hcsv, Hmedia, Hreq, Hdone. simpl.
    rewrite <- !app_assoc. simpl. split_and!; try done.
    { intros q Hq. apply elem_of_cons in Hq as [->|Hq]; [by left|].
      right. rewrite <- Hps. apply elem_of_app.
      apply elem_of_app in Hq as [Hq|Hq]; [by left|right].
      apply list_elem_of_singleton in Hq as ->. by left. }
    exists (1 :: before), p. split_and!; try done.
    constructor; [by exists n|done].
Qed.

Lemma page_count_shape net page_number status d r items total limit page :
  search net page_number = Reply status (Some (JObj d)) →
  d !! "review" = Some (JObj r) →
  r !! "trainer_items" = Some (JArr items) →
  r !! "total_filtered_items" = Some (JNum total) →
  r !! "per_page_limit" = Some (JNum limit) →
  r !! "page" = Some (JNum page) →
  page_items net page_number = items ∧
  page_count net page_number = (q ← int_truediv total limit; Ok (math_ceil q)).
Proof.
  intros Hreply Hreview Hitems Htotal Hlimit Hpage.
  unfold page_items, page_count, page_review. rewrite Hreply.
  assert (schema (JObj d) = true) as Hschema.
  { apply schema_accepts. left. exists d, r, items, total, limit, page. tauto. }
  unfold jsonschema_validate. rewrite Hschema. simpl.
  unfold mbind, result_bind. simpl. rewrite Hreview. simpl.
  rewrite Hitems. simpl. rewrite Htotal, Hlimit. simpl. done.
Qed.

(** ** [select_new_vocabulary] *)

Lemma py_in_elem_of x l : py_in x l = true ↔ x ∈ l.
Proof.
  unfold py_in. rewrite existsb_exists. split.
  - intros (y & Hy & ->%String.eqb_eq). by apply list_elem_of_In.
  - intros Hx. exists x. split; [by apply list_elem_of_In|apply String.eqb_refl].
Qed.

Lemma mapM_first_field rows :
  Forall (λ row, row ≠ []) rows → mapM first_field rows = Ok (first_column rows).
Proof.
  induction 1 as [|row rows Hrow _ IH]; [done|].
  destruct row as [|x row]; [done|]. simpl. rewrite IH. done.
Qed.

Lemma not_in_existing_filter py_repr existing vocabulary :
  Forall has_identifier vocabulary →
  not_in_existing py_repr existing vocabulary =
    Ok (filter (λ e, identifier py_repr e ∉ existing) vocabulary).
Proof.
  induction 1 as [|e vocabulary [i Hi] _ IH]; [done|].
  simpl. rewrite Hi, IH. simpl.
  destruct (py_in (py_str py_repr i) existing) eqn:Hin.
  - apply py_in_elem_of in Hin. rewrite filter_cons_False; [done|].
    unfold identifier. rewrite Hi. tauto.
  - rewrite filter_cons_True; [done|].
    unfold identifier. rewrite Hi. rewrite <- py_in_elem_of. congruence.
Qed.

(** ** [write_csv] *)

Lemma csv_field_default py_repr (d : gmap string json) key :
  csv_field py_repr (default (JStr "") (d !! key)) = column py_repr (JObj d) key.
Proof. unfold column. by destruct (d !! key). Qed.

Lemma clean_l2_text_row py_repr e :
  has_l2_text e →
  ∃ e', clean_l2_text e = Ok e' ∧
        dict_to_row py_repr e' = Ok (export_row py_repr e) ∧
        getitem e' "id" = getitem e "id".
Proof.
  intros (d & s & -> & Hs).
  unfold clean_l2_text, strip_l2_text, getitem. rewrite Hs. simpl.
  rewrite lookup_insert_eq. simpl. rewrite insert_insert_eq.
  eexists. split; [reflexivity|]. split.
  - unfold dict_to_row, export_row, csv_fieldnames.
    rewrite !fmap_cons, fmap_nil.
    rewrite lookup_insert_eq. rewrite !lookup_insert_ne by done.
    rewrite !csv_field_default.
    assert (column py_repr (JObj d) "l2_text" = s) as ->; [|done].
    unfold column. by rewrite Hs.
  - unfold getitem. by rewrite lookup_insert_ne.
Qed.

Lemma mapM_clean_l2_text py_repr vocabulary :
  Forall has_l2_text vocabulary →
  ∃ cleaned, mapM clean_l2_text vocabulary = Ok cleaned ∧
             Forall2 (λ e e', dict_to_row py_repr e' = Ok (export_row py_repr e) ∧
                              getitem e' "id" = getitem e "id")
                     vocabulary cleaned.
Proof.
  induction 1 as [|e vocabulary He _ (cleaned & Hcleaned & Hrows)]; [by exists []|].
  destruct (clean_l2_text_row py_repr e He) as (e' & He' & Hrow).
  exists (e' :: cleaned). split; [|by constructor].
  simpl. rewrite He', Hcleaned. done.
Qed.

Lemma foldM_cons {A B} (f : A → B → M A) a x l σ :
  foldM f a (x :: l) σ =
    match f a x σ with
    | (Ok a', σ') => foldM f a' l σ'
    | (Raise e, σ') => (Raise e, σ')
    end.
Proof. done. Qed.

Lemma write_rows py_repr vocabulary cleaned rows σ :
  Forall2 (λ e e', dict_to_row py_repr e' = Ok (export_row py_repr e) ∧
                   getitem e' "id" = getitem e "id")
          vocabulary cleaned →
  csv_file σ = Some rows →
  foldM (λ _ rowdict, row ← lift (dict_to_row py_repr rowdict); writerows [row])
        tt cleaned σ =
    (Ok tt, State (Some (rows ++ (export_row py_repr <$> vocabulary)))
                  (media_files σ) (requests σ) (completed σ) (log σ)
                  (vocabulary_cell σ)).
Proof.
  intros H. revert rows σ.
  induction H as [|e e' vocabulary cleaned [He _] _ IH]; intros rows σ Hcsv.
  - simpl. rewrite app_nil_r, <- Hcsv. by destruct σ.
  - rewrite foldM_cons.
    assert ((row ← lift (dict_to_row py_repr e'); writerows [row]) σ =
            (Ok tt, State (Some (rows ++ [export_row py_repr e])) (media_files σ)
                          (requests σ) (completed σ) (log σ) (vocabulary_cell σ)))
      as ->.
    { unfold mbind, M_bind, lift, writerows, modify. by rewrite He, Hcsv. }
    rewrite (IH (rows ++ [export_row py_repr e])) by done. simpl.
    by rewrite <- app_assoc.
Qed.

(** ** [download_media_item] *)

Lemma download_media_item_first_step py_repr net media_id t σ :
  ∃ rest,
    download_media_item py_repr net media_id t σ =
      (Ok rest, if on_disk py_repr t media_id σ then σ
                else handed [MediaRequest (media_url py_repr t media_id)] σ) ∧
    ∀ s, rest s = item_resumed py_repr net t media_id (on_disk py_repr t media_id σ) s.
Proof.
  unfold download_media_item, item_resumed, on_disk, isfile.
  fold (media_url py_repr t media_id) (media_filename py_repr t media_id).
  fold (media_path py_repr t media_id).
  unfold mbind at 1 2. unfold M_bind at 1 2. simpl.
  destruct (bool_decide _) eqn:Hfile; simpl.
  - eexists. split; [reflexivity|]. done.
  - eexists. split; [reflexivity|]. intros s.
    unfold resume_with, mbind, M_bind, modify, lift. simpl.
    by destruct (media net _).
Qed.

Lemma await_download_media_item py_repr net media_id t σ :
  await (download_media_item py_repr net media_id t) σ =
    item_resumed py_repr net t media_id (on_disk py_repr t media_id σ)
      (if on_disk py_repr t media_id σ then σ
       else handed [MediaRequest (media_url py_repr t media_id)] σ).
Proof.
  destruct (download_media_item_first_step py_repr net media_id t σ)
    as (rest & Hfirst & Hrest).
  unfold await. rewrite (bind_Ok _ _ _ _ _ Hfirst). apply Hrest.
Qed.

(** *** File names *)

Lemma length_append s t :
  String.length (s +:+ t) = (String.length s + String.length t)%nat.
Proof. induction s as [|a s IH]; simpl; [done|]. by rewrite IH. Qed.

Lemma append_inj_suffix s1 s2 t1 t2 :
  String.length t1 = String.length t2 →
  s1 +:+ t1 = s2 +:+ t2 → s1 = s2 ∧ t1 = t2.
Proof.
  intros Hlen. revert s2. induction s1 as [|a s1 IH]; intros [|b s2] H; simpl in *.
  - done.
  - apply (f_equal String.length) in H. simpl in H.
    rewrite !length_append in H. simpl in H. lia.
  - apply (f_equal String.length) in H. simpl in H.
    rewrite !length_append in H. simpl in H. lia.
  - injection H as -> H. destruct (IH _ H) as [-> ->]. done.
Qed.

Lemma media_filename_eq py_repr t1 id1 t2 id2 :
  media_filename py_repr t1 id1 = media_filename py_repr t2 id2 ↔
  t1 = t2 ∧ py_str py_repr id1 = py_str py_repr id2.
Proof.
  unfold media_filename, format. split.
  - intros H.
    assert (py_str py_repr id1 +:+ (media_filenames t1).2 =
            py_str py_repr id2 +:+ (media_filenames t2).2) as H'.
    { by destruct t1, t2; injection H. }
    apply append_inj_suffix in H' as [H1 H2]; [|by destruct t1, t2].
    split; [|done]. by destruct t1, t2.
  - by intros [-> ->].
Qed.

Lemma media_path_eq py_repr t1 id1 t2 id2 :
  media_path py_repr t1 id1 = media_path py_repr t2 id2 ↔
  t1 = t2 ∧ py_str py_repr id1 = py_str py_repr id2.
Proof.
  rewrite <- media_filename_eq. unfold media_path. split; [|by intros ->].
  assert (∀ t id, path_join media_directory (media_filename py_repr t id) =
                  (media_directory +:+ "/") +:+ media_filename py_repr t id) as Hjoin.
  { intros t id. by destruct t. }
  rewrite !Hjoin. apply String.app_inj.
Qed.

(** ** [download_media] *)

Lemma media_only_refl σ : media_only σ σ.
Proof. split; [done|]. split; exists []; by rewrite app_nil_r. Qed.

Lemma media_only_trans σ1 σ2 σ3 :
  media_only σ1 σ2 → media_only σ2 σ3 → media_only σ1 σ3.
Proof.
  intros (Hcsv & [r1 Hr1] & [c1 Hc1]) (Hcsv' & [r2 Hr2] & [c2 Hc2]).
  split; [congruence|]. split.
  - exists (r1 ++ r2). by rewrite Hr2, Hr1, fmap_app, app_assoc.
  - exists (c1 ++ c2). by rewrite Hc2, Hc1, fmap_app, app_assoc.
Qed.

Lemma item_resumed_media_only py_repr net t media_id b σ :
  media_only σ (item_resumed py_repr net t media_id b σ).2.
Proof.
  unfold item_resumed. destruct b; [apply media_only_refl|].
  destruct (media net _); (split; [done|]; split; [by exists []; rewrite app_nil_r|]);
    by exists [media_url py_repr t media_id].
Qed.

Lemma items_first_steps py_repr net t ids σ σ' :
  media_files σ' = media_files σ →
  ∃ waiting σ1,
    mapM (M := M) (B := M (string * bool)) id
         ((λ media_id, download_media_item py_repr net media_id t) <$> ids) σ' =
      (Ok waiting, σ1) ∧
    Forall2 (λ (k : M (string * bool)) media_id,
               ∀ s, k s = item_resumed py_repr net t media_id
                            (on_disk py_repr t media_id σ) s)
            waiting ids ∧
    media_files σ1 = media_files σ ∧ log σ1 = log σ' ∧ media_only σ' σ1.
Proof.
  revert σ'. induction ids as [|media_id ids IH]; intros σ' Hfiles.
  - exists [], σ'. split; [done|]. split; [constructor|].
    split; [done|]. split; [done|]. apply media_only_refl.
  - destruct (download_media_item_first_step py_repr net media_id t σ')
      as (rest & Hfirst & Hrest).
    assert (on_disk py_repr t media_id σ' = on_disk py_repr t media_id σ) as Hdisk.
    { unfold on_disk. by rewrite Hfiles. }
    rewrite Hdisk in Hfirst, Hrest.
    set (σ'' := if on_disk py_repr t media_id σ then σ'
                else handed [MediaRequest (media_url py_repr t media_id)] σ') in *.
    assert (media_files σ'' = media_files σ ∧ log σ'' = log σ' ∧ media_only σ' σ'')
      as (Hfiles' & Hlog' & Honly').
    { unfold σ''. destruct (on_disk py_repr t media_id σ).
      - split; [done|]. split; [done|]. apply media_only_refl.
      - split; [done|]. split; [done|]. split; [done|]. split.
        + by exists [media_url py_repr t media_id].
        + exists []. by rewrite app_nil_r. }
    destruct (IH σ'' Hfiles') as (waiting & σ1 & Hall & Hwaiting & Hfiles1 & Hlog1 & Honly1).
    exists (rest :: waiting), σ1. split; [|split; [by constructor|]].
    + rewrite fmap_cons. simpl. unfold id at 1.
      rewrite (bind_Ok _ _ _ _ _ Hfirst). by rewrite (bind_Ok _ _ _ _ _ Hall).
    + split; [done|]. split; [congruence|]. by eapply media_only_trans.
Qed.

Lemma completion_Forall {X} (completion : ∀ A, list A → list A) (P : X → Prop)
    (xs : list X) :
  (∀ A (l : list A), completion A l ≡ₚ l) →
  Forall P xs → Forall (λ c : nat * X, P c.2) (completion _ (imap pair xs)).
Proof.
  intros Hperm Hxs. rewrite Hperm. apply Forall_forall. intros [i x] Hix.
  apply elem_of_lookup_imap in Hix as (i' & x' & [= -> ->] & Hx).
  rewrite Forall_forall in Hxs. apply Hxs. by eapply list_elem_of_lookup_2.
Qed.

Lemma item_resumed_log py_repr net t media_id b σ :
  log (item_resumed py_repr net t media_id b σ).2 = log σ.
Proof. unfold item_resumed. destruct b; [done|]. by destruct (media net _). Qed.

Lemma gather_items py_repr net completion t ids σ :
  (∀ A (l : list A), completion A l ≡ₚ l) →
  ∃ out,
    gather completion
      ((λ media_id, download_media_item py_repr net media_id t) <$> ids) σ = out ∧
    media_only σ out.2 ∧ log out.2 = log σ ∧
    (Forall (λ media_id,
               on_disk py_repr t media_id σ = true ∨
               ∃ status body,
                 media net (media_url py_repr t media_id) = Reply status body) ids →
     out.1 = Ok ((λ media_id, (media_filename py_repr t media_id,
                               on_disk py_repr t media_id σ)) <$> ids)).
Proof.
  intros Hperm. eexists. split; [reflexivity|].
  destruct (items_first_steps py_repr net t ids σ σ eq_refl)
    as (waiting & σ1 & Hfirst & Hwaiting & Hfiles & Hlog & Honly).
  split; [|split].
  - rewrite (gather_unfold _ _ _ _ _ Hfirst).
    set (rel := λ s s' : state, media_only s s' ∧ log s' = log s).
    assert (rel σ1 (foldM resume (replicate (length waiting) None)
                          (completion _ (imap pair waiting)) σ1).2) as [Hrel _].
    { apply foldM_resume_rel.
      - intros s. split; [apply media_only_refl|done].
      - intros s1 s2 s3 [? ?] [? ?]. split; [by eapply media_only_trans|congruence].
      - apply (completion_Forall completion
                 (λ k : M (string * bool), ∀ s, rel s (k s).2)); [done|].
        eapply Forall2_Forall_l; [exact Hwaiting|]. apply Forall_forall.
        intros media_id _ k Hk s. rewrite Hk.
        split; [apply item_resumed_media_only|apply item_resumed_log]. }
    unfold mbind, M_bind.
    destruct (foldM resume _ _ σ1) as [[slots|e] σ2]; by eapply media_only_trans.
  - rewrite (gather_unfold _ _ _ _ _ Hfirst).
    assert (log (foldM resume (replicate (length waiting) None)
                       (completion _ (imap pair waiting)) σ1).2 = log σ1) as Hlog'.
    { apply (foldM_resume_rel (λ s s', log s' = log s)); [done|congruence|].
      apply (completion_Forall completion
               (λ k : M (string * bool), ∀ s, log (k s).2 = log s)); [done|].
      eapply Forall2_Forall_l; [exact Hwaiting|]. apply Forall_forall.
      intros media_id _ k Hk s. rewrite Hk. apply item_resumed_log. }
    unfold mbind, M_bind.
    destruct (foldM resume _ _ σ1) as [[slots|e] σ2]; simpl in *; congruence.
  - intros Hnet. apply (gather_results completion _ waiting _ σ σ1 Hperm Hfirst).
    apply Forall2_fmap_r. clear Hfirst. revert Hnet.
    induction Hwaiting as [|k media_id waiting ids Hk _ IH]; intros Hnet; [constructor|].
    apply Forall_cons in Hnet as [Hid Hnet]. constructor; [|by apply IH].
    intros s. rewrite Hk. unfold item_resumed.
    destruct (on_disk py_repr t media_id σ); [done|].
    destruct Hid as [?|(status & body & ->)]; done.
Qed.

Lemma coroutines_of_entries py_repr net t vocabulary :
  mapM (λ vocab_item,
          media_id ← getitem vocab_item (media_id_fields t);
          Ok (download_media_item py_repr net media_id t)) vocabulary =
    (ids ← mapM (λ vocab_item, getitem vocab_item (media_id_fields t)) vocabulary;
     Ok ((λ media_id, download_media_item py_repr net media_id t) <$> ids)).
Proof.
  induction vocabulary as [|e vocabulary IH]; [done|].
  simpl. destruct (getitem e (media_id_fields t)) as [media_id|err]; [|done].
  simpl. rewrite IH.
  by destruct (mapM (λ vocab_item, getitem vocab_item (media_id_fields t)) vocabulary).
Qed.

Lemma media_ids_of_entries t vocabulary ids :
  mapM (λ vocab_item, getitem vocab_item (media_id_fields t)) vocabulary = Ok ids ↔
  Forall2 (λ e media_id, getitem e (media_id_fields t) = Ok media_id) vocabulary ids.
Proof.
  revert ids. induction vocabulary as [|e vocabulary IH]; intros ids.
  - simpl. split; [by intros [= <-]|by inversion 1].
  - simpl. destruct (getitem e (media_id_fields t)) as [media_id|err] eqn:He.
    + simpl. destruct (mapM _ vocabulary) as [ids'|err] eqn:Hids; simpl.
      * split.
        -- intros [= <-]. constructor; [done|by apply IH].
        -- inversion 1 as [|???? Hid Hrest]; subst.
           apply IH in Hrest. unfold mret, result_ret. congruence.
      * split; [done|]. inversion 1 as [|???? Hid Hrest]; subst.
        apply IH in Hrest. congruence.
    + simpl. split; [done|]. inversion 1; congruence.
Qed.

Lemma attach_referenced py_repr t vocabulary ids (flags : json → bool) n :
  Forall2 (λ e media_id, getitem e (media_id_fields t) = Ok media_id) vocabulary ids →
  attach py_repr t vocabulary
         ((λ media_id, (media_filename py_repr t media_id, flags media_id)) <$> ids) n =
    Ok (referenced py_repr t <$> vocabulary,
        (n + length (filter (λ media_id, flags media_id = true) ids))%nat).
Proof.
  intros H. revert n. induction H as [|e media_id vocabulary ids He _ IH]; intros n.
  - simpl. by rewrite Nat.add_0_r.
  - rewrite !fmap_cons. simpl.
    destruct e as [| | | | |d]; try done. simpl in He.
    destruct (d !! media_id_fields t) as [x|] eqn:Hd; [|done]. injection He as ->.
    simpl. rewrite IH. simpl. rewrite Hd.
    destruct (flags media_id) eqn:Hflag.
    + rewrite filter_cons_True by done. simpl. do 2 f_equal. lia.
    + rewrite filter_cons_False by congruence. done.
Qed.

Lemma count_on_disk py_repr t σ vocabulary ids :
  Forall2 (λ e media_id, getitem e (media_id_fields t) = Ok media_id) vocabulary ids →
  length (filter (λ media_id, on_disk py_repr t media_id σ = true) ids) =
  length (filter (file_on_disk py_repr t σ) vocabulary).
Proof.
  induction 1 as [|e media_id vocabulary ids He _ IH]; [done|].
  destruct (on_disk py_repr t media_id σ) eqn:Hdisk.
  - rewrite !filter_cons_True; [simpl; by rewrite IH|by exists media_id|done].
  - rewrite !filter_cons_False; [done| |congruence].
    intros (? & Hid & ?). congruence.
Qed.


Lemma download_media_of_unfold py_repr net completion t vocabulary σ :
  download_media_of py_repr net completion t vocabulary σ =
    match mapM (λ vocab_item, getitem vocab_item (media_id_fields t)) vocabulary with
    | Raise e => (Raise e, logged (DownloadingMedia t) σ)
    | Ok ids =>
        match gather completion
                ((λ media_id, download_media_item py_repr net media_id t) <$> ids)
                (logged (DownloadingMedia t) σ) with
        | (Raise e, σ1) => (Raise e, σ1)
        | (Ok results, σ1) =>
            match attach py_repr t vocabulary results 0%nat with
            | Raise e => (Raise e, σ1)
            | Ok found =>
                (Ok found.1, logged (AlreadyExisted found.2 (length results) t) σ1)
            end
        end
    end.
Proof.
  unfold download_media_of. erewrite bind_Ok; [|reflexivity].
  fold (logged (DownloadingMedia t) σ).
  rewrite coroutines_of_entries.
  destruct (mapM _ vocabulary) as [ids|err]; [|done].
  simpl. erewrite bind_Ok; [|reflexivity].
  unfold mbind at 1. unfold M_bind at 1.
  destruct (gather completion _ _) as [[results|err] σ1]; [|done].
  unfold mbind at 1. unfold M_bind at 1. unfold lift.
  by destruct (attach py_repr t vocabulary results 0%nat) as [[vocabulary' n]|err].
Qed.



(** ** The main block *)

Lemma select_new_vocabulary_unfold py_repr vocabulary σ :
  select_new_vocabulary py_repr vocabulary σ =
    match csv_file σ with
    | None =>
        (Ok vocabulary,
         logged (Identified (length vocabulary) 0) (logged Filtering σ))
    | Some rows =>
        match mapM first_field rows with
        | Raise e => (Raise e, logged Filtering σ)
        | Ok existing_ids =>
            match not_in_existing py_repr existing_ids vocabulary with
            | Raise e => (Raise e, logged Filtering σ)
            | Ok new =>
                (Ok new, logged (Identified (length new) (length existing_ids))
                                (logged Filtering σ))
            end
        end
    end.
Proof.
  unfold select_new_vocabulary, logged.
  unfold mbind, M_bind, lift, mret, M_ret, info, modify, get_state. simpl.
  destruct (csv_file σ) as [rows|] eqn:Hcsv; simpl; [|by rewrite ?Hcsv].
  destruct (mapM first_field rows) as [existing_ids|err]; simpl; [|by rewrite ?Hcsv].
  destruct (not_in_existing py_repr existing_ids vocabulary); simpl; by rewrite ?Hcsv.
Qed.

Lemma mapM_first_field_inv rows existing_ids :
  mapM first_field rows = Ok existing_ids →
  Forall (λ row, row ≠ []) rows ∧ existing_ids = first_column rows.
Proof.
  revert existing_ids. induction rows as [|row rows IH]; intros existing_ids H.
  - injection H as <-. by split.
  - simpl in H. destruct row as [|x row]; [done|]. simpl in H.
    destruct (mapM first_field rows) as [rest|err]; [|done].
    injection H as <-. destruct (IH rest eq_refl) as [Hrows ->].
    split; [by constructor|done].
Qed.

(** Whatever the export file holds, filtering changes nothing but the log. *)
Lemma select_new_vocabulary_frame py_repr vocabulary σ :
  let out := select_new_vocabulary py_repr vocabulary σ in
  csv_file out.2 = csv_file σ ∧ media_files out.2 = media_files σ ∧
  requests out.2 = requests σ ∧ completed out.2 = completed σ.
Proof.
  rewrite select_new_vocabulary_unfold.
  destruct (csv_file σ) as [rows|] eqn:Hcsv; [|by rewrite <- Hcsv].
  destruct (mapM first_field rows) as [existing_ids|err]; [|by rewrite <- Hcsv].
  by destruct (not_in_existing py_repr existing_ids vocabulary); rewrite <- Hcsv.
Qed.

Lemma clean_l2_text_inv e e' : clean_l2_text e = Ok e' → has_l2_text e.
Proof.
  unfold clean_l2_text, strip_l2_text. destruct e as [| | | | |d]; try done.
  simpl. destruct (d !! "l2_text") as [[| | |s| |]|] eqn:Hd; try done.
  intros _. by exists d, s.
Qed.

Lemma mapM_clean_l2_text_inv vocabulary cleaned :
  mapM clean_l2_text vocabulary = Ok cleaned → Forall has_l2_text vocabulary.
Proof.
  revert cleaned. induction vocabulary as [|e vocabulary IH]; intros cleaned H;
    [constructor|].
  simpl in H. destruct (clean_l2_text e) as [e'|err] eqn:He; [|done]. simpl in H.
  destruct (mapM clean_l2_text vocabulary) as [rest|err]; [|done].
  constructor; [by eapply clean_l2_text_inv|by eapply IH].
Qed.

Lemma write_csv_rows py_repr vocabulary σ :
  Forall has_l2_text vocabulary →
  write_csv py_repr vocabulary σ =
    (Ok tt, State (Some (default [] (csv_file σ) ++ (export_row py_repr <$> vocabulary)))
                  (media_files σ) (requests σ) (completed σ)
                  (log σ ++ [WritingCsv; Wrote (length vocabulary)])
                  (vocabulary_cell σ)).
Proof.
  intros Hl2.
  destruct (mapM_clean_l2_text py_repr vocabulary Hl2) as (cleaned & Hcleaned & Hrows).
  unfold write_csv.
  erewrite bind_Ok; [|unfold lift; by rewrite Hcleaned].
  erewrite bind_Ok; [|reflexivity].
  erewrite bind_Ok; [|reflexivity].
  erewrite bind_Ok; [|by eapply write_rows].
  unfold info, modify. simpl.
  by rewrite <- app_assoc, (Forall2_length _ _ _ Hrows).
Qed.

(** The export file changes only when [write_csv] goes through. *)
Lemma write_csv_raises py_repr vocabulary σ e σ' :
  write_csv py_repr vocabulary σ = (Raise e, σ') → σ' = σ.
Proof.
  destruct (mapM clean_l2_text vocabulary) as [cleaned|err] eqn:Hclean.
  - rewrite write_csv_rows; [intros H; inversion H|]. by eapply mapM_clean_l2_text_inv.
  - unfold write_csv. erewrite bind_Raise; [|unfold lift; by rewrite Hclean].
    by intros [= _ <-].
Qed.

Lemma write_csv_Ok py_repr vocabulary σ σ' :
  write_csv py_repr vocabulary σ = (Ok tt, σ') → Forall has_l2_text vocabulary.
Proof.
  destruct (mapM clean_l2_text vocabulary) as [cleaned|err] eqn:Hclean.
  - intros _. by eapply mapM_clean_l2_text_inv.
  - unfold write_csv. erewrite bind_Raise; [|unfold lift; by rewrite Hclean].
    intros H. inversion H.
Qed.

Lemma download_media_unfold py_repr net completion vocabulary σ :
  download_media py_repr net completion vocabulary σ =
    match download_media_of py_repr net completion Image vocabulary σ with
    | (Ok vocabulary1, σ1) =>
        download_media_of py_repr net completion Audio vocabulary1 σ1
    | (Raise e, σ1) => (Raise e, σ1)
    end.
Proof.
  unfold download_media. simpl. unfold mbind, M_bind.
  destruct (download_media_of py_repr net completion Image vocabulary σ)
    as [[vocabulary1|err] σ1]; [|done].
  by destruct (download_media_of py_repr net completion Audio vocabulary1 σ1)
    as [[vocabulary2|err] σ2].
Qed.


Lemma main_unfold py_repr net completion σ :
  main py_repr net completion σ =
    match get_babbel_vocabulary net completion σ with
    | (Raise e, σ1) => (Raise e, σ1)
    | (Ok vocabulary, σ1) =>
        match select_new_vocabulary py_repr vocabulary σ1 with
        | (Raise e, σ2) => (Raise e, σ2)
        | (Ok [], σ2) => (Ok tt, σ2)
        | (Ok new, σ2) =>
            match download_media py_repr net completion new σ2 with
            | (Raise e, σ3) => (Raise e, σ3)
            | (Ok new', σ3) => write_csv py_repr new' σ3
            end
        end
    end.
Proof.
  unfold main. unfold mbind at 1. unfold M_bind at 1.
  destruct (get_babbel_vocabulary net completion σ) as [[vocabulary|err] σ1]; [|done].
  unfold mbind at 1. unfold M_bind at 1.
  destruct (select_new_vocabulary py_repr vocabulary σ1) as [[new|err] σ2]; [|done].
  destruct new as [|e new]; [done|].
  unfold mbind at 1. unfold M_bind at 1.
  by destruct (download_media py_repr net completion (e :: new) σ2) as [[new'|err] σ3].
Qed.

Lemma select_new_vocabulary_log py_repr vocabulary σ new σ' :
  select_new_vocabulary py_repr vocabulary σ = (Ok new, σ') →
  ∃ k, log σ' = log σ ++ [Filtering; Identified (length new) k].
Proof.
  rewrite select_new_vocabulary_unfold.
  destruct (csv_file σ) as [rows|].
  - destruct (mapM first_field rows) as [existing_ids|err]; [|intros H; inversion H].
    destruct (not_in_existing py_repr existing_ids vocabulary) as [new'|err];
      [|intros H; inversion H].
    intros [= <- <-]. exists (length existing_ids). simpl. by rewrite <- app_assoc.
  - intros [= <- <-]. exists 0%nat. simpl. by rewrite <- app_assoc.
Qed.



(** ** Two runs *)

Lemma first_column_app rows1 rows2 :
  first_column (rows1 ++ rows2) = first_column rows1 ++ first_column rows2.
Proof. unfold first_column. apply omap_app. Qed.








(** A run that finds nothing new neither downloads nor writes. *)
Lemma main_without_new py_repr net completion σ vocabulary σ1 σ2 :
  (∀ A (l : list A), completion A l ≡ₚ l) →
  get_babbel_vocabulary net completion σ = (Ok vocabulary, σ1) →
  select_new_vocabulary py_repr vocabulary σ1 = (Ok [], σ2) →
  main py_repr net completion σ = (Ok tt, σ2) ∧
  csv_file σ2 = csv_file σ ∧ media_files σ2 = media_files σ ∧
  (∃ pages, requests σ2 = requests σ ++ (SearchRequest <$> pages)) ∧
  (∃ n k, log σ2 = log σ ++ [ DownloadingList; Downloaded (length vocabulary) n;
                              Filtering; Identified 0 k ]).
Proof.
  intros Hperm Hcollect Hselect.
  split; [by rewrite main_unfold, Hcollect, Hselect|].
  destruct (get_babbel_vocabulary_spec net completion σ Hperm)
    as (resumed & out & Hout & Hcsv & Hmedia & _ & Hreq & _ & Hok).
  rewrite Hcollect in Hout. subst out.
  cbn [fst snd] in Hcsv, Hmedia, Hreq, Hok.
  destruct Hok as (n & _ & _ & _ & _ & Hlog).
  pose proof (select_new_vocabulary_frame py_repr vocabulary σ1) as Hframe.
  rewrite Hselect in Hframe. cbn [fst snd] in Hframe.
  destruct Hframe as (Hcsv' & Hmedia' & Hreq' & _).
  destruct (select_new_vocabulary_log _ _ _ _ _ Hselect) as [k Hlog'].
  split; [congruence|]. split; [congruence|]. split.
  - eexists. by rewrite Hreq', Hreq.
  - exists n, k. rewrite Hlog', Hlog. by rewrite <- app_assoc.
Qed.


Lemma ceiling_signed_bounds a b :
  b ≠ 0 →
  (ceiling a b - 1) * Z.abs b < a * Z.sgn b ≤ ceiling a b * Z.abs b.
Proof.
  intros Hb. destruct (Z.lt_trichotomy b 0) as [Hneg|[->|Hpos]]; [|done|].
  - assert (ceiling a b = ceiling (- a) (- b)) as ->.
    { unfold ceiling. rewrite Z.opp_involutive.
      rewrite <- (Z.div_opp_opp a (- b)) by lia. by rewrite Z.opp_involutive. }
    rewrite (Z.abs_neq b), (Z.sgn_neg b) by lia.
    pose proof (ceiling_bounds (- a) (- b) ltac:(lia)). lia.
  - rewrite (Z.abs_eq b), (Z.sgn_pos b) by lia.
    pose proof (ceiling_bounds a b Hpos). lia.
Qed.

(** ** The pages, in the order of their replies *)

(** The pages whose coroutines were resumed, page 1 first, and what the
    collector makes of them *)
Lemma get_babbel_vocabulary_trace net completion σ :
  (∀ A (l : list A), completion A l ≡ₚ l) →
  ∃ resumed,
    completed (get_babbel_vocabulary net completion σ).2 =
      completed σ ++ (SearchRequest <$> 1 :: resumed) ∧
    match page_count net 1, (get_babbel_vocabulary net completion σ).1 with
    | Raise e, out => resumed = [] ∧ out = Raise e
    | Ok n, Ok vocabulary =>
        resumed ≡ₚ seqZ 2 (n - 1) ∧ Forall (page_ok net) resumed ∧
        vocabulary = page_items net 1 ++ concat (page_items net <$> resumed)
    | Ok n, Raise e =>
        ∃ before p after,
          before ++ p :: after ≡ₚ seqZ 2 (n - 1) ∧ resumed = before ++ [p] ∧
          Forall (page_ok net) before ∧ page_count net p = Raise e
    end.
Proof.
  intros Hperm. rewrite get_babbel_vocabulary_unfold.
  set (σ0 := State (csv_file σ) (media_files σ) (requests σ) (completed σ)
                   (log σ ++ [DownloadingList]) []).
  set (σ1 := pages_done net [1] (handed [SearchRequest 1] σ0)).
  destruct (page_count net 1) as [n|e] eqn:Hp1.
  2:{ exists []. by split. }
  destruct (Z.ltb_spec 1 n) as [Hn|Hn].
  2:{ exists []. rewrite seqZ_nil by lia. simpl. split; [done|].
      split; [done|]. split; [constructor|]. by rewrite app_nil_r. }
  set (pages := seqZ 2 (n - 1)).
  destruct (pages_first_steps net pages σ1) as (waiting & Hfirst & Hwaiting).
  destruct (completion_order completion _ _ _ Hperm Hwaiting) as (ps & Hps & HL).
  rewrite (gather_unfold _ _ _ _ _ Hfirst).
  set (σ2 := handed (SearchRequest <$> pages) σ1) in *.
  destruct (foldM_resume_pages net _ ps (replicate (length waiting) None) σ2 HL)
    as (resumed & Hstate & Hout).
  unfold mbind at 1 2. unfold M_bind at 1 2.
  destruct (foldM resume _ _ σ2) as [[slots|e] σ3]; simpl in Hstate, Hout; subst σ3.
  - destruct Hout as [-> Hok]. exists ps.
    destruct (pages_done_fields net ps σ2) as (_ & _ & _ & _ & Hdone & Hcell).
    simpl. rewrite Hdone, Hcell. simpl. rewrite <- app_assoc. by split_and!.
  - destruct Hout as (before & p & after & -> & -> & Hok & Hp).
    exists (before ++ [p]).
    destruct (pages_done_fields net (before ++ [p]) σ2) as (_ & _ & _ & _ & Hdone & _).
    simpl. rewrite Hdone. simpl. rewrite <- app_assoc. split; [done|].
    by exists before, p, after.
Qed.

Lemma concat_fmap_Permutation {A B} (f : A → list B) (l k : list A) :
  l ≡ₚ k → concat (f <$> l) ≡ₚ concat (f <$> k).
Proof.
  induction 1 as [|x l k _ IH|x y l|l k m _ IH1 _ IH2]; simpl.
  - done.
  - by rewrite IH.
  - by rewrite !app_assoc, (Permutation_app_comm (f y)).
  - by rewrite IH1.
Qed.

(** ** The files of a round *)

(** What each resumption establishes, and no later resumption undoes, holds
    of every coroutine when the wait ends well. *)
Lemma foldM_resume_each {R} (post : nat * M R → state → Prop)
    (L : list (nat * M R)) slots σ slots' σ' :
  foldM resume slots L σ = (Ok slots', σ') →
  (∀ c s r s1, c ∈ L → c.2 s = (Ok r, s1) → post c s1) →
  (∀ c c' s, c' ∈ L → post c s → post c (c'.2 s).2) →
  Forall (λ c, post c σ') L.
Proof.
  revert slots σ. induction L as [|c L IH]; intros slots σ Hfold Hpost Hstable.
  - constructor.
  - rewrite foldM_resume_cons in Hfold.
    destruct (c.2 σ) as [[r|e] s1] eqn:Hc; [|inversion Hfold].
    constructor.
    + assert (post c s1) as Hs1 by (eapply Hpost; [by left|exact Hc]).
      pose proof (foldM_resume_rel (λ s s', post c s → post c s') L
                    (<[c.1 := Some r]> slots) s1) as Hrel.
      rewrite Hfold in Hrel. apply Hrel; [done|by eauto| |done].
      apply Forall_forall. intros c' Hc' s. apply Hstable. by right.
    + eapply IH; [exact Hfold| |].
      * intros c' s r' s2 Hc'. apply Hpost. by right.
      * intros c1 c' s Hc'. apply Hstable. by right.
Qed.

(** The first steps of the downloads of a round: a request is handed to the
    pool for each file that is not on the disk. *)
Lemma items_first_steps_handed py_repr net t ids σ σ' :
  media_files σ' = media_files σ →
  ∃ waiting,
    mapM (M := M) (B := M (string * bool)) id
         ((λ media_id, download_media_item py_repr net media_id t) <$> ids) σ' =
      (Ok waiting,
       handed (MediaRequest <$>
                 (media_url py_repr t <$>
                    filter (λ media_id, on_disk py_repr t media_id σ = false) ids))
              σ') ∧
    Forall2 (λ (k : M (string * bool)) media_id,
               ∀ s, k s = item_resumed py_repr net t media_id
                            (on_disk py_repr t media_id σ) s)
            waiting ids.
Proof.
  revert σ'. induction ids as [|media_id ids IH]; intros σ' Hfiles.
  - exists []. rewrite handed_nil. split; [done|constructor].
  - destruct (download_media_item_first_step py_repr net media_id t σ')
      as (rest & Hfirst & Hrest).
    assert (on_disk py_repr t media_id σ' = on_disk py_repr t media_id σ) as Hdisk.
    { unfold on_disk. by rewrite Hfiles. }
    rewrite Hdisk in Hfirst, Hrest.
    set (σ'' := if on_disk py_repr t media_id σ then σ'
                else handed [MediaRequest (media_url py_repr t media_id)] σ') in *.
    assert (media_files σ'' = media_files σ) as Hfiles'.
    { unfold σ''. by destruct (on_disk py_repr t media_id σ). }
    destruct (IH σ'' Hfiles') as (waiting & Hall & Hwaiting).
    exists (rest :: waiting). split; [|by constructor].
    rewrite fmap_cons. simpl. unfold id at 1.
    rewrite (bind_Ok _ _ _ _ _ Hfirst). rewrite (bind_Ok _ _ _ _ _ Hall).
    unfold mret, M_ret. f_equal. unfold σ''.
    destruct (on_disk py_repr t media_id σ) eqn:Hd.
    + by rewrite filter_cons_False by congruence.
    + rewrite filter_cons_True by done. by rewrite !fmap_cons, handed_app.
Qed.

(** What resuming the download of one item does to the files, [σ] being the
    state in which the item looked for its file *)
Lemma item_resumed_files py_repr net t media_id σ s :
  let out := item_resumed py_repr net t media_id (on_disk py_repr t media_id σ) s in
  requests out.2 = requests s ∧ csv_file out.2 = csv_file s ∧
  (media_files σ ⊆ media_files s → media_files σ ⊆ media_files out.2) ∧
  (∀ path, path ≠ media_path py_repr t media_id →
           media_files out.2 !! path = media_files s !! path) ∧
  (∀ path, is_Some (media_files s !! path) → is_Some (media_files out.2 !! path)) ∧
  (∀ r, out.1 = Ok r →
        (on_disk py_repr t media_id σ = true ∨
         ∃ status body, media net (media_url py_repr t media_id) = Reply status body) ∧
        (on_disk py_repr t media_id σ = true ∨
         on_disk py_repr t media_id out.2 = true)).
Proof.
  unfold item_resumed. destruct (on_disk py_repr t media_id σ) eqn:Hdisk.
  { simpl. split_and!; try done; intros r _; by split; left. }
  assert (media_files σ !! media_path py_repr t media_id = None) as Habsent.
  { unfold on_disk in Hdisk. apply bool_decide_eq_false in Hdisk.
    by apply eq_None_not_Some. }
  destruct (media net _) as [|status body] eqn:Hreply; simpl.
  { by split_and!. }
  split_and!; try done.
  - intros Hsub. by apply insert_subseteq_r.
  - intros path Hpath. by rewrite lookup_insert_ne.
  - intros path Hsome. rewrite lookup_insert_is_Some.
    destruct (decide (media_path py_repr t media_id = path)); [by left|by right].
  - intros r _. split; right; [by eauto|].
    unfold on_disk. simpl. apply bool_decide_eq_true. by rewrite lookup_insert_eq.
Qed.

(** One wait of a round: the requests are those of the files that were not
    on the disk, the files that were there stay, nothing outside the paths
    of the round changes, and when the wait ends well every file of the
    round is there. *)
Lemma gather_items_files py_repr net completion t ids σ :
  (∀ A (l : list A), completion A l ≡ₚ l) →
  let out := gather completion
               ((λ media_id, download_media_item py_repr net media_id t) <$> ids) σ in
  requests out.2 =
    requests σ ++ (MediaRequest <$>
                     (media_url py_repr t <$>
                        filter (λ media_id, on_disk py_repr t media_id σ = false) ids)) ∧
  media_files σ ⊆ media_files out.2 ∧
  (∀ path, (∀ media_id, media_id ∈ ids → path ≠ media_path py_repr t media_id) →
           media_files out.2 !! path = media_files σ !! path) ∧
  (∀ results, out.1 = Ok results →
     Forall (λ media_id,
               (on_disk py_repr t media_id σ = true ∨
                ∃ status body,
                  media net (media_url py_repr t media_id) = Reply status body) ∧
               on_disk py_repr t media_id out.2 = true) ids).
Proof.
  intros Hperm out. unfold out. clear out.
  destruct (items_first_steps_handed py_repr net t ids σ σ eq_refl)
    as (waiting & Hfirst & Hwaiting).
  rewrite (gather_unfold _ _ _ _ _ Hfirst).
  set (urls := media_url py_repr t <$> filter _ ids) in *.
  set (σ1 := handed (MediaRequest <$> urls) σ) in *.
  set (L := completion _ (imap pair waiting)).
  assert (∀ c, c ∈ L →
               ∃ media_id, ids !! c.1 = Some media_id ∧
                 ∀ s, c.2 s = item_resumed py_repr net t media_id
                                (on_disk py_repr t media_id σ) s) as HL.
  { intros [i k]. unfold L. rewrite Hperm. intros Hik.
    apply elem_of_lookup_imap in Hik as (i' & k' & [= -> ->] & Hk).
    destruct (Forall2_lookup_l _ _ _ _ _ Hwaiting Hk) as (media_id & Hid & Hkid).
    by exists media_id. }
  set (rel := λ s s' : state,
         requests s' = requests s ∧
         (media_files σ ⊆ media_files s → media_files σ ⊆ media_files s') ∧
         (∀ path, (∀ media_id, media_id ∈ ids → path ≠ media_path py_repr t media_id) →
                  media_files s' !! path = media_files s !! path) ∧
         (∀ path, is_Some (media_files s !! path) → is_Some (media_files s' !! path))).
  assert (∀ c, c ∈ L → ∀ s, rel s (c.2 s).2) as Hstep.
  { intros c (media_id & Hid & Hc)%HL s. rewrite Hc.
    destruct (item_resumed_files py_repr net t media_id σ s)
      as (Hreq & _ & Hsub & Hother & Hdom & _).
    split; [done|]. split; [done|]. split; [|done].
    intros path Hpath. apply Hother, Hpath. by eapply list_elem_of_lookup_2. }
  assert (rel σ1 (foldM resume (replicate (length waiting) None) L σ1).2)
    as (Hreq & Hsub & Hother & _).
  { apply foldM_resume_rel.
    - intros s. by split_and!.
    - intros s1 s2 s3 (? & ? & H12 & ?) (? & ? & H23 & ?). split_and!.
      + congruence.
      + tauto.
      + intros path Hpath. by rewrite H23, H12.
      + auto.
    - by apply Forall_forall. }
  unfold mbind, M_bind.
  destruct (foldM resume _ L σ1) as [[slots|e] σ2] eqn:Hfold; simpl in *.
  - split; [done|]. split; [by apply Hsub|]. split; [done|].
    intros results _.
    pose proof (foldM_resume_each
      (λ c s, ∀ media_id, ids !! c.1 = Some media_id →
                (on_disk py_repr t media_id σ = true ∨
                 ∃ status body,
                   media net (media_url py_repr t media_id) = Reply status body) ∧
                (on_disk py_repr t media_id σ = true ∨
                 on_disk py_repr t media_id s = true))
      L _ _ _ _ Hfold) as Heach.
    rewrite Forall_forall in Heach.
    apply Forall_forall. intros media_id Hin.
    apply list_elem_of_lookup in Hin as [i Hi].
    destruct (Forall2_lookup_r _ _ _ _ _ Hwaiting Hi) as (k & Hk & _).
    assert ((i, k) ∈ L) as Hik.
    { unfold L. rewrite Hperm. apply elem_of_lookup_imap. by exists i, k. }
    destruct (Heach) with (x := (i, k)) (media_id := media_id) as [Hnet Hdisk];
      try done.
    + intros c s r s1 (media_id' & Hid' & Hc)%HL Hrun media_id'' Hid''.
      injection (eq_trans (eq_sym Hid'') Hid') as ->.
      rewrite Hc in Hrun.
      destruct (item_resumed_files py_repr net t media_id' σ s)
        as (_ & _ & _ & _ & _ & Hpost).
      rewrite Hrun in Hpost. by apply (Hpost r).
    + intros c c' s Hc' Hpost media_id' Hid'.
      destruct (Hpost media_id' Hid') as [Hnet [Hdisk|Hdisk]]; [by split; [|left]|].
      split; [done|]. right.
      destruct (Hstep c' Hc' s) as (_ & _ & _ & Hdom).
      unfold on_disk in *. apply bool_decide_eq_true.
      apply Hdom. by apply bool_decide_eq_true in Hdisk.
    + split; [done|]. destruct Hdisk as [Hdisk|Hdisk]; [|exact Hdisk].
      unfold on_disk in *. apply bool_decide_eq_true.
      apply bool_decide_eq_true in Hdisk as [content Hcontent].
      exists content. eapply lookup_weaken; [exact Hcontent|by apply Hsub].
  - split; [done|]. split; [by apply Hsub|]. split; [done|]. intros ? H. inversion H.
Qed.

(** An exception of the wait is the exception of a coroutine. *)
Lemma foldM_resume_Raise {R} (L : list (nat * M R)) slots σ e σ' :
  foldM resume slots L σ = (Raise e, σ') → ∃ c s, c ∈ L ∧ (c.2 s).1 = Raise e.
Proof.
  revert slots σ. induction L as [|c L IH]; intros slots σ Hfold; [inversion Hfold|].
  rewrite foldM_resume_cons in Hfold.
  destruct (c.2 σ) as [[r|e'] s1] eqn:Hc.
  - destruct (IH _ _ Hfold) as (c' & s & Hc' & Hraise).
    exists c', s. split; [by right|done].
  - injection Hfold as -> ->. exists c, σ. split; [by left|]. exact (f_equal fst Hc).
Qed.

(** The only exception of a wait for media is the one of a call that got no
    reply. *)
Lemma gather_items_Raise py_repr net completion t ids σ e :
  (∀ A (l : list A), completion A l ≡ₚ l) →
  (gather completion
     ((λ media_id, download_media_item py_repr net media_id t) <$> ids) σ).1 = Raise e →
  e = RequestException.
Proof.
  intros Hperm.
  destruct (items_first_steps_handed py_repr net t ids σ σ eq_refl)
    as (waiting & Hfirst & Hwaiting).
  rewrite (gather_unfold _ _ _ _ _ Hfirst). unfold mbind, M_bind.
  destruct (foldM resume _ _ _) as [[slots|e'] σ2] eqn:Hfold; [intros H; inversion H|].
  intros [= ->].
  apply foldM_resume_Raise in Hfold as ([i k] & s & Hik & Hraise).
  rewrite Hperm in Hik.
  apply elem_of_lookup_imap in Hik as (i' & k' & [= -> ->] & Hk).
  destruct (Forall2_lookup_l _ _ _ _ _ Hwaiting Hk) as (media_id & _ & Hkid).
  simpl in Hraise. rewrite Hkid in Hraise. unfold item_resumed in Hraise.
  destruct (on_disk py_repr t media_id σ); [inversion Hraise|].
  destruct (media net _); [by injection Hraise|inversion Hraise].
Qed.

Lemma missing_urls_ids py_repr t σ vocabulary ids :
  Forall2 (λ e media_id, getitem e (media_id_fields t) = Ok media_id) vocabulary ids →
  media_url py_repr t <$> filter (λ media_id, on_disk py_repr t media_id σ = false) ids =
  missing_urls py_repr t σ vocabulary.
Proof.
  unfold missing_urls. induction 1 as [|e media_id vocabulary ids He _ IH]; [done|].
  csimpl. rewrite He. destruct (on_disk py_repr t media_id σ) eqn:Hdisk.
  - by rewrite filter_cons_False by congruence.
  - rewrite filter_cons_True by done. by rewrite fmap_cons, IH.
Qed.

Lemma missing_urls_length py_repr t σ vocabulary :
  Forall (λ e, ∃ media_id, getitem e (media_id_fields t) = Ok media_id) vocabulary →
  (length (missing_urls py_repr t σ vocabulary) +
   length (filter (file_on_disk py_repr t σ) vocabulary))%nat = length vocabulary.
Proof.
  unfold missing_urls. induction 1 as [|e vocabulary [media_id He] _ IH]; [done|].
  csimpl. rewrite He. destruct (on_disk py_repr t media_id σ) eqn:Hdisk.
  - rewrite filter_cons_True by (by exists media_id). simpl. lia.
  - rewrite filter_cons_False.
    + simpl. lia.
    + intros (media_id' & He' & Hdisk'). rewrite He in He'.
      injection He' as <-. congruence.
Qed.

Lemma elem_of_missing_urls py_repr t σ vocabulary url :
  url ∈ missing_urls py_repr t σ vocabulary ↔
  ∃ e media_id, e ∈ vocabulary ∧ getitem e (media_id_fields t) = Ok media_id ∧
                on_disk py_repr t media_id σ = false ∧
                url = media_url py_repr t media_id.
Proof.
  unfold missing_urls. rewrite list_elem_of_omap. split.
  - intros (e & He & Hurl).
    destruct (getitem e (media_id_fields t)) as [media_id|] eqn:Hid; [|done].
    destruct (on_disk py_repr t media_id σ) eqn:Hdisk; [done|].
    injection Hurl as <-. by exists e, media_id.
  - intros (e & media_id & He & Hid & Hdisk & ->). exists e. split; [done|].
    by rewrite Hid, Hdisk.
Qed.

(** One round of [download_media], for entries that have the media
    identifier of the round *)
Lemma download_media_of_round py_repr net completion t vocabulary ids σ :
  (∀ A (l : list A), completion A l ≡ₚ l) →
  Forall2 (λ e media_id, getitem e (media_id_fields t) = Ok media_id) vocabulary ids →
  ∃ out,
    download_media_of py_repr net completion t vocabulary σ = out ∧
    csv_file out.2 = csv_file σ ∧
    requests out.2 =
      requests σ ++ (MediaRequest <$>
                       (media_url py_repr t <$>
                          filter (λ media_id, on_disk py_repr t media_id σ = false) ids)) ∧
    media_files σ ⊆ media_files out.2 ∧
    (∀ path, (∀ media_id, media_id ∈ ids → path ≠ media_path py_repr t media_id) →
             media_files out.2 !! path = media_files σ !! path) ∧
    match out.1 with
    | Ok vocabulary' =>
        Forall (obtainable py_repr net t σ) vocabulary ∧
        vocabulary' = referenced py_repr t <$> vocabulary ∧
        Forall (λ media_id, on_disk py_repr t media_id out.2 = true) ids ∧
        log out.2 =
          log σ ++ [ DownloadingMedia t;
                     AlreadyExisted
                       (length (filter (file_on_disk py_repr t σ) vocabulary))
                       (length vocabulary) t ]
    | Raise e =>
        e = RequestException ∧ ¬ Forall (obtainable py_repr net t σ) vocabulary ∧
        log out.2 = log σ ++ [DownloadingMedia t]
    end.
Proof.
  intros Hperm Hids. eexists. split; [reflexivity|].
  rewrite download_media_of_unfold.
  rewrite (proj2 (media_ids_of_entries t vocabulary ids) Hids).
  set (σl := logged (DownloadingMedia t) σ).
  destruct (gather_items py_repr net completion t ids σl Hperm)
    as (out & Hout & Honly & Hlog & Hforward).
  pose proof (gather_items_files py_repr net completion t ids σl Hperm)
    as (Hreq & Hsub & Hother & Hback).
  pose proof (gather_items_Raise py_repr net completion t ids σl) as Hraise.
  rewrite Hout in Hreq, Hsub, Hother, Hback, Hraise. rewrite Hout. clear Hout.
  assert (Forall (λ media_id,
                    on_disk py_repr t media_id σ = true ∨
                    ∃ status body,
                      media net (media_url py_repr t media_id) = Reply status body) ids ↔
          Forall (obtainable py_repr net t σ) vocabulary) as Hobtainable.
  { clear -Hids. induction Hids as [|e media_id vocabulary ids He _ IH].
    - split; constructor.
    - rewrite !Forall_cons, IH. split.
      + intros [Hid Hrest]. split; [by exists media_id|done].
      + intros [(media_id' & Hid' & Hnet) Hrest]. rewrite He in Hid'.
        injection Hid' as <-. by split. }
  destruct out as [[results|e] σ1]; cbn [fst snd] in *.
  - specialize (Hback results eq_refl).
    assert (Forall (λ media_id,
                      on_disk py_repr t media_id σ = true ∨
                      ∃ status body,
                        media net (media_url py_repr t media_id) = Reply status body)
                   ids) as Hnet.
    { eapply Forall_impl; [exact Hback|]. by intros media_id [? _]. }
    specialize (Hforward Hnet). injection Hforward as ->.
    change (λ media_id, (media_filename py_repr t media_id,
                         on_disk py_repr t media_id σl))
      with (λ media_id, (media_filename py_repr t media_id,
                         (λ media_id, on_disk py_repr t media_id σ) media_id)).
    rewrite attach_referenced by done. simpl.
    split; [apply Honly|]. split; [exact Hreq|]. split; [exact Hsub|].
    split; [exact Hother|]. split; [by apply Hobtainable|]. split; [done|].
    split; [eapply Forall_impl; [exact Hback|]; by intros media_id [_ ?]|].
    rewrite Hlog. simpl. rewrite <- app_assoc. simpl.
    rewrite (count_on_disk _ _ _ _ _ Hids), length_fmap.
    by rewrite (Forall2_length _ _ _ Hids).
  - split; [apply Honly|]. split; [exact Hreq|]. split; [exact Hsub|].
    split; [exact Hother|]. split; [by apply Hraise|]. split; [|by rewrite Hlog].
    intros Hall. apply Hobtainable in Hall. by specialize (Hforward Hall).
Qed.

(** ** The two rounds *)

(** A reference changes the field of the reference only. *)
Lemma referenced_getitem py_repr t e key :
  key ≠ media_csv_fields t →
  getitem (referenced py_repr t e) key = getitem e key.
Proof.
  intros Hkey. destruct e as [| | | | |d]; try done. unfold referenced.
  destruct (d !! media_id_fields t); [|done]. simpl. by rewrite lookup_insert_ne.
Qed.

Lemma referenced_media_id py_repr t t' e :
  getitem (referenced py_repr t e) (media_id_fields t') =
  getitem e (media_id_fields t').
Proof. apply referenced_getitem. by destruct t, t'. Qed.

(** A round writes files of its own type only. *)
Lemma on_disk_other_type py_repr t t' (ids : list json) media_id σ σ' :
  (∀ path, (∀ media_id, media_id ∈ ids → path ≠ media_path py_repr t media_id) →
           media_files σ' !! path = media_files σ !! path) →
  t' ≠ t →
  on_disk py_repr t' media_id σ' = on_disk py_repr t' media_id σ.
Proof.
  intros Hother Ht. unfold on_disk. rewrite Hother; [done|].
  intros media_id' _ Heq. apply media_path_eq in Heq as [? _]. done.
Qed.

Lemma length_filter_fmap {A B} (f : A → B) (P : B → Prop) (Q : A → Prop)
    `{∀ x, Decision (P x)} `{∀ x, Decision (Q x)} (l : list A) :
  (∀ x, P (f x) ↔ Q x) →
  length (filter P (f <$> l)) = length (filter Q l).
Proof.
  intros HPQ. induction l as [|x l IH]; [done|]. rewrite fmap_cons.
  destruct (decide (Q x)) as [Hq|Hq].
  - rewrite !filter_cons_True by (done || by apply HPQ). simpl. by rewrite IH.
  - rewrite !filter_cons_False by (done || by rewrite HPQ). done.
Qed.

Lemma obtainable_ids py_repr net t σ vocabulary :
  Forall (obtainable py_repr net t σ) vocabulary →
  ∃ ids, Forall2 (λ e media_id, getitem e (media_id_fields t) = Ok media_id)
                 vocabulary ids.
Proof.
  induction 1 as [|e vocabulary (media_id & He & _) _ [ids Hids]].
  - by exists [].
  - exists (media_id :: ids). by constructor.
Qed.

Lemma ids_of_referenced py_repr t t' vocabulary ids :
  Forall2 (λ e media_id, getitem e (media_id_fields t') = Ok media_id)
          (referenced py_repr t <$> vocabulary) ids ↔
  Forall2 (λ e media_id, getitem e (media_id_fields t') = Ok media_id) vocabulary ids.
Proof.
  rewrite Forall2_fmap_l.
  split; intros H; (eapply Forall2_impl; [exact H|]); intros e media_id; simpl;
    by rewrite referenced_media_id.
Qed.

Lemma file_on_disk_ids py_repr t σ vocabulary ids :
  Forall2 (λ e media_id, getitem e (media_id_fields t) = Ok media_id) vocabulary ids →
  Forall (λ media_id, on_disk py_repr t media_id σ = true) ids →
  Forall (file_on_disk py_repr t σ) vocabulary.
Proof.
  induction 1 as [|e media_id vocabulary ids He _ IH]; [constructor|].
  intros [Hdisk Hrest]%Forall_cons. constructor; [by exists media_id|by apply IH].
Qed.

Lemma on_disk_weaken py_repr t media_id σ σ' :
  media_files σ ⊆ media_files σ' →
  on_disk py_repr t media_id σ = true → on_disk py_repr t media_id σ' = true.
Proof.
  intros Hsub. unfold on_disk. rewrite !bool_decide_eq_true.
  intros [content Hcontent]. exists content. by eapply lookup_weaken.
Qed.

(** The two rounds of [download_media] *)
Lemma download_media_rounds py_repr net completion vocabulary σ :
  (∀ A (l : list A), completion A l ≡ₚ l) →
  ∃ out,
    download_media py_repr net completion vocabulary σ = out ∧
    csv_file out.2 = csv_file σ ∧
    media_files σ ⊆ media_files out.2 ∧
    ((∃ vocabulary', out.1 = Ok vocabulary') ↔
     ∀ t, Forall (obtainable py_repr net t σ) vocabulary) ∧
    ∀ vocabulary', out.1 = Ok vocabulary' →
      vocabulary' =
        referenced py_repr Audio <$> (referenced py_repr Image <$> vocabulary) ∧
      (∀ t, Forall (file_on_disk py_repr t out.2) vocabulary) ∧
      requests out.2 =
        requests σ ++ (MediaRequest <$> missing_urls py_repr Image σ vocabulary ++
                                        missing_urls py_repr Audio σ vocabulary) ∧
      log out.2 =
        log σ ++ [ DownloadingMedia Image;
                   AlreadyExisted
                     (length (filter (file_on_disk py_repr Image σ) vocabulary))
                     (length vocabulary) Image;
                   DownloadingMedia Audio;
                   AlreadyExisted
                     (length (filter (file_on_disk py_repr Audio σ) vocabulary))
                     (length vocabulary) Audio ].
Proof.
  intros Hperm. eexists. split; [reflexivity|]. rewrite download_media_unfold.
  destruct (mapM (λ vocab_item, getitem vocab_item (media_id_fields Image)) vocabulary)
    as [ids1|e1] eqn:Hids1.
  2:{ rewrite download_media_of_unfold, Hids1. cbn [fst snd].
      split; [done|]. split; [done|]. split; [|by intros ? H; inversion H].
      split; [by intros [? H]; inversion H|]. intros Hall.
      destruct (obtainable_ids _ _ _ _ _ (Hall Image)) as [ids Hids].
      apply media_ids_of_entries in Hids. congruence. }
  apply media_ids_of_entries in Hids1.
  destruct (download_media_of_round py_repr net completion Image vocabulary ids1 σ
              Hperm Hids1)
    as (out1 & -> & Hcsv1 & Hreq1 & Hsub1 & Hother1 & Hout1).
  destruct out1 as [[vocabulary1|e1] σ1]; cbn [fst snd] in *.
  2:{ destruct Hout1 as (_ & Hno & _).
      split; [done|]. split; [done|]. split; [|by intros ? H; inversion H].
      split; [by intros [? H]; inversion H|]. intros Hall. by destruct Hno. }
  destruct Hout1 as (Hobt1 & -> & Hdisk1 & Hlog1).
  assert (∀ media_id, on_disk py_repr Audio media_id σ1 =
                      on_disk py_repr Audio media_id σ) as Haudio.
  { intros media_id. by eapply on_disk_other_type. }
  assert (∀ e, obtainable py_repr net Audio σ1 (referenced py_repr Image e) ↔
               obtainable py_repr net Audio σ e) as Hobt.
  { intros e. unfold obtainable. rewrite (referenced_media_id py_repr Image Audio).
    by setoid_rewrite Haudio. }
  assert (∀ e, file_on_disk py_repr Audio σ1 (referenced py_repr Image e) ↔
               file_on_disk py_repr Audio σ e) as Hfile.
  { intros e. unfold file_on_disk. rewrite (referenced_media_id py_repr Image Audio).
    by setoid_rewrite Haudio. }
  destruct (mapM (λ vocab_item, getitem vocab_item (media_id_fields Audio))
                 (referenced py_repr Image <$> vocabulary)) as [ids2|e2] eqn:Hids2.
  2:{ rewrite download_media_of_unfold, Hids2. cbn [fst snd].
      split; [done|]. split; [done|]. split; [|by intros ? H; inversion H].
      split; [by intros [? H]; inversion H|]. intros Hall.
      destruct (obtainable_ids _ _ _ _ _ (Hall Audio)) as [ids Hids].
      apply (ids_of_referenced py_repr Image Audio), media_ids_of_entries in Hids.
      congruence. }
  apply media_ids_of_entries in Hids2.
  destruct (download_media_of_round py_repr net completion Audio _ ids2 σ1 Hperm Hids2)
    as (out2 & -> & Hcsv2 & Hreq2 & Hsub2 & Hother2 & Hout2).
  apply ids_of_referenced in Hids2.
  split; [congruence|]. split; [by etrans|].
  destruct out2 as [[vocabulary2|e2] σ2]; cbn [fst snd] in *.
  2:{ destruct Hout2 as (_ & Hno & _). split; [|by intros ? H; inversion H].
      split; [by intros [? H]; inversion H|]. intros Hall. destruct Hno.
      rewrite Forall_fmap. eapply Forall_impl; [exact (Hall Audio)|].
      intros e. apply Hobt. }
  destruct Hout2 as (Hobt2 & -> & Hdisk2 & Hlog2). split.
  - split; [|by eauto]. intros _ [|]; [done|].
    rewrite Forall_fmap in Hobt2. eapply Forall_impl; [exact Hobt2|].
    intros e. apply Hobt.
  - intros ? [= <-]. split; [done|]. split; [|split].
    + intros [|].
      * eapply file_on_disk_ids; [exact Hids1|].
        eapply Forall_impl; [exact Hdisk1|]. intros media_id. by apply on_disk_weaken.
      * by eapply file_on_disk_ids.
    + rewrite Hreq2, Hreq1, <- app_assoc, fmap_app. do 2 f_equal.
      * f_equal. by apply missing_urls_ids.
      * f_equal. rewrite <- (missing_urls_ids py_repr Audio σ vocabulary ids2 Hids2).
        f_equal. apply list_filter_iff. intros media_id. by rewrite Haudio.
    + rewrite Hlog2, Hlog1, <- app_assoc, !length_fmap. simpl. do 5 f_equal.
      f_equal. apply length_filter_fmap. intros e. apply Hfile.
Qed.

Lemma append_assoc (s1 s2 s3 : string) : (s1 +:+ s2) +:+ s3 = s1 +:+ (s2 +:+ s3).
Proof.
  induction s1 as [|a s1 IH]; [done|].
  change (String a ((s1 +:+ s2) +:+ s3) = String a (s1 +:+ (s2 +:+ s3))).
  by rewrite IH.
Qed.

(** ** The filter and the writer, when they raise and when they return *)

Lemma not_in_existing_inv py_repr existing vocabulary new :
  not_in_existing py_repr existing vocabulary = Ok new →
  Forall has_identifier vocabulary.
Proof.
  revert new. induction vocabulary as [|e vocabulary IH]; intros new; [constructor|].
  simpl. destruct (getitem e "id") as [i|err] eqn:He; [|done]. simpl.
  destruct (not_in_existing py_repr existing vocabulary) as [rest|err]; [|done].
  intros _. constructor; [by exists i|by eapply IH].
Qed.

(** What the dedup filter returns, when it returns *)
Lemma select_new_vocabulary_Ok py_repr vocabulary σ new σ' :
  select_new_vocabulary py_repr vocabulary σ = (Ok new, σ') →
  Forall (λ row, row ≠ []) (default [] (csv_file σ)) ∧
  (is_Some (csv_file σ) → Forall has_identifier vocabulary) ∧
  new = filter (λ e, identifier py_repr e ∉ first_column (default [] (csv_file σ)))
               vocabulary ∧
  σ' = logged (Identified (length new) (length (default [] (csv_file σ))))
              (logged Filtering σ).
Proof.
  rewrite select_new_vocabulary_unfold.
  destruct (csv_file σ) as [rows|] eqn:Hcsv; simpl.
  - destruct (mapM first_field rows) as [existing_ids|err] eqn:Hexisting;
      [|intros H; inversion H].
    apply mapM_first_field_inv in Hexisting as [Hrows ->].
    destruct (not_in_existing py_repr _ vocabulary) as [new'|err] eqn:Hnew;
      [|intros H; inversion H].
    pose proof (not_in_existing_inv _ _ _ _ Hnew) as Hids.
    rewrite not_in_existing_filter in Hnew by done. injection Hnew as <-.
    intros [= <- <-]. split_and!; try done.
    f_equal. f_equal. unfold first_column. clear -Hrows.
    induction Hrows as [|row rows Hrow _ IH]; [done|].
    destruct row; [done|]. csimpl. by rewrite IH.
  - intros [= <- <-]. split; [constructor|]. split; [by intros [? ?]|].
    split; [|done]. clear. induction vocabulary as [|e l IH]; [done|].
    rewrite filter_cons_True by apply not_elem_of_nil. by rewrite <- IH.
Qed.

Lemma mapM_first_field_empty rows :
  [] ∈ rows → mapM first_field rows = Raise IndexError.
Proof.
  induction rows as [|row rows IH]; [by intros ?%elem_of_nil|].
  intros [<-|Hin]%elem_of_cons; [done|].
  destruct row as [|x row]; [done|]. simpl. by rewrite IH.
Qed.

Lemma not_in_existing_Raise py_repr existing before e after err :
  Forall has_identifier before → getitem e "id" = Raise err →
  not_in_existing py_repr existing (before ++ e :: after) = Raise err.
Proof.
  induction 1 as [|e' before [i Hi] _ IH]; intros He.
  - simpl. by rewrite He.
  - simpl. rewrite Hi. simpl. by rewrite IH.
Qed.


(** [s.replace(c, "")] keeps the characters other than [c], in their order. *)
Lemma remove_char_filter c s :
  String.list_ascii_of_string (remove_char c s) =
  filter (λ a, a ≠ c) (String.list_ascii_of_string s).
Proof.
  induction s as [|a s IH]; [done|]. simpl.
  destruct (Ascii.eqb_spec a c) as [->|Hne].
  - by rewrite filter_cons_False by (by intros []).
  - rewrite filter_cons_True by done. simpl. by rewrite IH.
Qed.

Lemma remove_char_absent c s :
  Forall (λ a, a ≠ c) (String.list_ascii_of_string s) → remove_char c s = s.
Proof.
  induction s as [|a s IH]; [done|]. simpl. intros [Ha Hs]%Forall_cons.
  destruct (Ascii.eqb_spec a c) as [->|Hne]; [done|]. by rewrite IH.
Qed.



Lemma has_l2_text_referenced py_repr t e :
  has_l2_text (referenced py_repr t e) ↔ has_l2_text e.
Proof.
  destruct e as [| | | | |d]; try done. unfold referenced.
  destruct (d !! media_id_fields t); [|done].
  unfold has_l2_text. split.
  - intros (d' & s & [= <-] & Hs). rewrite lookup_insert_ne in Hs by (by destruct t).
    by exists d, s.
  - intros (d' & s & [= <-] & Hs). eexists _, s. split; [done|].
    by rewrite lookup_insert_ne by (by destruct t).
Qed.

(** ** Runs that end well *)

(** What is on the disk depends on the media files only. *)
Lemma on_disk_files py_repr t media_id σ σ' :
  media_files σ' = media_files σ →
  on_disk py_repr t media_id σ' = on_disk py_repr t media_id σ.
Proof. intros H. unfold on_disk. by rewrite H. Qed.

Lemma obtainable_files py_repr net t σ σ' e :
  media_files σ' = media_files σ →
  obtainable py_repr net t σ' e ↔ obtainable py_repr net t σ e.
Proof.
  intros H. unfold obtainable.
  by setoid_rewrite (on_disk_files py_repr t _ σ σ' H).
Qed.

Lemma file_on_disk_files py_repr t σ σ' e :
  media_files σ' = media_files σ →
  file_on_disk py_repr t σ' e ↔ file_on_disk py_repr t σ e.
Proof.
  intros H. unfold file_on_disk.
  by setoid_rewrite (on_disk_files py_repr t _ σ σ' H).
Qed.

Lemma missing_urls_files py_repr t σ σ' vocabulary :
  media_files σ' = media_files σ →
  missing_urls py_repr t σ' vocabulary = missing_urls py_repr t σ vocabulary.
Proof.
  intros H. unfold missing_urls. apply list_omap_ext, Forall_Forall2_diag, Forall_forall.
  intros e _. destruct (getitem e (media_id_fields t)); [|done].
  by rewrite (on_disk_files py_repr t _ σ σ' H).
Qed.

(** The media rounds and the writer, when both go through *)
Lemma download_and_write py_repr net completion new σ σ1 :
  (∀ A (l : list A), completion A l ≡ₚ l) →
  match download_media py_repr net completion new σ with
  | (Ok new', σ3) => write_csv py_repr new' σ3
  | (Raise e, σ3) => (Raise e, σ3)
  end = (Ok tt, σ1) →
  (∀ t, Forall (obtainable py_repr net t σ) new) ∧
  Forall has_l2_text new ∧
  csv_file σ1 =
    Some (default [] (csv_file σ) ++
          (export_row py_repr <$>
             (referenced py_repr Audio <$> (referenced py_repr Image <$> new)))) ∧
  media_files σ ⊆ media_files σ1 ∧
  (∀ t, Forall (file_on_disk py_repr t σ1) new) ∧
  requests σ1 =
    requests σ ++ (MediaRequest <$> missing_urls py_repr Image σ new ++
                                    missing_urls py_repr Audio σ new) ∧
  log σ1 =
    log σ ++ [ DownloadingMedia Image;
               AlreadyExisted (length (filter (file_on_disk py_repr Image σ) new))
                              (length new) Image;
               DownloadingMedia Audio;
               AlreadyExisted (length (filter (file_on_disk py_repr Audio σ) new))
                              (length new) Audio;
               WritingCsv; Wrote (length new) ].
Proof.
  intros Hperm.
  destruct (download_media_rounds py_repr net completion new σ Hperm)
    as (out & -> & Hcsv & Hsub & Hiff & Hrounds).
  destruct out as [[new'|err] σc]; cbn [fst snd] in *; [|intros H; inversion H].
  destruct (Hrounds new' eq_refl) as (-> & Hdisk & Hreq & Hlog).
  intros Hrun. pose proof (write_csv_Ok _ _ _ _ Hrun) as Hl2.
  rewrite (write_csv_rows py_repr _ σc Hl2) in Hrun. injection Hrun as <-.
  rewrite !Forall_fmap in Hl2. simpl. split_and!.
  - apply Hiff. by eauto.
  - eapply Forall_impl; [exact Hl2|]. intros e. simpl.
    by rewrite !has_l2_text_referenced.
  - by rewrite Hcsv.
  - done.
  - done.
  - done.
  - rewrite Hlog, !length_fmap, <- app_assoc. done.
Qed.

(** A run that ends well: what it fetched, what it found new, and what it
    left behind *)
Lemma main_Ok_inv py_repr net completion σ σ1 :
  (∀ A (l : list A), completion A l ≡ₚ l) →
  main py_repr net completion σ = (Ok tt, σ1) →
  ∃ n rest vocabulary new,
    page_count net 1 = Ok n ∧ rest ≡ₚ seqZ 2 (n - 1) ∧
    vocabulary = page_items net 1 ++ concat (page_items net <$> rest) ∧
    new = filter (λ e, identifier py_repr e ∉ first_column (default [] (csv_file σ)))
                 vocabulary ∧
    Forall (λ row, row ≠ []) (default [] (csv_file σ)) ∧
    (is_Some (csv_file σ) → Forall has_identifier vocabulary) ∧
    media_files σ ⊆ media_files σ1 ∧
    match new with
    | [] =>
        csv_file σ1 = csv_file σ ∧ media_files σ1 = media_files σ ∧
        requests σ1 = requests σ ++ (SearchRequest <$> 1 :: seqZ 2 (n - 1)) ∧
        log σ1 = log σ ++ [ DownloadingList; Downloaded (length vocabulary) n;
                            Filtering;
                            Identified 0 (length (default [] (csv_file σ))) ]
    | _ :: _ =>
        (∀ t, Forall (obtainable py_repr net t σ) new) ∧
        Forall has_l2_text new ∧
        csv_file σ1 =
          Some (default [] (csv_file σ) ++
                (export_row py_repr <$>
                   (referenced py_repr Audio <$> (referenced py_repr Image <$> new)))) ∧
        (∀ t, Forall (file_on_disk py_repr t σ1) new) ∧
        requests σ1 =
          requests σ ++ (SearchRequest <$> 1 :: seqZ 2 (n - 1)) ++
          (MediaRequest <$> missing_urls py_repr Image σ new ++
                            missing_urls py_repr Audio σ new) ∧
        log σ1 =
          log σ ++ [ DownloadingList; Downloaded (length vocabulary) n;
                     Filtering;
                     Identified (length new) (length (default [] (csv_file σ)));
                     DownloadingMedia Image;
                     AlreadyExisted
                       (length (filter (file_on_disk py_repr Image σ) new))
                       (length new) Image;
                     DownloadingMedia Audio;
                     AlreadyExisted
                       (length (filter (file_on_disk py_repr Audio σ) new))
                       (length new) Audio;
                     WritingCsv; Wrote (length new) ]
    end.
Proof.
  intros Hperm. rewrite main_unfold.
  destruct (get_babbel_vocabulary_trace net completion σ Hperm) as (rest & _ & Htrace).
  destruct (get_babbel_vocabulary_spec net completion σ Hperm)
    as (resumed & out & Hout & Hcsv & Hmedia & _ & Hreq & _ & Hok).
  subst out. destruct (get_babbel_vocabulary net completion σ) as [[vocabulary|err] σa];
    cbn [fst snd] in *; [|intros H; inversion H].
  destruct Hok as (n & Hn & _ & _ & _ & Hlog). rewrite Hn in Htrace, Hreq.
  destruct Htrace as (Hrest & _ & Hvocabulary).
  destruct (select_new_vocabulary py_repr vocabulary σa) as [[new|err] σb] eqn:Hselect;
    [|intros H; inversion H].
  apply select_new_vocabulary_Ok in Hselect as (Hrows & Hids & Hnew & Hσb).
  rewrite Hcsv in Hrows, Hids, Hnew, Hσb.
  assert (media_files σb = media_files σ ∧ csv_file σb = csv_file σ ∧
          requests σb = requests σ ++ (SearchRequest <$> 1 :: seqZ 2 (n - 1)) ∧
          log σb = log σ ++ [ DownloadingList; Downloaded (length vocabulary) n;
                              Filtering;
                              Identified (length new)
                                         (length (default [] (csv_file σ))) ])
    as (Hmedia' & Hcsv' & Hreq' & Hlog').
  { subst σb. simpl. rewrite Hlog, <- !app_assoc. by split_and!. }
  clear Hσb. intros Hrun. exists n, rest, vocabulary, new.
  split; [done|]. split; [done|]. split; [done|]. split; [done|].
  split; [done|]. split; [done|].
  destruct new as [|e new'] eqn:Hnew'.
  { injection Hrun as <-. rewrite Hmedia'. by split_and!. }
  rewrite <- Hnew' in *.
  assert (match download_media py_repr net completion new σb with
          | (Ok new', σ3) => write_csv py_repr new' σ3
          | (Raise e, σ3) => (Raise e, σ3)
          end = (Ok tt, σ1)) as Hrun'.
  { rewrite <- Hrun. by rewrite Hnew'. }
  apply (download_and_write _ _ _ _ _ _ Hperm) in Hrun'
    as (Hobt & Hl2 & Hcsv1 & Hsub & Hdisk & Hreq1 & Hlog1).
  split; [by rewrite <- Hmedia'|]. rewrite Hnew'. rewrite <- Hnew'. split_and!.
  - intros t. eapply Forall_impl; [apply Hobt|].
    intros e'. by apply obtainable_files.
  - done.
  - by rewrite Hcsv1, Hcsv'.
  - done.
  - rewrite Hreq1, Hreq'.
    rewrite !(missing_urls_files py_repr _ σ σb) by done.
    by rewrite <- !app_assoc.
  - assert (∀ t, filter (file_on_disk py_repr t σb) new =
                 filter (file_on_disk py_repr t σ) new) as Hfilter.
    { intros t. apply list_filter_iff. intros e'. by apply file_on_disk_files. }
    rewrite Hlog1, Hlog', <- !app_assoc, !Hfilter. done.
Qed.

(** ** The shared page parameter *)

Lemma one_by_one_queries pre rest s :
  queries (foldl (pool_run_step (pre ++ rest)) s
             (concat ((λ call, [StorePage call; SendQuery call])
                        <$> seq (length pre) (length rest)))) =
  queries s ++ imap (λ i page, ((length pre + i)%nat, Some page)) rest.
Proof.
  revert pre s. induction rest as [|page rest IH]; intros pre s.
  - simpl. by rewrite app_nil_r.
  - simpl. rewrite list_lookup_middle by done. simpl.
    specialize (IH (pre ++ [page])). rewrite length_app, <- app_assoc in IH.
    simpl in IH. rewrite Nat.add_1_r in IH. rewrite IH. simpl.
    rewrite <- app_assoc. simpl. rewrite Nat.add_0_r. do 2 f_equal.
    apply imap_ext. intros i x _. simpl. f_equal. lia.
Qed.

Lemma stores_run pre rest s :
  foldl (pool_run_step (pre ++ rest)) s
        (StorePage <$> seq (length pre) (length rest)) =
  PoolState (match last rest with
             | Some page => Some page
             | None => search_params_page s
             end) (queries s).
Proof.
  revert pre s. induction rest as [|page rest IH]; intros pre s.
  - by destruct s.
  - simpl. rewrite list_lookup_middle by done.
    specialize (IH (pre ++ [page])). rewrite length_app, <- app_assoc in IH.
    simpl in IH. rewrite Nat.add_1_r in IH. rewrite IH. simpl.
    rewrite last_cons. by destruct (last rest).
Qed.

Lemma sends_queries pages calls s :
  foldl (pool_run_step pages) s (SendQuery <$> calls) =
  PoolState (search_params_page s)
            (queries s ++ ((λ call, (call, search_params_page s)) <$> calls)).
Proof.
  revert s. induction calls as [|call calls IH]; intros s.
  - simpl. rewrite app_nil_r. by destruct s.
  - simpl. rewrite IH. simpl. by rewrite <- app_assoc.
Qed.

Lemma queried_pages pages schedule s :
  (∀ call page, (call, page) ∈ queries s →
     page = None ∨ ∃ call', pages !! call' = page) →
  (search_params_page s = None ∨ ∃ call', pages !! call' = search_params_page s) →
  ∀ call page,
    (call, page) ∈ queries (foldl (pool_run_step pages) s schedule) →
    page = None ∨ ∃ call', pages !! call' = page.
Proof.
  revert s. induction schedule as [|step schedule IH]; intros s Hqueries Hpage; [done|].
  simpl. apply IH.
  - destruct step as [call|call]; simpl.
    + by destruct (pages !! call).
    + intros call' page [Hin|Hin]%elem_of_app; [by eapply Hqueries|].
      apply list_elem_of_singleton in Hin as [= -> ->]. done.
  - destruct step as [call|call]; simpl; [|done].
    destruct (pages !! call) as [page|] eqn:Hcall; [|done].
    right. by exists call.
Qed.

(** * The claims *)

Lemma in_order_permutation A (l : list A) : in_order A l ≡ₚ l.
Proof. reflexivity. Defined.

Lemma last_first_permutation A (l : list A) : last_first A l ≡ₚ l.
Proof. unfold last_first. symmetry. apply Permutation_rev. Defined.

(** C1.  The script departs from its specification here.  The
    specification asks that every response off the
    required shape, the one without a [review] member included, ends the page
    fetch with a ValidationError and no other error.  On the response [{}],
    which is off the required shape, the script passes the validation, since
    the schema does not require [review], and the page fetch ends with
    [KeyError "review"]. *)
Theorem response_without_review_raises_KeyError (status page_number : Z) (σ : state) :
  let net := Remote (λ _, Reply status (Some (JObj ∅))) (λ _, NoReply) in
  ¬ required_shape (JObj ∅) ∧
  jsonschema_validate (JObj ∅) schema = Ok tt ∧
  (await (get_babbel_vocabulary_page net page_number) σ).1 = Raise (KeyError "review").
Proof.
  intros net. split; [|split; [done|]].
  - intros (d & r & ? & ? & ? & ? & [= <-] & Hreview & _).
    by rewrite lookup_empty in Hreview.
  - by rewrite await_page.
Qed.






(** C4, as the specification states it, does not hold.  Both responses pass the
    validation.  With a page limit of zero the division raises and no count
    is computed; with counts above 2 ^ 53 the quotient is rounded before the
    ceiling is taken, and the count is 1 where the ceiling is 2. *)
Lemma page_count_counterexample :
  schema (sample_response [] 95 0 1) = true ∧
  (await (get_babbel_vocabulary_page (announcing 95 0) 1) blank).1 =
    Raise ZeroDivisionError ∧
  schema (sample_response [] (2 ^ 53 + 1) (2 ^ 53) 1) = true ∧
  (await (get_babbel_vocabulary_page (announcing (2 ^ 53 + 1) (2 ^ 53)) 1) blank).1 =
    Ok 1 ∧
  ceiling (2 ^ 53 + 1) (2 ^ 53) = 2.
Proof. split_and!; reflexivity. Qed.

(** C4, amended to what the script does.  For every response of the
    required shape
    whose page limit is not zero and whose two counts are below 2 ^ 53 in
    magnitude, the page fetch returns the ceiling of the exact quotient of
    the total by the limit, the least integer that is not below the
    quotient.  When that response is the one of page 1, the collector hands
    to the pool the request for page 1 and then one request for each of the
    pages from 2 to the count: as many more as the count exceeds 1, and none
    when it does not. *)
Theorem page_count_and_requests net completion σ page_number status d r items
    total limit page :
  (∀ A (l : list A), completion A l ≡ₚ l) →
  search net page_number = Reply status (Some (JObj d)) →
  d !! "review" = Some (JObj r) →
  r !! "trainer_items" = Some (JArr items) →
  r !! "total_filtered_items" = Some (JNum total) →
  r !! "per_page_limit" = Some (JNum limit) →
  r !! "page" = Some (JNum page) →
  limit ≠ 0 → Z.abs total < 2 ^ 53 → Z.abs limit < 2 ^ 53 →
  let num_pages := ceiling total limit in
  (num_pages - 1) * Z.abs limit < total * Z.sgn limit ≤ num_pages * Z.abs limit ∧
  (await (get_babbel_vocabulary_page net page_number) σ).1 = Ok num_pages ∧
  length (seqZ 2 (num_pages - 1)) = Z.to_nat (num_pages - 1) ∧
  (page_number = 1 →
   requests (get_babbel_vocabulary net completion σ).2 =
     requests σ ++ [SearchRequest 1] ++ (SearchRequest <$> seqZ 2 (num_pages - 1))).
Proof.
  intros Hperm Hreply Hreview Hitems Htotal Hlimit Hpage Hnz Ht Hl num_pages.
  destruct (page_count_shape _ _ _ _ _ _ _ _ _ Hreply Hreview Hitems Htotal Hlimit Hpage)
    as [_ Hcount].
  destruct (int_truediv_ceil total limit Hnz Ht Hl) as (q & Hq & Hceil).
  rewrite Hq in Hcount. simpl in Hcount. rewrite Hceil in Hcount.
  split; [by apply ceiling_signed_bounds|]. split; [by rewrite await_page|].
  split; [apply length_seqZ|]. intros ->.
  destruct (get_babbel_vocabulary_spec net completion σ Hperm)
    as (resumed & out & -> & _ & _ & _ & Hreq & _).
  by rewrite Hcount in Hreq.
Qed.

Lemma page_count_and_requests_witness :
  (await (get_babbel_vocabulary_page (announcing 95 30) 1) blank).1 = Ok 4 ∧
  requests (get_babbel_vocabulary (announcing 95 30) last_first blank).2 =
    [SearchRequest 1; SearchRequest 2; SearchRequest 3; SearchRequest 4].
Proof.
  destruct (page_count_and_requests (announcing 95 30) last_first blank 1 200
              {[ "review" := JObj (sample_review [] 95 30 1) ]}
              (sample_review [] 95 30 1) [] 95 30 1)
    as (_ & Hcount & _ & Hrequests);
    [apply last_first_permutation|reflexivity..|lia|reflexivity|reflexivity|].
  split; [exact Hcount|exact (Hrequests eq_refl)].
Defined.

(** C6, as the specification states it, does not hold.  The number 5 and
    the text "5" are
    two media identifiers with one file name. *)
Lemma number_and_text_collide :
  (Image, JNum 5) ≠ (Image, JStr "5") ∧
  media_filename no_repr Image (JNum 5) = media_filename no_repr Image (JStr "5").
Proof. split; [discriminate|reflexivity]. Qed.

(** C6, amended to what the script does.  The file name of a media item
    is a function
    of its type and of the text of its identifier: two items have the same
    file name exactly when they have the same type and identifiers of the
    same text, and two paths are the same exactly when the file names are.
    When the file of an item is on the disk, the fetch returns
    the file name with the flag set and changes nothing, the record of the
    network included.  So after a fetch that went through, a second fetch of
    the same item finds the file and leaves the network alone. *)
Theorem media_file_names py_repr net :
  (∀ t1 id1 t2 id2,
     media_filename py_repr t1 id1 = media_filename py_repr t2 id2 ↔
     t1 = t2 ∧ py_str py_repr id1 = py_str py_repr id2) ∧
  (∀ t1 id1 t2 id2,
     media_path py_repr t1 id1 = media_path py_repr t2 id2 ↔
     media_filename py_repr t1 id1 = media_filename py_repr t2 id2) ∧
  (∀ t media_id σ,
     on_disk py_repr t media_id σ = true →
     await (download_media_item py_repr net media_id t) σ =
       (Ok (media_filename py_repr t media_id, true), σ)) ∧
  (∀ t media_id σ r σ',
     await (download_media_item py_repr net media_id t) σ = (Ok r, σ') →
     await (download_media_item py_repr net media_id t) σ' = (Ok (r.1, true), σ')).
Proof.
  assert (∀ t media_id σ,
            on_disk py_repr t media_id σ = true →
            await (download_media_item py_repr net media_id t) σ =
              (Ok (media_filename py_repr t media_id, true), σ)) as Hthere.
  { intros t media_id σ Hdisk. by rewrite await_download_media_item, Hdisk. }
  split; [apply media_filename_eq|].
  split; [intros; by rewrite media_path_eq, media_filename_eq|]. split; [done|].
  intros t media_id σ r σ'. rewrite await_download_media_item.
  unfold item_resumed. destruct (on_disk py_repr t media_id σ) eqn:Hdisk.
  - intros [= <- <-]. by apply Hthere.
  - destruct (media net _) as [|status body]; [intros H; inversion H|].
    intros [= <- <-]. apply Hthere.
    unfold on_disk. simpl. apply bool_decide_eq_true. by rewrite lookup_insert_eq.
Qed.

Lemma media_file_names_witness :
  await (download_media_item no_repr not_found (JStr "a") Image) used_machine =
    (Ok ("rus_a.jpg", true), used_machine) ∧
  await (download_media_item no_repr two_pages (JStr "a") Image)
        (await (download_media_item no_repr two_pages (JStr "a") Image) blank).2 =
    (Ok ("rus_a.jpg", true),
     (await (download_media_item no_repr two_pages (JStr "a") Image) blank).2).
Proof.
  split.
  - exact (proj1 (proj2 (proj2 (media_file_names no_repr not_found)))
             Image (JStr "a") used_machine eq_refl).
  - exact (proj2 (proj2 (proj2 (media_file_names no_repr two_pages)))
             Image (JStr "a") blank ("rus_a.jpg", false) _ eq_refl).
Defined.








(** C9, as the specification states it, does not hold.  The specification
    says that an
    expected column that an entry lacks is written as empty.  The entry here
    lacks [l2_text]: the writer raises [KeyError] and the export file is not
    even created. *)
Lemma missing_l2_text_raises :
  write_csv no_repr [JObj {[ "id" := JNum 1 ]}] blank =
    (Raise (KeyError "l2_text"), blank).
Proof. reflexivity. Qed.

(** C9, amended to what the script does.  For entries whose [l2_text] is
    a text, the
    writer appends one record for each entry, in order, to the export file,
    which it creates when there is none.  The record has the nine columns in
    the fixed order, the parentheses gone from [l2_text]; a field of the
    entry outside these columns changes nothing in the record; and a column
    that the entry lacks is empty in the record. *)
Theorem export_rows py_repr vocabulary σ :
  Forall has_l2_text vocabulary →
  write_csv py_repr vocabulary σ =
    (Ok tt, State (Some (default [] (csv_file σ) ++ (export_row py_repr <$> vocabulary)))
                  (media_files σ) (requests σ) (completed σ)
                  (log σ ++ [WritingCsv; Wrote (length vocabulary)])
                  (vocabulary_cell σ)) ∧
  (∀ e, export_row py_repr e =
          [ column py_repr e "id"; column py_repr e "type";
            column py_repr e "image_id"; column py_repr e "image_path";
            column py_repr e "sound_id"; column py_repr e "audio_path";
            column py_repr e "l1_text";
            remove_char "(" (remove_char ")" (column py_repr e "l2_text"));
            column py_repr e "info_text" ]) ∧
  (∀ d key v, key ∉ csv_fieldnames →
     export_row py_repr (JObj (<[key := v]> d)) = export_row py_repr (JObj d)) ∧
  (∀ d key, d !! key = None → column py_repr (JObj d) key = "").
Proof.
  intros Hl2. split; [by apply write_csv_rows|]. split; [done|]. split.
  - intros d key v Hkey. unfold export_row, column.
    rewrite !lookup_insert_ne; [done|..]; intros ->; apply Hkey;
      unfold csv_fieldnames; set_solver.
  - intros d key Hkey. unfold column. by rewrite Hkey.
Qed.

Lemma export_rows_witness :
  csv_file (write_csv no_repr [sample_entry 2 "c" "d" "(y)"] used_machine).2 =
    Some [ ["1"; ""; "a"; ""; "b"; ""; ""; "x"; ""];
           ["2"; ""; "c"; ""; "d"; ""; ""; "y"; ""] ].
Proof.
  rewrite (proj1 (export_rows no_repr [sample_entry 2 "c" "d" "(y)"] used_machine
                    ltac:(repeat constructor; by eexists _, _))).
  reflexivity.
Defined.

(** C10.  When the collection goes through and the dedup filter returns the
    empty list, the run ends there: the export file and the media files are
    those it started with, every request it made is a search request, and
    its log has neither the line of a download nor the line of the writer,
    which was never opened. *)
Theorem nothing_new_nothing_done py_repr net completion σ vocabulary σ1 σ2 :
  (∀ A (l : list A), completion A l ≡ₚ l) →
  get_babbel_vocabulary net completion σ = (Ok vocabulary, σ1) →
  select_new_vocabulary py_repr vocabulary σ1 = (Ok [], σ2) →
  main py_repr net completion σ = (Ok tt, σ2) ∧
  csv_file σ2 = csv_file σ ∧ media_files σ2 = media_files σ ∧
  (∃ pages, requests σ2 = requests σ ++ (SearchRequest <$> pages)) ∧
  (∃ n k, log σ2 = log σ ++ [ DownloadingList; Downloaded (length vocabulary) n;
                              Filtering; Identified 0 k ]).
Proof. apply main_without_new. Qed.

Lemma nothing_new_nothing_done_witness :
  main no_repr one_entry in_order used_machine =
    (Ok tt, (select_new_vocabulary no_repr [sample_entry 1 "a" "b" "(x)"]
               (get_babbel_vocabulary one_entry in_order used_machine).2).2) ∧
  csv_file (select_new_vocabulary no_repr [sample_entry 1 "a" "b" "(x)"]
              (get_babbel_vocabulary one_entry in_order used_machine).2).2 =
    csv_file used_machine.
Proof.
  destruct (nothing_new_nothing_done no_repr one_entry in_order used_machine
              [sample_entry 1 "a" "b" "(x)"]
              (get_babbel_vocabulary one_entry in_order used_machine).2
              (select_new_vocabulary no_repr [sample_entry 1 "a" "b" "(x)"]
                 (get_babbel_vocabulary one_entry in_order used_machine).2).2
              in_order_permutation)
    as (Hmain & Hcsv & _).
  - vm_compute. reflexivity.
  - vm_compute. reflexivity.
  - split; [exact Hmain|exact Hcsv].
Defined.

(** * Further properties *)

(** X1.  The validation accepts a response exactly when it has the required
    shape or is an object without a [review] member, and raises a
    ValidationError for every other response.  A member of the response other
    than [review] changes nothing to the verdict. *)
Theorem validation_accepts_exactly (response : json) :
  (jsonschema_validate response schema = Ok tt ↔
   required_shape response ∨ ∃ d, response = JObj d ∧ d !! "review" = None) ∧
  (jsonschema_validate response schema = Raise ValidationError ↔
   ¬ required_shape response ∧ ∀ d, response = JObj d → is_Some (d !! "review")) ∧
  (∀ d key v, key ≠ "review" →
     jsonschema_validate (JObj (<[key := v]> d)) schema =
     jsonschema_validate (JObj d) schema).
Proof.
  pose proof (schema_accepts response) as Haccepts.
  unfold jsonschema_validate. split; [|split].
  - destruct (schema response); [tauto|]. split; [done|]. intros H.
    by apply Haccepts in H.
  - destruct (schema response).
    + split; [intros H; inversion H|]. intros [Hshape Hreview].
      destruct (proj1 Haccepts eq_refl) as [?|(d & -> & Hnone)]; [done|].
      destruct (Hreview d eq_refl) as [x Hx]. congruence.
    + split; [|done]. intros _. split.
      * intros Hshape. discriminate (proj2 Haccepts (or_introl Hshape)).
      * intros d ->. destruct (d !! "review") as [x|] eqn:Hd; [by exists x|].
        discriminate (proj2 Haccepts (or_intror (ex_intro _ d (conj eq_refl Hd)))).
  - intros d key v Hkey. unfold schema, all_of, properties. simpl.
    by rewrite lookup_insert_ne.
Qed.

(** X2.  A page fetch hands one request to the pool, waits for it, and
    leaves the files and the log as they were.  When the call gets no reply
    the fetch raises RequestException; when the body of the reply is not
    JSON it raises ValueError; when the response is off the required shape
    it raises ValidationError, or [KeyError "review"] for an object without
    a [review] member.  In each of these cases the shared list of entries is
    as it was, and the status of the reply plays no part. *)
Theorem page_fetch_failures net page_number σ :
  let out := await (get_babbel_vocabulary_page net page_number) σ in
  (csv_file out.2 = csv_file σ ∧ media_files out.2 = media_files σ ∧
   log out.2 = log σ ∧
   requests out.2 = requests σ ++ [SearchRequest page_number] ∧
   completed out.2 = completed σ ++ [SearchRequest page_number]) ∧
  match search net page_number with
  | NoReply =>
      out.1 = Raise RequestException ∧ vocabulary_cell out.2 = vocabulary_cell σ
  | Reply _ None =>
      out.1 = Raise ValueError ∧ vocabulary_cell out.2 = vocabulary_cell σ
  | Reply _ (Some response) =>
      ¬ required_shape response →
      out.1 = Raise (match response with
                     | JObj d => match d !! "review" with
                                 | Some _ => ValidationError
                                 | None => KeyError "review"
                                 end
                     | _ => ValidationError
                     end) ∧
      vocabulary_cell out.2 = vocabulary_cell σ
  end.
Proof.
  intros out. unfold out. rewrite await_page. split; [done|]. simpl.
  destruct (search net page_number) as [|status [response|]] eqn:Hreply.
  - unfold page_count, page_items, page_review. rewrite Hreply. simpl.
    by rewrite app_nil_r.
  - intros Hshape. split; [by eapply page_count_off_shape|].
    assert (page_items net page_number = []) as ->; [|by rewrite app_nil_r].
    unfold page_items, page_review. rewrite Hreply.
    unfold jsonschema_validate. destruct (schema response) eqn:Hvalid; [|done].
    apply schema_accepts in Hvalid as [?|(d & -> & Hnone)]; [done|].
    simpl. by rewrite Hnone.
  - unfold page_count, page_items, page_review. rewrite Hreply. simpl.
    by rewrite app_nil_r.
Qed.

(** X3.  For a response of the required shape the page fetch appends the
    items to the shared list before it computes the count, so the items are
    in the list also when the division raises.  The fetch raises
    ZeroDivisionError exactly when the page limit is zero, and no exception
    other than that one and OverflowError.  When page 1 has a page limit of
    zero, the collection ends with ZeroDivisionError after its single
    request. *)
Theorem items_precede_page_count net completion page_number σ status d r items
    total limit page :
  search net page_number = Reply status (Some (JObj d)) →
  d !! "review" = Some (JObj r) →
  r !! "trainer_items" = Some (JArr items) →
  r !! "total_filtered_items" = Some (JNum total) →
  r !! "per_page_limit" = Some (JNum limit) →
  r !! "page" = Some (JNum page) →
  let out := await (get_babbel_vocabulary_page net page_number) σ in
  vocabulary_cell out.2 = vocabulary_cell σ ++ items ∧
  (out.1 = Raise ZeroDivisionError ↔ limit = 0) ∧
  (∀ e, out.1 = Raise e → e = ZeroDivisionError ∨ e = OverflowError) ∧
  (page_number = 1 → limit = 0 →
   (get_babbel_vocabulary net completion σ).1 = Raise ZeroDivisionError ∧
   requests (get_babbel_vocabulary net completion σ).2 =
     requests σ ++ [SearchRequest 1]).
Proof.
  intros Hreply Hreview Hitems Htotal Hlimit Hpage out.
  destruct (page_count_shape _ _ _ _ _ _ _ _ _ Hreply Hreview Hitems Htotal Hlimit Hpage)
    as [Hpage_items Hcount].
  assert (page_count net page_number = Raise ZeroDivisionError ↔ limit = 0) as Hzero.
  { rewrite Hcount. unfold int_truediv. destruct (Z.eqb_spec limit 0) as [->|Hnz].
    - done.
    - destruct (nearest_binary64 _ _) as [m e]. split; [|done].
      by destruct (_ && _). }
  unfold out. rewrite await_page. simpl. rewrite Hpage_items.
  split; [done|]. split; [done|]. split.
  - intros e. rewrite Hcount. unfold int_truediv. destruct (limit =? 0).
    + intros [= <-]. by left.
    + destruct (nearest_binary64 _ _) as [m x]. destruct (_ && _).
      * intros [= <-]. by right.
      * intros H. inversion H.
  - intros -> Hl. apply Hzero in Hl. rewrite get_babbel_vocabulary_unfold.
    by rewrite Hl.
Qed.

Lemma items_precede_page_count_witness :
  vocabulary_cell (await (get_babbel_vocabulary_page two_pages 1) blank).2 =
    [ sample_entry 1 "a" "b" "(x)"; sample_entry 2 "c" "d" "y" ] ∧
  (get_babbel_vocabulary (announcing 95 0) in_order blank).1 = Raise ZeroDivisionError.
Proof.
  split.
  - destruct (items_precede_page_count two_pages in_order 1 blank 200
                {[ "review" := JObj (sample_review
                                       [ sample_entry 1 "a" "b" "(x)";
                                         sample_entry 2 "c" "d" "y" ] 3 2 1) ]}
                (sample_review [ sample_entry 1 "a" "b" "(x)";
                                 sample_entry 2 "c" "d" "y" ] 3 2 1)
                [ sample_entry 1 "a" "b" "(x)"; sample_entry 2 "c" "d" "y" ] 3 2 1)
      as (Hcell & _); [reflexivity..|]. exact Hcell.
  - destruct (items_precede_page_count (announcing 95 0) in_order 1 blank 200
                {[ "review" := JObj (sample_review [] 95 0 1) ]}
                (sample_review [] 95 0 1) [] 95 0 1)
      as (_ & _ & _ & Hrun); [reflexivity..|]. exact (proj1 (Hrun eq_refl eq_refl)).
Defined.

(** X4.  When the collection goes through, the list it returns is the items
    of page 1 followed by the items of the other pages, page by page in the
    order in which the replies came; that order is an arrangement of the
    pages from 2 to the count, so the list has the entries of the pages from
    1 to the count, each as often, in some order.  The log line has the
    length of the list and the count, and the files are as they were. *)
Theorem collected_in_completion_order net completion σ vocabulary σ' :
  (∀ A (l : list A), completion A l ≡ₚ l) →
  get_babbel_vocabulary net completion σ = (Ok vocabulary, σ') →
  ∃ n rest,
    (await (get_babbel_vocabulary_page net 1) σ).1 = Ok n ∧
    rest ≡ₚ seqZ 2 (n - 1) ∧
    completed σ' = completed σ ++ (SearchRequest <$> 1 :: rest) ∧
    vocabulary = page_items net 1 ++ concat (page_items net <$> rest) ∧
    vocabulary ≡ₚ concat (page_items net <$> 1 :: seqZ 2 (n - 1)) ∧
    log σ' = log σ ++ [DownloadingList; Downloaded (length vocabulary) n] ∧
    csv_file σ' = csv_file σ ∧ media_files σ' = media_files σ.
Proof.
  intros Hperm Hrun.
  destruct (get_babbel_vocabulary_trace net completion σ Hperm) as (rest & Hdone & Hout).
  destruct (get_babbel_vocabulary_spec net completion σ Hperm)
    as (resumed & out & Hspec & Hcsv & Hmedia & _ & _ & _ & Hok).
  rewrite Hrun in *. subst out. cbn [fst snd] in *.
  destruct Hok as (n & Hn & _ & _ & _ & Hlog). rewrite Hn in Hout.
  destruct Hout as (Hrest & _ & Hvocabulary).
  exists n, rest. rewrite await_page. split_and!; try done.
  rewrite Hvocabulary. simpl. by rewrite (concat_fmap_Permutation _ _ _ Hrest).
Qed.

Lemma collected_in_completion_order_witness :
  ∃ n rest,
    rest ≡ₚ seqZ 2 (n - 1) ∧
    completed (get_babbel_vocabulary three_pages last_first blank).2 =
      SearchRequest <$> 1 :: rest.
Proof.
  destruct (collected_in_completion_order three_pages last_first blank
              (page_items three_pages 1 ++ page_items three_pages 3 ++
               page_items three_pages 2)
              (get_babbel_vocabulary three_pages last_first blank).2
              last_first_permutation)
    as (n & rest & _ & Hrest & Hdone & _).
  - vm_compute. reflexivity.
  - exists n, rest. split; [exact Hrest|exact Hdone].
Defined.

(** X5.  Whatever the order of completion, the collector asks for page 1
    and, when page 1 gives a count, for each page from 2 to the count, also
    when one of them fails.  It returns a list exactly when every page it
    asks for goes through, and when it raises, the exception is the one of a
    page it asked for. *)
Theorem collection_succeeds_iff net completion σ :
  (∀ A (l : list A), completion A l ≡ₚ l) →
  let fetch p := (await (get_babbel_vocabulary_page net p) σ).1 in
  let pages := 1 :: match fetch 1 with
                    | Ok n => seqZ 2 (n - 1)
                    | Raise _ => []
                    end in
  let out := get_babbel_vocabulary net completion σ in
  requests out.2 = requests σ ++ (SearchRequest <$> pages) ∧
  ((∃ vocabulary, out.1 = Ok vocabulary) ↔ ∀ p, p ∈ pages → ∃ n, fetch p = Ok n) ∧
  (∀ e, out.1 = Raise e → ∃ p, p ∈ pages ∧ fetch p = Raise e).
Proof.
  intros Hperm fetch pages out.
  assert (∀ p, fetch p = page_count net p) as Hfetch.
  { intros p. unfold fetch. by rewrite await_page. }
  unfold pages. rewrite Hfetch. setoid_rewrite Hfetch. clear Hfetch pages fetch.
  destruct (get_babbel_vocabulary_trace net completion σ Hperm) as (rest & _ & Hout).
  destruct (get_babbel_vocabulary_spec net completion σ Hperm)
    as (resumed & out' & Hspec & _ & _ & _ & Hreq & _).
  subst out'. fold out in Hout, Hreq. split; [done|].
  destruct (page_count net 1) as [n|e1] eqn:Hn.
  - destruct out.1 as [vocabulary|e].
    + destruct Hout as (Hrest & Hok & _). split; [|done]. split; [|by eauto].
      intros _ p Hp. apply elem_of_cons in Hp as [->|Hp]; [by exists n|].
      rewrite <- Hrest in Hp. rewrite Forall_forall in Hok. by apply Hok.
    + destruct Hout as (before & p & after & Hpages & _ & _ & Hp).
      assert (p ∈ 1 :: seqZ 2 (n - 1)) as Hin.
      { right. rewrite <- Hpages. apply elem_of_app. right. by left. }
      split.
      * split; [by intros [? ?]|]. intros Hall.
        destruct (Hall p Hin) as [m Hm]. congruence.
      * intros e' [= <-]. by exists p.
  - destruct Hout as [_ ->]. split.
    + split; [by intros [? ?]|]. intros Hall.
      destruct (Hall 1) as [m Hm]; [by left|congruence].
    + intros e [= <-]. exists 1. split; [by left|done].
Qed.

Lemma collection_succeeds_iff_witness :
  requests (get_babbel_vocabulary broken_second_page last_first blank).2 =
    [SearchRequest 1; SearchRequest 2].
Proof.
  exact (proj1 (collection_succeeds_iff broken_second_page last_first blank
                  last_first_permutation)).
Defined.



(** X7.  A run that ends well appends to the export file one row for each
    fetched entry whose identifier is not in the first column of the file,
    in the order in which the entries were fetched, the row being that of
    the entry with its two references; the rows that were there stay in
    front, and the file is created only when there is a row to write.  The
    requests of the run are the search requests for the pages, then the
    requests for the images of the new entries that were not on the disk,
    then those for their sounds. *)
Theorem successful_run_appends_new_rows py_repr net completion σ σ1 :
  (∀ A (l : list A), completion A l ≡ₚ l) →
  main py_repr net completion σ = (Ok tt, σ1) →
  ∃ n rest,
    (await (get_babbel_vocabulary_page net 1) σ).1 = Ok n ∧
    rest ≡ₚ seqZ 2 (n - 1) ∧
    let vocabulary := page_items net 1 ++ concat (page_items net <$> rest) in
    let new := filter (λ e, identifier py_repr e
                              ∉ first_column (default [] (csv_file σ))) vocabulary in
    default [] (csv_file σ1) =
      default [] (csv_file σ) ++
      (export_row py_repr <$>
         (referenced py_repr Audio <$> (referenced py_repr Image <$> new))) ∧
    (csv_file σ1 = None ↔ csv_file σ = None ∧ new = []) ∧
    requests σ1 =
      requests σ ++ (SearchRequest <$> 1 :: seqZ 2 (n - 1)) ++
      (MediaRequest <$> missing_urls py_repr Image σ new ++
                        missing_urls py_repr Audio σ new).
Proof.
  intros Hperm Hrun.
  destruct (main_Ok_inv py_repr net completion σ σ1 Hperm Hrun)
    as (n & rest & vocabulary & new & Hn & Hrest & -> & Hnew & _ & _ & _ & Hout).
  exists n, rest. rewrite await_page. split; [done|]. split; [done|].
  cbn zeta. rewrite <- Hnew. destruct new as [|e new'].
  - destruct Hout as (Hcsv & _ & Hreq & _). rewrite Hcsv, Hreq. simpl.
    rewrite !app_nil_r. split; [done|]. split; [|done]. tauto.
  - destruct Hout as (_ & _ & Hcsv & _ & Hreq & _). rewrite Hcsv, Hreq.
    split; [done|]. split; [|done]. split; [done|]. by intros [_ ?].
Qed.

Lemma successful_run_appends_new_rows_witness :
  ∃ n rest,
    rest ≡ₚ seqZ 2 (n - 1) ∧
    default [] (csv_file (main no_repr two_pages last_first used_machine).2) =
      default [] (csv_file used_machine) ++
      (export_row no_repr <$>
         (referenced no_repr Audio <$>
            (referenced no_repr Image <$>
               filter (λ e, identifier no_repr e
                              ∉ first_column (default [] (csv_file used_machine)))
                      (page_items two_pages 1 ++
                       concat (page_items two_pages <$> rest))))).
Proof.
  destruct (successful_run_appends_new_rows no_repr two_pages last_first used_machine
              (main no_repr two_pages last_first used_machine).2
              last_first_permutation)
    as (n & rest & _ & Hrest & Hrows & _).
  - vm_compute. reflexivity.
  - exists n, rest. split; [exact Hrest|exact Hrows].
Defined.

(** X8.  The log of a run that ends well has the line of the collection
    with the number of entries fetched and the number of pages, then the line
    of the filter with the number of new entries and the number of records
    that the export file had; when there are new entries, the lines of the
    two rounds follow, each with the number of new entries whose file of
    that type was on the disk when the run began, and the lines of the
    writer with the number of rows, which is the number of new entries.  The
    export file is longer by that number. *)
Theorem successful_run_log py_repr net completion σ σ1 :
  (∀ A (l : list A), completion A l ≡ₚ l) →
  main py_repr net completion σ = (Ok tt, σ1) →
  ∃ n rest,
    (await (get_babbel_vocabulary_page net 1) σ).1 = Ok n ∧
    rest ≡ₚ seqZ 2 (n - 1) ∧
    let vocabulary := page_items net 1 ++ concat (page_items net <$> rest) in
    let new := filter (λ e, identifier py_repr e
                              ∉ first_column (default [] (csv_file σ))) vocabulary in
    log σ1 =
      log σ ++
      [ DownloadingList; Downloaded (length vocabulary) n; Filtering;
        Identified (length new) (length (default [] (csv_file σ))) ] ++
      match new with
      | [] => []
      | _ :: _ =>
          [ DownloadingMedia Image;
            AlreadyExisted (length (filter (file_on_disk py_repr Image σ) new))
                           (length new) Image;
            DownloadingMedia Audio;
            AlreadyExisted (length (filter (file_on_disk py_repr Audio σ) new))
                           (length new) Audio;
            WritingCsv; Wrote (length new) ]
      end ∧
    length (default [] (csv_file σ1)) =
      (length (default [] (csv_file σ)) + length new)%nat.
Proof.
  intros Hperm Hrun.
  destruct (main_Ok_inv py_repr net completion σ σ1 Hperm Hrun)
    as (n & rest & vocabulary & new & Hn & Hrest & -> & Hnew & _ & _ & _ & Hout).
  exists n, rest. rewrite await_page. split; [done|]. split; [done|].
  cbn zeta. rewrite <- Hnew. destruct new as [|e new'].
  - destruct Hout as (Hcsv & _ & _ & Hlog). rewrite Hcsv, Hlog. simpl.
    by rewrite Nat.add_0_r.
  - destruct Hout as (_ & _ & Hcsv & _ & _ & Hlog). rewrite Hcsv, Hlog.
    split; [|cbn [from_option id]; by rewrite length_app, !length_fmap].
    done.
Qed.

Lemma successful_run_log_witness :
  ∃ n rest,
    rest ≡ₚ seqZ 2 (n - 1) ∧
    length (default [] (csv_file (main no_repr two_pages in_order used_machine).2)) =
      (length (default [] (csv_file used_machine)) +
       length (filter (λ e, identifier no_repr e
                              ∉ first_column (default [] (csv_file used_machine)))
                      (page_items two_pages 1 ++
                       concat (page_items two_pages <$> rest))))%nat.
Proof.
  destruct (successful_run_log no_repr two_pages in_order used_machine
              (main no_repr two_pages in_order used_machine).2
              in_order_permutation)
    as (n & rest & _ & Hrest & _ & Hlength).
  - vm_compute. reflexivity.
  - exists n, rest. split; [exact Hrest|exact Hlength].
Defined.

(** X9.  Two runs from the same machine against the same service, under two
    orders of completion, that both end well add the same rows to the export
    file, up to the order of the rows; one creates the file exactly when the
    other does. *)
Theorem rows_do_not_depend_on_order py_repr net completion completion' σ σ1 σ2 :
  (∀ A (l : list A), completion A l ≡ₚ l) →
  (∀ A (l : list A), completion' A l ≡ₚ l) →
  main py_repr net completion σ = (Ok tt, σ1) →
  main py_repr net completion' σ = (Ok tt, σ2) →
  ∃ added1 added2,
    default [] (csv_file σ1) = default [] (csv_file σ) ++ added1 ∧
    default [] (csv_file σ2) = default [] (csv_file σ) ++ added2 ∧
    added1 ≡ₚ added2 ∧
    (csv_file σ1 = None ↔ csv_file σ2 = None).
Proof.
  intros Hperm Hperm' Hrun1 Hrun2.
  destruct (main_Ok_inv py_repr net completion σ σ1 Hperm Hrun1)
    as (n & rest & vocabulary & new & Hn & Hrest & -> & Hnew & _ & _ & _ & Hout).
  destruct (main_Ok_inv py_repr net completion' σ σ2 Hperm' Hrun2)
    as (n' & rest' & vocabulary' & new' & Hn' & Hrest' & -> & Hnew' & _ & _ & _ & Hout').
  assert (n' = n) as -> by congruence.
  assert (new ≡ₚ new') as Hnews.
  { rewrite Hnew, Hnew'. apply filter_Permutation. f_equiv.
    apply concat_fmap_Permutation. by rewrite Hrest, Hrest'. }
  exists (export_row py_repr <$>
            (referenced py_repr Audio <$> (referenced py_repr Image <$> new))),
         (export_row py_repr <$>
            (referenced py_repr Audio <$> (referenced py_repr Image <$> new'))).
  assert (default [] (csv_file σ1) =
          default [] (csv_file σ) ++
          (export_row py_repr <$>
             (referenced py_repr Audio <$> (referenced py_repr Image <$> new))) ∧
          (csv_file σ1 = None ↔ csv_file σ = None ∧ new = [])) as [Hrows1 Hnone1].
  { clear Hnew. destruct new as [|e l].
    - destruct Hout as (-> & _). simpl. rewrite app_nil_r. split; [done|tauto].
    - destruct Hout as (_ & _ & -> & _). split; [done|]. split; [done|by intros [_ ?]]. }
  assert (default [] (csv_file σ2) =
          default [] (csv_file σ) ++
          (export_row py_repr <$>
             (referenced py_repr Audio <$> (referenced py_repr Image <$> new'))) ∧
          (csv_file σ2 = None ↔ csv_file σ = None ∧ new' = [])) as [Hrows2 Hnone2].
  { clear Hnew'. destruct new' as [|e l].
    - destruct Hout' as (-> & _). simpl. rewrite app_nil_r. split; [done|tauto].
    - destruct Hout' as (_ & _ & -> & _). split; [done|]. split; [done|by intros [_ ?]]. }
  split; [done|]. split; [done|]. split; [by rewrite Hnews|].
  rewrite Hnone1, Hnone2.
  assert (new = [] ↔ new' = []) as Hnil; [|tauto].
  split; intros ->; [by apply Permutation_nil_l in Hnews|
                     by apply Permutation_nil_r in Hnews].
Qed.

Lemma rows_do_not_depend_on_order_witness :
  ∃ added1 added2,
    default [] (csv_file (main no_repr three_pages in_order blank).2) = added1 ∧
    default [] (csv_file (main no_repr three_pages last_first blank).2) = added2 ∧
    added1 ≡ₚ added2.
Proof.
  destruct (rows_do_not_depend_on_order no_repr three_pages in_order last_first blank
              (main no_repr three_pages in_order blank).2
              (main no_repr three_pages last_first blank).2
              in_order_permutation last_first_permutation)
    as (added1 & added2 & Hfirst & Hsecond & Hperm & _).
  - vm_compute. reflexivity.
  - vm_compute. reflexivity.
  - exists added1, added2. split; [exact Hfirst|]. split; [exact Hsecond|exact Hperm].
Defined.

(** X10.  However a run ends, every media file that was on the disk when it
    began is on the disk when it ends, with the bytes it had. *)
Theorem existing_files_are_kept py_repr net completion σ :
  (∀ A (l : list A), completion A l ≡ₚ l) →
  media_files σ ⊆ media_files (main py_repr net completion σ).2.
Proof.
  intros Hperm. rewrite main_unfold.
  destruct (get_babbel_vocabulary_spec net completion σ Hperm)
    as (resumed & out & -> & _ & Hmedia & _).
  destruct out as [[vocabulary|err] σa]; cbn [fst snd] in *; [|by rewrite Hmedia].
  pose proof (select_new_vocabulary_frame py_repr vocabulary σa) as (_ & Hmedia' & _).
  destruct (select_new_vocabulary py_repr vocabulary σa) as [[new|err] σb];
    cbn [fst snd] in *; [|by rewrite Hmedia', Hmedia].
  destruct new as [|e new]; [simpl; by rewrite Hmedia', Hmedia|].
  destruct (download_media_rounds py_repr net completion (e :: new) σb Hperm)
    as (out & -> & _ & Hsub & _).
  rewrite Hmedia', Hmedia in Hsub.
  destruct out as [[new'|err] σc]; cbn [fst snd] in *; [|done].
  destruct (write_csv py_repr new' σc) as [[[]|err] σd] eqn:Hwrite.
  - pose proof (write_csv_Ok _ _ _ _ Hwrite) as Hl2.
    rewrite (write_csv_rows py_repr new' σc Hl2) in Hwrite. by injection Hwrite as <-.
  - by apply write_csv_raises in Hwrite as ->.
Qed.

Lemma existing_files_are_kept_witness :
  media_files used_machine
    ⊆ media_files (main no_repr two_pages last_first used_machine).2.
Proof.
  exact (existing_files_are_kept no_repr two_pages last_first used_machine
           last_first_permutation).
Defined.

(** X11.  When the two rounds of [download_media] go through, every entry
    has an image identifier and a sound identifier whose files are then on
    the disk, the entries that come back are the entries given with the
    references of both types, and the export file is as it was. *)
Theorem downloaded_files_are_on_disk py_repr net completion vocabulary σ vocabulary' σ' :
  (∀ A (l : list A), completion A l ≡ₚ l) →
  download_media py_repr net completion vocabulary σ = (Ok vocabulary', σ') →
  vocabulary' = referenced py_repr Audio <$> (referenced py_repr Image <$> vocabulary) ∧
  (∀ e, e ∈ vocabulary →
     ∃ image_id sound_id,
       getitem e "image_id" = Ok image_id ∧ getitem e "sound_id" = Ok sound_id ∧
       is_Some (media_files σ' !! media_path py_repr Image image_id) ∧
       is_Some (media_files σ' !! media_path py_repr Audio sound_id)) ∧
  csv_file σ' = csv_file σ.
Proof.
  intros Hperm Hrun.
  destruct (download_media_rounds py_repr net completion vocabulary σ Hperm)
    as (out & Hout & Hcsv & _ & _ & Hrounds).
  rewrite Hrun in Hout. subst out. cbn [fst snd] in *.
  destruct (Hrounds vocabulary' eq_refl) as (-> & Hdisk & _).
  split; [done|]. split; [|done]. intros e He.
  pose proof (Hdisk Image) as Himage. pose proof (Hdisk Audio) as Haudio.
  rewrite Forall_forall in Himage, Haudio.
  destruct (Himage e He) as (image_id & Hi & Hidisk).
  destruct (Haudio e He) as (sound_id & Hs & Hsdisk).
  exists image_id, sound_id. unfold on_disk in *.
  by rewrite !bool_decide_eq_true in *.
Qed.

Lemma downloaded_files_are_on_disk_witness :
  csv_file (download_media no_repr two_pages last_first
              [sample_entry 2 "c" "d" "y"] used_machine).2 = csv_file used_machine.
Proof.
  destruct (downloaded_files_are_on_disk no_repr two_pages last_first
              [sample_entry 2 "c" "d" "y"] used_machine
              (referenced no_repr Audio <$>
                 (referenced no_repr Image <$> [sample_entry 2 "c" "d" "y"]))
              (download_media no_repr two_pages last_first
                 [sample_entry 2 "c" "d" "y"] used_machine).2
              last_first_permutation)
    as (_ & _ & Hcsv).
  - vm_compute. reflexivity.
  - exact Hcsv.
Defined.

(** X12.  When [download_media] goes through, as many entries come back as
    were given, and the entry at each position is the entry given at that
    position with [image_path] set to the image tag that names the file of
    its own [image_id], [audio_path] set to the sound tag that names the file
    of its own [sound_id], and every other field as it was. *)
Theorem references_written py_repr net completion vocabulary σ vocabulary' σ' :
  (∀ A (l : list A), completion A l ≡ₚ l) →
  download_media py_repr net completion vocabulary σ = (Ok vocabulary', σ') →
  length vocabulary' = length vocabulary ∧
  ∀ i e, vocabulary !! i = Some e →
    ∃ image_id sound_id e',
      getitem e "image_id" = Ok image_id ∧ getitem e "sound_id" = Ok sound_id ∧
      vocabulary' !! i = Some e' ∧
      getitem e' "image_path" =
        Ok (JStr ("<img src=" +:+ dquote +:+ "rus_" +:+ py_str py_repr image_id +:+
                  ".jpg" +:+ dquote +:+ ">")) ∧
      getitem e' "audio_path" =
        Ok (JStr ("[sound:rus_" +:+ py_str py_repr sound_id +:+ ".mp3]")) ∧
      ∀ key, key ≠ "image_path" → key ≠ "audio_path" →
             getitem e' key = getitem e key.
Proof.
  intros Hperm Hrun.
  destruct (download_media_rounds py_repr net completion vocabulary σ Hperm)
    as (out & Hout & _ & _ & _ & Hrounds).
  rewrite Hrun in Hout. subst out. cbn [fst snd] in *.
  destruct (Hrounds vocabulary' eq_refl) as (-> & Hdisk & _).
  split; [by rewrite !length_fmap|]. intros i e Hi.
  assert (e ∈ vocabulary) as He by (by eapply list_elem_of_lookup_2).
  pose proof (Hdisk Image) as Himage. pose proof (Hdisk Audio) as Haudio.
  rewrite Forall_forall in Himage, Haudio.
  destruct (Himage e He) as (image_id & Hid & _).
  destruct (Haudio e He) as (sound_id & Hsd & _).
  destruct e as [| | | | |d]; try done. simpl in Hid, Hsd.
  destruct (d !! "image_id") as [x|] eqn:Hd1; [|done]. injection Hid as ->.
  destruct (d !! "sound_id") as [x|] eqn:Hd2; [|done]. injection Hsd as ->.
  set (image := JStr (format py_repr (media_entries Image)
                        (JStr (media_filename py_repr Image image_id)))).
  set (sound := JStr (format py_repr (media_entries Audio)
                        (JStr (media_filename py_repr Audio sound_id)))).
  assert (referenced py_repr Audio (referenced py_repr Image (JObj d)) =
          JObj (<["audio_path" := sound]> (<["image_path" := image]> d))) as Href.
  { unfold referenced at 2. simpl (media_id_fields Image). rewrite Hd1.
    unfold referenced. simpl (media_id_fields Audio).
    rewrite lookup_insert_ne by done. by rewrite Hd2. }
  exists image_id, sound_id,
         (JObj (<["audio_path" := sound]> (<["image_path" := image]> d))).
  simpl. rewrite Hd1, Hd2. split; [done|]. split; [done|].
  split; [rewrite !list_lookup_fmap, Hi; exact (f_equal Some Href)|].
  rewrite lookup_insert_ne by done. rewrite !lookup_insert_eq.
  split; [|split].
  - do 2 f_equal. unfold format, media_filename, format, media_entries, media_filenames.
    cbn [fst snd py_str]. by rewrite !append_assoc.
  - do 2 f_equal. unfold format, media_filename, format, media_entries, media_filenames.
    cbn [fst snd py_str]. by rewrite !append_assoc.
  - intros key Hk1 Hk2. by rewrite !lookup_insert_ne.
Qed.

Lemma references_written_witness :
  length (referenced no_repr Audio <$>
            (referenced no_repr Image <$> [sample_entry 2 "c" "d" "y"])) =
  length [sample_entry 2 "c" "d" "y"].
Proof.
  destruct (references_written no_repr two_pages last_first
              [sample_entry 2 "c" "d" "y"] used_machine
              (referenced no_repr Audio <$>
                 (referenced no_repr Image <$> [sample_entry 2 "c" "d" "y"]))
              (download_media no_repr two_pages last_first
                 [sample_entry 2 "c" "d" "y"] used_machine).2
              last_first_permutation)
    as (Hlength & _).
  - vm_compute. reflexivity.
  - exact Hlength.
Defined.



(** X14.  For entries that have the media identifier of the round, and
    however the round ends, the requests of a round are those for the files
    that are not on the disk when the round begins, one for each entry that
    names such a file, in the order of the entries: a file that is on the
    disk is never asked for, and a file that two entries name is asked for
    twice.  The number of requests and the number of entries whose file was
    on the disk add up to the number of entries. *)
Theorem round_requests_missing_files py_repr net completion t vocabulary σ :
  (∀ A (l : list A), completion A l ≡ₚ l) →
  Forall (λ e, ∃ media_id, getitem e (media_id_fields t) = Ok media_id) vocabulary →
  requests (download_media_of py_repr net completion t vocabulary σ).2 =
    requests σ ++ (MediaRequest <$> missing_urls py_repr t σ vocabulary) ∧
  (∀ url, url ∈ missing_urls py_repr t σ vocabulary ↔
     ∃ e media_id, e ∈ vocabulary ∧ getitem e (media_id_fields t) = Ok media_id ∧
                   media_files σ !! media_path py_repr t media_id = None ∧
                   url = media_url py_repr t media_id) ∧
  (length (missing_urls py_repr t σ vocabulary) +
   length (filter (file_on_disk py_repr t σ) vocabulary))%nat = length vocabulary.
Proof.
  intros Hperm Hall.
  assert (∃ ids, Forall2 (λ e media_id, getitem e (media_id_fields t) = Ok media_id)
                         vocabulary ids) as [ids Hids].
  { clear -Hall. induction Hall as [|e vocabulary [media_id He] _ [ids Hids]].
    - by exists [].
    - exists (media_id :: ids). by constructor. }
  destruct (download_media_of_round py_repr net completion t vocabulary ids σ Hperm Hids)
    as (out & -> & _ & Hreq & _).
  split; [by rewrite Hreq, (missing_urls_ids _ _ _ _ _ Hids)|].
  split; [|by apply missing_urls_length].
  intros url. rewrite elem_of_missing_urls. unfold on_disk.
  setoid_rewrite bool_decide_eq_false. by setoid_rewrite eq_None_not_Some.
Qed.

Lemma round_requests_missing_files_witness :
  requests (download_media_of no_repr two_pages last_first Image
              [sample_entry 1 "a" "b" "(x)"; sample_entry 2 "c" "d" "y"]
              used_machine).2 =
    requests used_machine ++
    (MediaRequest <$>
       missing_urls no_repr Image used_machine
         [sample_entry 1 "a" "b" "(x)"; sample_entry 2 "c" "d" "y"]).
Proof.
  destruct (round_requests_missing_files no_repr two_pages last_first Image
              [sample_entry 1 "a" "b" "(x)"; sample_entry 2 "c" "d" "y"] used_machine
              last_first_permutation)
    as (Hreq & _).
  - constructor; [by eexists|]. constructor; [by eexists|constructor].
  - exact Hreq.
Defined.

(** X15.  When an entry lacks the media identifier of a round, the round
    ends before any request is made, with [KeyError] on the name of the field
    when the entry is a dictionary and TypeError when it is not, and the log
    has only the line that opens the round.  When the field that is missing
    is [sound_id] and the images can all be had, [download_media] ends with
    that exception after the round of the images: the export file is as it
    was, the images are on the disk, and the only requests were those for
    the images that were missing. *)
Theorem missing_media_id_aborts py_repr net completion t before e after err σ :
  (∀ A (l : list A), completion A l ≡ₚ l) →
  Forall (λ e, ∃ media_id, getitem e (media_id_fields t) = Ok media_id) before →
  getitem e (media_id_fields t) = Raise err →
  let vocabulary := before ++ e :: after in
  download_media_of py_repr net completion t vocabulary σ =
    (Raise err, logged (DownloadingMedia t) σ) ∧
  match e with
  | JObj _ => err = KeyError (media_id_fields t)
  | _ => err = TypeError
  end ∧
  (t = Audio → Forall (obtainable py_repr net Image σ) vocabulary →
   ∃ σ', download_media py_repr net completion vocabulary σ = (Raise err, σ') ∧
         csv_file σ' = csv_file σ ∧
         Forall (file_on_disk py_repr Image σ') vocabulary ∧
         requests σ' =
           requests σ ++ (MediaRequest <$> missing_urls py_repr Image σ vocabulary)).
Proof.
  intros Hperm Hbefore He vocabulary.
  assert (∀ entries : list json,
            Forall (λ e, ∃ media_id, getitem e (media_id_fields t) = Ok media_id)
                   entries →
            ∀ e' rest, getitem e' (media_id_fields t) = Raise err →
            mapM (λ vocab_item, getitem vocab_item (media_id_fields t))
                 (entries ++ e' :: rest) = Raise err) as HmapM.
  { clear. induction 1 as [|e0 entries [media_id He0] _ IH]; intros e' rest He'.
    - simpl. by rewrite He'.
    - simpl. rewrite He0. simpl. by rewrite IH. }
  split; [|split].
  - rewrite download_media_of_unfold. unfold vocabulary. by rewrite HmapM.
  - destruct e as [| | | | |d]; try by injection He as <-.
    simpl in He. destruct (d !! media_id_fields t); [done|]. by injection He as <-.
  - intros -> Hobt. rewrite download_media_unfold.
    destruct (obtainable_ids _ _ _ _ _ Hobt) as [ids Hids].
    destruct (download_media_of_round py_repr net completion Image vocabulary ids σ
                Hperm Hids)
      as (out & -> & Hcsv & Hreq & _ & _ & Hout).
    destruct out as [[vocabulary1|e1] σ1]; cbn [fst snd] in *;
      [|by destruct Hout as (_ & Hno & _)].
    destruct Hout as (_ & -> & Hdisk & _).
    rewrite download_media_of_unfold. unfold vocabulary at 1.
    rewrite fmap_app, fmap_cons, HmapM.
    + eexists. split; [reflexivity|]. simpl. split; [done|]. split.
      * eapply Forall_impl; [by eapply file_on_disk_ids|].
        intros e'. by apply file_on_disk_files.
      * by rewrite Hreq, (missing_urls_ids _ _ _ _ _ Hids).
    + rewrite Forall_fmap. eapply Forall_impl; [exact Hbefore|].
      intros e' [media_id He']. exists media_id. simpl.
      by rewrite (referenced_media_id py_repr Image Audio).
    + by rewrite (referenced_media_id py_repr Image Audio).
Qed.

Lemma missing_media_id_aborts_witness :
  download_media_of no_repr two_pages in_order Audio
    ([sample_entry 1 "a" "b" "(x)"] ++ JObj {[ "image_id" := JStr "c" ]} :: [])
    blank =
  (Raise (KeyError "sound_id"), logged (DownloadingMedia Audio) blank).
Proof.
  destruct (missing_media_id_aborts no_repr two_pages in_order Audio
              [sample_entry 1 "a" "b" "(x)"] (JObj {[ "image_id" := JStr "c" ]}) []
              (KeyError "sound_id") blank in_order_permutation)
    as (Hround & _).
  - constructor; [by eexists|constructor].
  - reflexivity.
  - exact Hround.
Defined.


(** X17.  Cleaning an entry whose [l2_text] is a text changes that field
    only: the new text is the old one without its opening and closing
    parentheses, the other characters staying in their order.  Cleaning the
    cleaned entry changes nothing. *)
Theorem clean_l2_text_removes_parentheses (d : gmap string json) (s : string) :
  d !! "l2_text" = Some (JStr s) →
  ∃ s',
    clean_l2_text (JObj d) = Ok (JObj (<["l2_text" := JStr s']> d)) ∧
    String.list_ascii_of_string s' =
      filter (λ a, a ≠ "("%char ∧ a ≠ ")"%char) (String.list_ascii_of_string s) ∧
    clean_l2_text (JObj (<["l2_text" := JStr s']> d)) =
      Ok (JObj (<["l2_text" := JStr s']> d)).
Proof.
  intros Hs. exists (remove_char "(" (remove_char ")" s)).
  assert (String.list_ascii_of_string (remove_char "(" (remove_char ")" s)) =
          filter (λ a, a ≠ "("%char ∧ a ≠ ")"%char) (String.list_ascii_of_string s))
    as Hchars.
  { rewrite !remove_char_filter, list_filter_filter.
    apply list_filter_iff. tauto. }
  assert (∀ d' s', d' !! "l2_text" = Some (JStr s') →
            clean_l2_text (JObj d') =
              Ok (JObj (<["l2_text" := JStr (remove_char "(" (remove_char ")" s'))]> d')))
    as Hclean.
  { intros d' s' Hs'. unfold clean_l2_text, strip_l2_text, getitem. rewrite Hs'. simpl.
    rewrite lookup_insert_eq. simpl. by rewrite insert_insert_eq. }
  split; [by apply Hclean|]. split; [done|].
  rewrite (Hclean _ _ (lookup_insert_eq _ _ _)), insert_insert_eq.
  do 3 f_equal.
  assert (Forall (λ a, a ≠ "("%char ∧ a ≠ ")"%char)
                 (String.list_ascii_of_string (remove_char "(" (remove_char ")" s))))
    as Hnone.
  { rewrite Hchars. apply Forall_forall. by intros a [? _]%list_elem_of_filter. }
  rewrite (remove_char_absent ")").
  - f_equal. apply remove_char_absent.
    eapply Forall_impl; [exact Hnone|]. by intros a [? _].
  - eapply Forall_impl; [exact Hnone|]. by intros a [_ ?].
Qed.

Lemma clean_l2_text_removes_parentheses_witness :
  ∃ s', clean_l2_text (JObj {[ "l2_text" := JStr "(x)" ]}) =
          Ok (JObj (<["l2_text" := JStr s']> {[ "l2_text" := JStr "(x)" ]})) ∧
        String.list_ascii_of_string s' =
          filter (λ a, a ≠ "("%char ∧ a ≠ ")"%char)
                 (String.list_ascii_of_string "(x)").
Proof.
  destruct (clean_l2_text_removes_parentheses {[ "l2_text" := JStr "(x)" ]} "(x)")
    as (s' & Hclean & Hchars & _).
  - reflexivity.
  - exists s'. split; [exact Hclean|exact Hchars].
Defined.

(** X18.  When there is an export file: if one of its records is empty the
    filter raises IndexError, whatever the entries are; if none is, the
    filter raises the exception of the first entry whose identifier cannot
    be read; in both cases the log has the first line of the filter and
    nothing else changed.  The filter returns a list exactly when no record
    is empty and every entry has an identifier. *)
Theorem dedup_filter_failures py_repr vocabulary rows σ :
  csv_file σ = Some rows →
  let out := select_new_vocabulary py_repr vocabulary σ in
  ([] ∈ rows → out = (Raise IndexError, logged Filtering σ)) ∧
  ([] ∉ rows →
   ∀ before e after err,
     vocabulary = before ++ e :: after →
     Forall has_identifier before → getitem e "id" = Raise err →
     out = (Raise err, logged Filtering σ)) ∧
  ((∃ new, out.1 = Ok new) ↔ ([] ∉ rows) ∧ Forall has_identifier vocabulary).
Proof.
  intros Hcsv out. unfold out. rewrite select_new_vocabulary_unfold, Hcsv.
  assert ([] ∉ rows ↔ Forall (λ row, row ≠ []) rows) as Hrows.
  { rewrite Forall_forall. split; [by intros Hno row Hrow ->|].
    intros Hall Hin. by apply (Hall [] Hin). }
  split; [|split].
  - intros Hin. by rewrite mapM_first_field_empty.
  - intros Hno before e after err -> Hbefore He.
    rewrite mapM_first_field by (by apply Hrows).
    by rewrite (not_in_existing_Raise _ _ _ _ _ _ Hbefore He).
  - destruct (mapM first_field rows) as [existing_ids|err] eqn:Hexisting.
    + apply mapM_first_field_inv in Hexisting as [Hnonempty ->].
      destruct (not_in_existing py_repr _ vocabulary) as [new|err] eqn:Hnew.
      * split; [|by eauto]. intros _. split; [by apply Hrows|].
        by eapply not_in_existing_inv.
      * split; [by intros [? ?]|]. intros [_ Hids].
        rewrite not_in_existing_filter in Hnew by done. done.
    + split; [by intros [? ?]|]. intros [Hno _].
      rewrite mapM_first_field in Hexisting by (by apply Hrows). done.
Qed.

Lemma dedup_filter_failures_witness :
  select_new_vocabulary no_repr [sample_entry 1 "a" "b" "(x)"]
    (State (Some [ ["1"]; [] ]) ∅ [] [] [] []) =
  (Raise IndexError, logged Filtering (State (Some [ ["1"]; [] ]) ∅ [] [] [] [])).
Proof.
  destruct (dedup_filter_failures no_repr [sample_entry 1 "a" "b" "(x)"]
              [ ["1"]; [] ] (State (Some [ ["1"]; [] ]) ∅ [] [] [] []) eq_refl)
    as (Hempty & _).
  apply Hempty. right. left.
Defined.



(** X20.  An entry whose identifier is [None] is written with an empty first
    field, while the filter looks for the text "None": after the writer has
    written the entry the filter selects it again, unless a record of the
    file begins with that text. *)
Theorem null_identifier_is_selected_again py_repr e σ :
  has_l2_text e → getitem e "id" = Ok JNull →
  Forall (λ row, row ≠ []) (default [] (csv_file σ)) →
  "None" ∉ first_column (default [] (csv_file σ)) →
  (select_new_vocabulary py_repr [e] (write_csv py_repr [e] σ).2).1 = Ok [e].
Proof.
  intros Hl2 Hid Hrows Hnone.
  rewrite write_csv_rows by (by constructor). rewrite select_new_vocabulary_unfold.
  cbn [snd csv_file]. rewrite mapM_first_field.
  2:{ apply Forall_app. split; [done|]. by repeat constructor. }
  rewrite not_in_existing_filter by (constructor; [by exists JNull|constructor]).
  simpl. f_equal. rewrite filter_cons_True; [done|].
  unfold identifier. rewrite Hid. simpl.
  rewrite first_column_app, not_elem_of_app. split; [done|].
  destruct e as [| | | | |d]; try done. simpl in Hid.
  destruct (d !! "id") as [x|] eqn:Hd; [|done]. injection Hid as ->.
  unfold first_column, export_row, column. csimpl. rewrite Hd. simpl.
  by intros [=]%list_elem_of_singleton.
Qed.

Lemma null_identifier_is_selected_again_witness :
  (select_new_vocabulary no_repr
     [JObj {[ "id" := JNull; "l2_text" := JStr "x" ]}]
     (write_csv no_repr [JObj {[ "id" := JNull; "l2_text" := JStr "x" ]}]
                used_machine).2).1 =
  Ok [JObj {[ "id" := JNull; "l2_text" := JStr "x" ]}].
Proof.
  apply (null_identifier_is_selected_again no_repr
           (JObj {[ "id" := JNull; "l2_text" := JStr "x" ]}) used_machine).
  - by eexists _, _.
  - reflexivity.
  - by repeat constructor.
  - vm_compute. by intros [=]%list_elem_of_singleton.
Defined.

(** X21.  The page parameter that the calls of [handle_request] share.  When
    each call runs its two steps before the next call starts, each call
    queries its own page.  When every call has stored its page before any
    call sends, every query carries the page of the last call, and no other
    page is queried.  Under any schedule, the page of a query is a page that
    some call stored, or [None] when nothing was stored yet. *)
Theorem shared_page_parameter (pages : list Z) :
  queries (pool_run pages (one_by_one (length pages))) =
    imap (λ call page, (call, Some page)) pages ∧
  queries (pool_run pages (stores_first (length pages))) =
    (λ call, (call, last pages)) <$> seq 0 (length pages) ∧
  (∀ schedule call page,
     (call, page) ∈ queries (pool_run pages schedule) →
     page = None ∨ ∃ call', pages !! call' = page).
Proof.
  split; [|split].
  - apply (one_by_one_queries [] pages (PoolState None [])).
  - unfold pool_run, stores_first. rewrite foldl_app.
    pose proof (stores_run [] pages (PoolState None [])) as Hstores.
    simpl in Hstores. rewrite Hstores, sends_queries. simpl.
    by destruct (last pages).
  - intros schedule. apply queried_pages; [|by left].
    intros call page Hin. by apply elem_of_nil in Hin.
Qed.

(** X22.  Nothing to collect.  When the first page announces no item at all,
    and a limit other than zero, [get_babbel_vocabulary] sends the one
    request for page 1, counts zero pages and returns the items of that page.
    When that page has no item either and no record of the export file is
    empty, the run ends well after that one request: it downloads nothing,
    leaves the export file as it was (it does not create it), and logs the
    two messages of the collection and the two of the filter. *)
Theorem nothing_to_collect py_repr net completion σ status d r items limit page :
  search net 1 = Reply status (Some (JObj d)) →
  d !! "review" = Some (JObj r) →
  r !! "trainer_items" = Some (JArr items) →
  r !! "total_filtered_items" = Some (JNum 0) →
  r !! "per_page_limit" = Some (JNum limit) →
  r !! "page" = Some (JNum page) →
  limit ≠ 0 →
  get_babbel_vocabulary net completion σ =
    (Ok items,
     State (csv_file σ) (media_files σ) (requests σ ++ [SearchRequest 1])
           (completed σ ++ [SearchRequest 1])
           (log σ ++ [DownloadingList; Downloaded (length items) 0]) items) ∧
  (items = [] → Forall (λ row, row ≠ []) (default [] (csv_file σ)) →
   ∃ σ1, main py_repr net completion σ = (Ok tt, σ1) ∧
         csv_file σ1 = csv_file σ ∧ media_files σ1 = media_files σ ∧
         requests σ1 = requests σ ++ [SearchRequest 1] ∧
         log σ1 = log σ ++ [ DownloadingList; Downloaded 0 0; Filtering;
                             Identified 0 (length (default [] (csv_file σ))) ]).
Proof.
  intros Hreply Hreview Hitems Htotal Hlimit Hpage Hnz.
  destruct (page_count_shape _ _ _ _ _ _ _ _ _ Hreply Hreview Hitems Htotal Hlimit Hpage)
    as [Hpage_items Hcount].
  assert (page_count net 1 = Ok 0) as Hzero.
  { rewrite Hcount. unfold int_truediv. destruct (Z.eqb_spec limit 0); done. }
  assert (get_babbel_vocabulary net completion σ =
          (Ok items,
           State (csv_file σ) (media_files σ) (requests σ ++ [SearchRequest 1])
                 (completed σ ++ [SearchRequest 1])
                 (log σ ++ [DownloadingList; Downloaded (length items) 0]) items))
    as Hcollect.
  { rewrite get_babbel_vocabulary_unfold, Hzero. simpl. rewrite Hpage_items.
    by rewrite <- app_assoc. }
  split; [done|]. intros -> Hrows. rewrite main_unfold, Hcollect.
  rewrite select_new_vocabulary_unfold. cbn [csv_file].
  destruct (csv_file σ) as [rows|] eqn:Hcsv.
  - simpl in Hrows.
    assert (length (first_column rows) = length rows) as Hlength.
    { clear -Hrows. unfold first_column.
      induction Hrows as [|row rows Hrow _ IH]; [done|].
      destruct row; [done|]. csimpl. by rewrite IH. }
    rewrite (mapM_first_field rows Hrows). simpl.
    eexists. split; [reflexivity|]. simpl.
    split_and!; try done. by rewrite Hlength, <- !app_assoc.
  - simpl. eexists. split; [reflexivity|]. simpl.
    split_and!; try done. by rewrite <- !app_assoc.
Qed.

Lemma nothing_to_collect_witness :
  ∃ σ1, main no_repr (announcing 0 30) in_order used_machine = (Ok tt, σ1) ∧
        csv_file σ1 = csv_file used_machine.
Proof.
  destruct (nothing_to_collect no_repr (announcing 0 30) in_order used_machine 200
              {[ "review" := JObj (sample_review [] 0 30 1) ]}
              (sample_review [] 0 30 1) [] 30 1)
    as (_ & Hrun); [reflexivity..|lia|].
  destruct (Hrun eq_refl) as (σ1 & Hmain & Hcsv & _); [by repeat constructor|].
  exists σ1. split; [exact Hmain|exact Hcsv].
Defined.

(** X23.  The filter judges each entry by the export file alone.  When every
    entry has an identifier and no record of the file is empty, the entries
    selected from two lists put end to end are those selected from the first
    followed by those selected from the second.  So an entry that was
    collected twice and is not in the file is selected twice. *)
Theorem filter_judges_each_entry_alone py_repr vocabulary1 vocabulary2 σ :
  Forall has_identifier (vocabulary1 ++ vocabulary2) →
  Forall (λ row, row ≠ []) (default [] (csv_file σ)) →
  ∃ new1 new2,
    (select_new_vocabulary py_repr vocabulary1 σ).1 = Ok new1 ∧
    (select_new_vocabulary py_repr vocabulary2 σ).1 = Ok new2 ∧
    (select_new_vocabulary py_repr (vocabulary1 ++ vocabulary2) σ).1 =
      Ok (new1 ++ new2) ∧
    (vocabulary2 = vocabulary1 →
     ∀ e, e ∈ new1 → e ∈ new1 ++ new2 ∧
          (∃ k1 k2, k1 ≠ k2 ∧ (new1 ++ new2) !! k1 = Some e ∧
                    (new1 ++ new2) !! k2 = Some e)).
Proof.
  intros Hids Hrows.
  assert (∀ entries, Forall has_identifier entries →
            (select_new_vocabulary py_repr entries σ).1 =
              Ok (filter (λ e, identifier py_repr e
                                 ∉ first_column (default [] (csv_file σ))) entries))
    as Hselect.
  { intros entries Hentries. rewrite select_new_vocabulary_unfold.
    destruct (csv_file σ) as [rows|].
    - simpl in Hrows. rewrite mapM_first_field by done.
      by rewrite not_in_existing_filter.
    - simpl. f_equal. clear. induction entries as [|e l IH]; [done|].
      rewrite filter_cons_True by apply not_elem_of_nil. by rewrite <- IH. }
  apply Forall_app in Hids as [Hids1 Hids2].
  eexists _, _. split; [by apply Hselect|]. split; [by apply Hselect|].
  split; [rewrite Hselect by (by apply Forall_app); by rewrite filter_app|].
  intros -> e He. split; [apply elem_of_app; by left|].
  apply list_elem_of_lookup in He as [k Hk].
  exists k, (length (filter (λ e, identifier py_repr e
                                   ∉ first_column (default [] (csv_file σ)))
                            vocabulary1) + k)%nat.
  split; [|split].
  - apply lookup_lt_Some in Hk. lia.
  - by apply lookup_app_l_Some.
  - by rewrite lookup_app_r, Nat.add_comm, Nat.add_sub by lia.
Qed.

Lemma filter_judges_each_entry_alone_witness :
  ∃ new1 new2,
    (select_new_vocabulary no_repr
       ([sample_entry 2 "c" "d" "y"] ++ [sample_entry 2 "c" "d" "y"])
       used_machine).1 = Ok (new1 ++ new2) ∧
    (select_new_vocabulary no_repr [sample_entry 2 "c" "d" "y"] used_machine).1 =
      Ok new1.
Proof.
  destruct (filter_judges_each_entry_alone no_repr [sample_entry 2 "c" "d" "y"]
              [sample_entry 2 "c" "d" "y"] used_machine)
    as (new1 & new2 & Hfirst & _ & Hboth & _).
  - constructor; [by eexists|]. constructor; [by eexists|constructor].
  - by repeat constructor.
  - exists new1, new2. split; [exact Hboth|exact Hfirst].
Defined.
